(** * Quantum Sudoku: the rule engine of [latest.py], embedded and verified

    The development follows the Python source class by class:
    - [Random]: the calls the engine makes to Python's [random] module,
      reading an explicit tape of draws;
    - [QuantumCell]: the per-cell record and its three methods;
    - [QuantumSudokuGame]: generator, solution counter, carving, quantum
      layer, move adjudication, end-of-game scoring and the AI actor;
    - the handlers of [QuantumSudokuUI] that decide which engine command
      runs ([handle_board_click], [handle_logic_move], [handle_give_up],
      the number row) and [update].

    The properties come after the model: first their vocabulary (the
    units of the board, solutions of a grid, commands and reachable
    sessions, the concrete sessions used as inputs), then the proofs.

    Python objects mutated in place become explicit state passing: every
    method takes the game (and the tape when it draws) and returns the new
    game (and the rest of the tape).  Cells refer to each other by
    coordinates only ([entangled_with] is a list of pairs), so a board is
    a list of rows of cell records without any sharing. *)

From stdpp Require Import base list gmap.
From Stdlib Require Import ZArith Lia Bool.
From Stdlib Require String.
Import String.StringSyntax.
Delimit Scope string_scope with string.

#[local] Open Scope Z_scope.

(* ===================================================================== *)
(** ** The random source *)
(* ===================================================================== *)

Module Random.

(** A tape of raw draws.  [randbelow n] consumes one draw and reduces it
    below [n]; an exhausted tape keeps answering 0. *)
Definition tape := list nat.

Definition randbelow (n : nat) (t : tape) : nat * tape :=
  match t with
  | [] => (0%nat, [])
  | x :: t' => ((x mod n)%nat, t')
  end.

(** [random.random()]: a float of [0, 1), kept here in thousandths, which
    is all the two comparisons of the source ([< 0.2], [< 0.5]) look at. *)
Definition random (t : tape) : Z * tape :=
  let '(x, t') := randbelow 1000 t in (Z.of_nat x, t').

(** [random.randint(a, b)] is [a + randbelow(b - a + 1)]. *)
Definition randint (a b : Z) (t : tape) : Z * tape :=
  let '(x, t') := randbelow (Z.to_nat (b - a + 1)) t in (a + Z.of_nat x, t').

(** [random.choice(seq)] is [seq[randbelow(len(seq))]]; the engine only
    calls it on non-empty sequences, [d] is never returned there. *)
Definition choice {A} (d : A) (l : list A) (t : tape) : A * tape :=
  let '(i, t') := randbelow (length l) t in (default d (l !! i), t').

Definition swap {A} (i j : nat) (l : list A) : list A :=
  match l !! i, l !! j with
  | Some a, Some b => <[j := a]> (<[i := b]> l)
  | _, _ => l
  end.

(** [random.shuffle(x)]: for i in reversed(range(1, len(x))), swap x[i]
    with x[randbelow(i + 1)].  [n] is the number of indices left, from
    [len(x) - 1] down to 1. *)
Fixpoint shuffle_from {A} (n : nat) (l : list A) (t : tape) : list A * tape :=
  match n with
  | O => (l, t)
  | S n' =>
      let '(j, t') := randbelow (S n) t in
      shuffle_from n' (swap n j l) t'
  end.

Definition shuffle {A} (l : list A) (t : tape) : list A * tape :=
  shuffle_from (length l - 1) l t.

(** [random.sample(population, k)] on a short population (the pool
    branch): result[i] = pool[j]; pool[j] = pool[n - i - 1]. *)
Fixpoint sample_pool {A} (k : nat) (pool : list A) (n : nat) (t : tape)
  : list A * tape :=
  match k with
  | O => ([], t)
  | S k' =>
      let '(j, t1) := randbelow n t in
      match pool !! j, pool !! (n - 1)%nat with
      | Some x, Some y =>
          let '(rest, t2) := sample_pool k' (<[j := y]> pool) (n - 1) t1 in
          (x :: rest, t2)
      | _, _ => ([], t1)
      end
  end.

Definition sample {A} (population : list A) (k : nat) (t : tape) : list A * tape :=
  sample_pool k population (length population) t.

End Random.

(* ===================================================================== *)
(** ** class QuantumCell *)
(* ===================================================================== *)

Record QuantumCell := mkCell {
  value : Z;                          (* 0 means empty *)
  superposition : list Z;
  collapsed : bool;
  entangled_with : list (nat * nat);
  entanglement_group : option nat;
  locked : bool
}.

(** The coordinates a cell stores about itself ([self.row], [self.col])
    are written once by the constructor and never read; they are left out. *)
Definition new_cell : QuantumCell :=
  {| value := 0; superposition := []; collapsed := true;
     entangled_with := []; entanglement_group := None; locked := false |}.

Definition with_value (v : Z) (c : QuantumCell) : QuantumCell :=
  {| value := v; superposition := superposition c; collapsed := collapsed c;
     entangled_with := entangled_with c;
     entanglement_group := entanglement_group c; locked := locked c |}.

Definition with_locked (l : bool) (c : QuantumCell) : QuantumCell :=
  {| value := value c; superposition := superposition c; collapsed := collapsed c;
     entangled_with := entangled_with c;
     entanglement_group := entanglement_group c; locked := l |}.

Definition with_entanglement (grp : nat) (peer : nat * nat) (c : QuantumCell)
  : QuantumCell :=
  {| value := value c; superposition := superposition c; collapsed := collapsed c;
     entangled_with := entangled_with c ++ [peer];
     entanglement_group := Some grp; locked := locked c |}.

Definition set_superposition (values : list Z) (c : QuantumCell) : QuantumCell :=
  match values with
  | [v] =>
      {| value := v; superposition := []; collapsed := true;
         entangled_with := entangled_with c;
         entanglement_group := entanglement_group c; locked := locked c |}
  | _ =>
      {| value := 0; superposition := values; collapsed := false;
         entangled_with := entangled_with c;
         entanglement_group := entanglement_group c; locked := locked c |}
  end.

Definition is_empty_list {A} (l : list A) : bool :=
  match l with [] => true | _ => false end.

Definition mem (x : Z) (l : list Z) : bool := existsb (Z.eqb x) l.

Definition collapse_to (v : Z) (c : QuantumCell) : QuantumCell :=
  {| value := v; superposition := []; collapsed := true;
     entangled_with := entangled_with c;
     entanglement_group := entanglement_group c; locked := locked c |}.

(** [QuantumCell.collapse]: the returned boolean, the cell afterwards, the
    rest of the tape. *)
Definition collapse (c : QuantumCell) (v : option Z) (t : Random.tape)
  : bool * QuantumCell * Random.tape :=
  if is_empty_list (superposition c) || collapsed c then (false, c, t)
  else
    match v with
    | None =>
        let '(x, t') := Random.choice 0 (superposition c) t in
        (true, collapse_to x c, t')
    | Some x =>
        if mem x (superposition c) then (true, collapse_to x c, t)
        else (false, c, t)
    end.

Definition is_quantum (c : QuantumCell) : bool :=
  negb (is_empty_list (superposition c)) && negb (collapsed c).

(* ===================================================================== *)
(** ** class QuantumSudokuGame: state *)
(* ===================================================================== *)

Inductive Difficulty := easy | medium | hard.
Inductive Winner := Player | AI | Draw.

(** Exceptions a command can leave with instead of returning. *)
Inductive exn := AttributeError | IndexError.

Inductive outcome (A : Type) :=
| Return (a : A)
| Raise (e : exn).
Arguments Return {A} a.
Arguments Raise {A} e.

Abbreviation Board := (list (list QuantumCell)).

Record QuantumSudokuGame := mkGame {
  board : Board;
  difficulty : Difficulty;
  selected_cell : option (nat * nat);
  player_turn : bool;
  game_over : bool;
  winner : option Winner;
  message : String.string;
  entanglement_groups : gmap nat (list (nat * nat));
  logic_moves_remaining : Z;
  show_entanglement_lines : bool;
  using_logic_move : bool;
  player_mistakes : Z;
  ai_mistakes : Z
}.

Definition with_board (b : Board) (g : QuantumSudokuGame) : QuantumSudokuGame :=
  mkGame b (difficulty g) (selected_cell g) (player_turn g) (game_over g)
    (winner g) (message g) (entanglement_groups g) (logic_moves_remaining g)
    (show_entanglement_lines g) (using_logic_move g) (player_mistakes g)
    (ai_mistakes g).

Definition with_selected_cell (s : option (nat * nat)) (g : QuantumSudokuGame) :=
  mkGame (board g) (difficulty g) s (player_turn g) (game_over g)
    (winner g) (message g) (entanglement_groups g) (logic_moves_remaining g)
    (show_entanglement_lines g) (using_logic_move g) (player_mistakes g)
    (ai_mistakes g).

Definition with_player_turn (p : bool) (g : QuantumSudokuGame) :=
  mkGame (board g) (difficulty g) (selected_cell g) p (game_over g)
    (winner g) (message g) (entanglement_groups g) (logic_moves_remaining g)
    (show_entanglement_lines g) (using_logic_move g) (player_mistakes g)
    (ai_mistakes g).

Definition with_result (over : bool) (w : option Winner) (m : String.string)
    (g : QuantumSudokuGame) :=
  mkGame (board g) (difficulty g) (selected_cell g) (player_turn g) over
    w m (entanglement_groups g) (logic_moves_remaining g)
    (show_entanglement_lines g) (using_logic_move g) (player_mistakes g)
    (ai_mistakes g).

Definition with_groups (m : gmap nat (list (nat * nat))) (g : QuantumSudokuGame) :=
  mkGame (board g) (difficulty g) (selected_cell g) (player_turn g) (game_over g)
    (winner g) (message g) m (logic_moves_remaining g)
    (show_entanglement_lines g) (using_logic_move g) (player_mistakes g)
    (ai_mistakes g).

Definition with_logic_moves (n : Z) (g : QuantumSudokuGame) :=
  mkGame (board g) (difficulty g) (selected_cell g) (player_turn g) (game_over g)
    (winner g) (message g) (entanglement_groups g) n
    (show_entanglement_lines g) (using_logic_move g) (player_mistakes g)
    (ai_mistakes g).

Definition with_using_logic_move (u : bool) (g : QuantumSudokuGame) :=
  mkGame (board g) (difficulty g) (selected_cell g) (player_turn g) (game_over g)
    (winner g) (message g) (entanglement_groups g) (logic_moves_remaining g)
    (show_entanglement_lines g) u (player_mistakes g) (ai_mistakes g).

Definition with_player_mistakes (n : Z) (g : QuantumSudokuGame) :=
  mkGame (board g) (difficulty g) (selected_cell g) (player_turn g) (game_over g)
    (winner g) (message g) (entanglement_groups g) (logic_moves_remaining g)
    (show_entanglement_lines g) (using_logic_move g) n (ai_mistakes g).

Definition with_ai_mistakes (n : Z) (g : QuantumSudokuGame) :=
  mkGame (board g) (difficulty g) (selected_cell g) (player_turn g) (game_over g)
    (winner g) (message g) (entanglement_groups g) (logic_moves_remaining g)
    (show_entanglement_lines g) (using_logic_move g) (player_mistakes g) n.

(** *** Board access *)

(** [self.board[row][col]] as written by a caller: [None] stands for the
    IndexError of an index past the end.  Coordinates are naturals. *)
Definition lookup_cell (b : Board) (row col : nat) : option QuantumCell :=
  match b !! row with
  | Some r => r !! col
  | None => None
  end.

(** The same access inside the loops over [range(9)], where the index is
    in range on every 9x9 board. *)
Definition cell_at (b : Board) (row col : nat) : QuantumCell :=
  default new_cell (lookup_cell b row col).

(** [self.board[row][col].field = ...]: the cell object is replaced by its
    updated record. *)
Definition update_cell (f : QuantumCell -> QuantumCell) (row col : nat) (b : Board)
  : Board :=
  alter (alter f col) row b.

Definition range9 : list nat := seq 0 9.

(** [[(r, c) for r in range(9) for c in range(9)]], the row-major order of
    every double loop of the source. *)
Definition all_cells : list (nat * nat) :=
  Eval cbv in flat_map (fun r => map (fun c => (r, c)) (seq 0 9)) (seq 0 9).

(* ===================================================================== *)
(** ** Constraint checker *)
(* ===================================================================== *)

(** The test applied to every peer [other] of the target cell. *)
Definition conflicts (check_quantum : bool) (num : Z) (other : QuantumCell) : bool :=
  (collapsed other && (value other =? num))
  || (check_quantum && is_quantum other && mem num (superposition other)).

Definition is_valid_move (g : QuantumSudokuGame) (row col : nat) (num : Z)
    (check_quantum : bool) : bool :=
  if using_logic_move g then true
  else
    let b := board g in
    let hit r c := conflicts check_quantum num (cell_at b r c) in
    if existsb (fun c => negb (c =? col)%nat && hit row c) range9 then false
    else if existsb (fun r => negb (r =? row)%nat && hit r col) range9 then false
    else
      let box_row := (row / 3 * 3)%nat in
      let box_col := (col / 3 * 3)%nat in
      if existsb (fun r =>
           existsb (fun c =>
             (negb (r =? row)%nat || negb (c =? col)%nat) && hit r c)
             (seq box_col 3))
           (seq box_row 3) then false
      else if (row =? col)%nat
              && existsb (fun i => negb (i =? row)%nat && hit i i) range9 then false
      else if (row + col =? 8)%nat
              && existsb (fun i => negb (i =? row)%nat && hit i (8 - i)%nat) range9
           then false
      else true.

(* ===================================================================== *)
(** ** Full-board generator *)
(* ===================================================================== *)

Definition find_empty_cell (g : QuantumSudokuGame) : option (nat * nat) :=
  find (fun '(r, c) => value (cell_at (board g) r c) =? 0) all_cells.

Definition nums : list Z := [1; 2; 3; 4; 5; 6; 7; 8; 9].

Definition set_value (row col : nat) (v : Z) (g : QuantumSudokuGame) :=
  with_board (update_cell (with_value v) row col (board g)) g.

(** The [for num in range(1, 10)] loop of [solve_board] at one empty cell;
    [rec] is the recursive call [self.solve_board()]. *)
Fixpoint solve_nums (rec : QuantumSudokuGame -> option (bool * QuantumSudokuGame))
    (row col : nat) (l : list Z) (g : QuantumSudokuGame)
  : option (bool * QuantumSudokuGame) :=
  match l with
  | [] => Some (false, g)
  | num :: l' =>
      if is_valid_move g row col num false then
        match rec (set_value row col num g) with
        | None => None
        | Some (true, g') => Some (true, g')
        | Some (false, g') => solve_nums rec row col l' (set_value row col 0 g')
        end
      else solve_nums rec row col l' g
  end.

(** [solve_board]: every call fills one empty cell before it recurses, so
    the depth of the recursion is bounded by the number of empty cells;
    [None] means that [fuel] was too small for the board. *)
Fixpoint solve_board (fuel : nat) (g : QuantumSudokuGame)
  : option (bool * QuantumSudokuGame) :=
  match fuel with
  | O => None
  | S fuel' =>
      match find_empty_cell g with
      | None => Some (true, g)
      | Some (row, col) => solve_nums (solve_board fuel') row col nums g
      end
  end.

Definition reset_cell (c : QuantumCell) : QuantumCell := new_cell.

Definition reset_board (b : Board) : Board := map (map reset_cell) b.

(** [generate_solved_board]: reset every cell, then [solve_board] (its
    boolean is dropped by the source). *)
Definition generate_solved_board (g : QuantumSudokuGame) : option QuantumSudokuGame :=
  match solve_board 82 (with_board (reset_board (board g)) g) with
  | Some (_, g') => Some g'
  | None => None
  end.

(** [QuantumSudokuGame.__init__] up to the call of [setup_game]. *)
Definition init_game (d : Difficulty) : QuantumSudokuGame :=
  {| board := replicate 9 (replicate 9 new_cell);
     difficulty := d; selected_cell := None; player_turn := true;
     game_over := false; winner := None; message := String.EmptyString;
     entanglement_groups := ∅; logic_moves_remaining := 10;
     show_entanglement_lines := false; using_logic_move := false;
     player_mistakes := 0; ai_mistakes := 0 |}.

Definition values_of (b : Board) : list (list Z) := map (map value) b.

(* ===================================================================== *)
(** ** Solution counter *)
(* ===================================================================== *)

(** A plain value grid, [List[List[int]]]. *)
Abbreviation Grid := (list (list Z)).

Definition grid_at (b : Grid) (row col : nat) : Z :=
  match b !! row with
  | Some r => default 0 (r !! col)
  | None => 0
  end.

Definition grid_set (row col : nat) (v : Z) (b : Grid) : Grid :=
  alter (<[col := v]>) row b.

Definition is_valid_in_board (b : Grid) (row col : nat) (num : Z) : bool :=
  if mem num (default [] (b !! row)) then false
  else if mem num (map (fun r => grid_at b r col) range9) then false
  else
    let box_row := (row / 3 * 3)%nat in
    let box_col := (col / 3 * 3)%nat in
    if existsb (fun r => existsb (fun c => grid_at b r c =? num) (seq box_col 3))
         (seq box_row 3) then false
    else true.

Definition find_empty (b : Grid) : option (nat * nat) :=
  find (fun '(r, c) => grid_at b r c =? 0) all_cells.

(** The [for num in range(1, 10)] loop of [count_solutions]; the board is
    restored to [b] after each recursive call [rec]. *)
Fixpoint count_nums (rec : Grid -> option Z) (row col : nat) (l : list Z)
    (count : Z) (b : Grid) : option Z :=
  match l with
  | [] => Some count
  | num :: l' =>
      if is_valid_in_board b row col num then
        match rec (grid_set row col num b) with
        | None => None
        | Some k =>
            let count' := count + k in
            if count' >? 1 then Some count'
            else count_nums rec row col l' count' b
        end
      else count_nums rec row col l' count b
  end.

(** [count_solutions]; [None] means that [fuel] was too small. *)
Fixpoint count_solutions (fuel : nat) (b : Grid) : option Z :=
  match fuel with
  | O => None
  | S fuel' =>
      match find_empty b with
      | None => Some 1
      | Some (row, col) => count_nums (count_solutions fuel') row col nums 0 b
      end
  end.

(* ===================================================================== *)
(** ** Puzzle carving *)
(* ===================================================================== *)

Definition cells_to_remove (d : Difficulty) : Z :=
  match d with easy => 40 | medium => 50 | hard => 60 end.

(** [[[self.board[r][c].value for c in range(9)] for r in range(9)]] *)
Definition board_copy (b : Board) : Grid :=
  map (fun r => map (fun c => value (cell_at b r c)) range9) range9.

Definition is_hard (d : Difficulty) : bool :=
  match d with hard => true | _ => false end.

(** The removal loop of [create_puzzle] over the shuffled positions. *)
Fixpoint carve (cells : list (nat * nat)) (removed : Z) (g : QuantumSudokuGame)
  : option QuantumSudokuGame :=
  match cells with
  | [] => Some g
  | (row, col) :: rest =>
      if removed >=? cells_to_remove (difficulty g) then Some g
      else
        let original := value (cell_at (board g) row col) in
        let g1 := set_value row col 0 g in
        if is_hard (difficulty g) then carve rest (removed + 1) g1
        else
          match count_solutions 82 (board_copy (board g1)) with
          | None => None
          | Some solutions =>
              if negb (solutions =? 1)
              then carve rest removed (set_value row col original g1)
              else carve rest (removed + 1) g1
          end
  end.

Definition lock_given (c : QuantumCell) : QuantumCell :=
  if negb (value c =? 0) then with_locked true c else c.

Definition update_cells (f : QuantumCell -> QuantumCell) (cells : list (nat * nat))
    (b : Board) : Board :=
  foldl (fun b '(r, c) => update_cell f r c b) b cells.

Definition create_puzzle (g : QuantumSudokuGame) (t : Random.tape)
  : option (QuantumSudokuGame * Random.tape) :=
  let '(shuffled, t') := Random.shuffle all_cells t in
  match carve shuffled 0 g with
  | None => None
  | Some g' => Some (with_board (update_cells lock_given all_cells (board g')) g', t')
  end.

(* ===================================================================== *)
(** ** Quantum layer *)
(* ===================================================================== *)

Definition cells_where (p : nat -> nat -> QuantumCell -> bool) (b : Board)
  : list (nat * nat) :=
  List.filter (fun '(r, c) => p r c (cell_at b r c)) all_cells.

Definition create_entanglement (row col : nat) (g : QuantumSudokuGame)
    (t : Random.tape) : QuantumSudokuGame * Random.tape :=
  let candidates :=
    cells_where (fun r c other =>
      (negb (r =? row)%nat || negb (c =? col)%nat)
      && is_quantum other && is_empty_list (entangled_with other)) (board g) in
  if is_empty_list candidates then (g, t)
  else
    let '((other_row, other_col), t') := Random.choice (0%nat, 0%nat) candidates t in
    let group_id := S (size (entanglement_groups g)) in
    let b1 := update_cell (with_entanglement group_id (other_row, other_col))
                row col (board g) in
    let b2 := update_cell (with_entanglement group_id (row, col))
                other_row other_col b1 in
    (with_groups (<[group_id := [(row, col); (other_row, other_col)]]>
                    (entanglement_groups g))
       (with_board b2 g), t').

Definition is_easy (d : Difficulty) : bool :=
  match d with easy => true | _ => false end.

(** The body of the loop of [create_quantum_cells] for one chosen cell. *)
Definition make_quantum (row col : nat) (g : QuantumSudokuGame) (t : Random.tape)
  : QuantumSudokuGame * Random.tape :=
  let v := value (cell_at (board g) row col) in
  let alternatives :=
    List.filter (fun num => negb (num =? v) && is_valid_move g row col num false)
      nums in
  if is_empty_list alternatives then (g, t)
  else
    let '(num_alternatives, t1) :=
      if is_easy (difficulty g) then Random.randint 1 2 t else Random.randint 1 3 t in
    let '(chosen, t2) :=
      Random.sample alternatives
        (Nat.min (Z.to_nat num_alternatives) (length alternatives)) t1 in
    let g1 := with_board
                (update_cell (set_superposition (v :: chosen)) row col (board g)) g in
    let '(x, t3) := Random.random t2 in
    if x <? 500 then create_entanglement row col g1 t3 else (g1, t3).

Fixpoint make_quantum_all (cells : list (nat * nat)) (g : QuantumSudokuGame)
    (t : Random.tape) : QuantumSudokuGame * Random.tape :=
  match cells with
  | [] => (g, t)
  | (row, col) :: rest =>
      let '(g', t') := make_quantum row col g t in make_quantum_all rest g' t'
  end.

Definition create_quantum_cells (num_quantum : nat) (g : QuantumSudokuGame)
    (t : Random.tape) : QuantumSudokuGame * Random.tape :=
  let candidates :=
    cells_where (fun _ _ cell =>
      negb (locked cell) && negb (value cell =? 0) && negb (is_quantum cell))
      (board g) in
  let '(shuffled, t') := Random.shuffle candidates t in
  make_quantum_all (take num_quantum shuffled) g t'.

Definition num_quantum (d : Difficulty) : nat :=
  match d with easy => 5%nat | medium => 10%nat | hard => 15%nat end.

Definition setup_game (g : QuantumSudokuGame) (t : Random.tape)
  : option (QuantumSudokuGame * Random.tape) :=
  match generate_solved_board g with
  | None => None
  | Some g1 =>
      match create_puzzle g1 t with
      | None => None
      | Some (g2, t') => Some (create_quantum_cells (num_quantum (difficulty g2)) g2 t')
      end
  end.

(** [QuantumSudokuGame(difficulty)] *)
Definition new_game (d : Difficulty) (t : Random.tape)
  : option (QuantumSudokuGame * Random.tape) :=
  setup_game (init_game d) t.

(* ===================================================================== *)
(** ** Collapse with entanglement *)
(* ===================================================================== *)

(** One round of the loop [for other_row, other_col in cell.entangled_with]
    shared by [collapse_quantum_cell] and [ai_move]; [cell.value] is read
    from the collapsed cell at [(row, col)]. *)
Definition collapse_peer (row col : nat) (peer : nat * nat) (b : Board)
    (t : Random.tape) : Board * Random.tape :=
  let '(other_row, other_col) := peer in
  let other_cell := cell_at b other_row other_col in
  if is_quantum other_cell then
    let v := value (cell_at b row col) in
    let '(_, other', t') :=
      if mem v (superposition other_cell) then collapse other_cell (Some v) t
      else collapse other_cell None t in
    (update_cell (fun _ => other') other_row other_col b, t')
  else (b, t).

Fixpoint collapse_peers (row col : nat) (peers : list (nat * nat)) (b : Board)
    (t : Random.tape) : Board * Random.tape :=
  match peers with
  | [] => (b, t)
  | p :: rest =>
      let '(b', t') := collapse_peer row col p b t in
      collapse_peers row col rest b' t'
  end.

Definition collapse_quantum_cell (row col : nat) (v : option Z)
    (g : QuantumSudokuGame) (t : Random.tape)
  : bool * QuantumSudokuGame * Random.tape :=
  let cell := cell_at (board g) row col in
  if negb (is_quantum cell) then (false, g, t)
  else
    let '(success, cell', t1) := collapse cell v t in
    if negb success then (false, g, t1)
    else
      let b1 := update_cell (fun _ => cell') row col (board g) in
      let '(b2, t2) := collapse_peers row col (entangled_with cell') b1 t1 in
      (true, with_board b2 g, t2).

(* ===================================================================== *)
(** ** Move adjudication *)
(* ===================================================================== *)

(** [make_move].  The branch for a filled cell calls
    [self.create_quantum_cell(row, col)]; the class defines
    [create_quantum_cells] and [create_entanglement] but no method of that
    name, so the attribute lookup raises AttributeError before anything is
    written. *)
Definition make_move (row col : nat) (v : Z) (g : QuantumSudokuGame)
    (t : Random.tape) : outcome bool * QuantumSudokuGame * Random.tape :=
  match lookup_cell (board g) row col with
  | None => (Raise IndexError, g, t)
  | Some cell =>
      if locked cell then (Return false, g, t)
      else if collapsed cell then
        if value cell =? 0 then
          if is_valid_move g row col v true
          then (Return true, set_value row col v g, t)
          else (Return false, with_player_mistakes (player_mistakes g + 1) g, t)
        else
          let '(x, t') := Random.random t in
          if x <? 200 then (Raise AttributeError, g, t')
          else (Return false, g, t')
      else
        let '(ok, g', t') := collapse_quantum_cell row col (Some v) g t in
        (Return ok, g', t')
  end.

(** [use_logic_move] *)
Definition use_logic_move (row col : nat) (v : option Z) (g : QuantumSudokuGame)
    (t : Random.tape) : outcome bool * QuantumSudokuGame * Random.tape :=
  if logic_moves_remaining g <=? 0 then (Return false, g, t)
  else
    match lookup_cell (board g) row col with
    | None => (Raise IndexError, g, t)
    | Some cell =>
        if locked cell then (Return false, g, t)
        else
          let g0 := with_using_logic_move true g in
          let '(g1, t1) :=
            if collapsed cell then
              if value cell =? 0 then
                let '(x, t') :=
                  match v with
                  | Some x => (x, t)
                  | None => Random.randint 1 9 t
                  end in
                (set_value row col x g0, t')
              else
                let current_value := value cell in
                let alternatives :=
                  List.filter (fun num => negb (num =? current_value)) nums in
                let '(num_alternatives, t1) := Random.randint 1 3 t in
                let '(chosen, t2) :=
                  Random.sample alternatives
                    (Nat.min (Z.to_nat num_alternatives) (length alternatives)) t1 in
                let g' := with_board
                            (update_cell (set_superposition (current_value :: chosen))
                               row col (board g0)) g0 in
                let '(x, t3) := Random.random t2 in
                if x <? 500 then create_entanglement row col g' t3 else (g', t3)
            else
              let '(_, cell', t') :=
                match v with
                | Some x =>
                    if mem x (superposition cell) then collapse cell (Some x) t
                    else collapse cell None t
                | None => collapse cell None t
                end in
              (with_board (update_cell (fun _ => cell') row col (board g0)) g0, t') in
          let g2 := with_using_logic_move false g1 in
          (Return true,
           with_logic_moves (logic_moves_remaining g2 - 1) g2, t1)
    end.

(* ===================================================================== *)
(** ** End-of-game scoring *)
(* ===================================================================== *)

(** [values.add(x)] on a set kept as a duplicate-free list; [len(values)]
    is its length. *)
Definition set_add (s : list Z) (x : Z) : list Z := if mem x s then s else x :: s.

Definition distinct (l : list Z) : nat := length (foldl set_add [] l).

Definition is_board_solved (g : QuantumSudokuGame) : bool :=
  let b := board g in
  let v r c := value (cell_at b r c) in
  forallb (fun row =>
    forallb (fun col =>
      negb (negb (collapsed (cell_at b row col)) || (v row col =? 0))) range9
    && (distinct (map (fun col => v row col) range9) =? 9)%nat) range9
  && forallb (fun col =>
       (distinct (map (fun row => v row col) range9) =? 9)%nat) range9
  && forallb (fun box_row =>
       forallb (fun box_col =>
         (distinct
            (flat_map (fun i => map (fun j => v (box_row + i) (box_col + j))%nat
                                  (seq 0 3)) (seq 0 3)) =? 9)%nat)
         [0; 3; 6]%nat) [0; 3; 6]%nat
  && (distinct (map (fun i => v i i) range9) =? 9)%nat
  && (distinct (map (fun i => v i (8 - i)%nat) range9) =? 9)%nat.

(** The test of [check_ai_moves] at one cell: a resolved, nonzero,
    unlocked cell whose own value is not a valid move there. *)
Definition ai_violation (g : QuantumSudokuGame) (p : nat * nat) : bool :=
  let '(row, col) := p in
  let cell := cell_at (board g) row col in
  collapsed cell && negb (value cell =? 0) && negb (locked cell)
  && negb (is_valid_move g row col (value cell) false).

Definition check_ai_moves (g : QuantumSudokuGame) : bool * QuantumSudokuGame :=
  if existsb (ai_violation g) all_cells
  then (false, with_ai_mistakes (ai_mistakes g + 1) g)
  else (true, g).

Definition all_filled (g : QuantumSudokuGame) : bool :=
  forallb (fun '(row, col) =>
    let cell := cell_at (board g) row col in
    negb (collapsed cell && (value cell =? 0)) && collapsed cell) all_cells.

Definition check_game_over (g : QuantumSudokuGame) : QuantumSudokuGame :=
  if all_filled g then
    let player_correct := is_board_solved g in
    let '(ai_correct, g1) := check_ai_moves g in
    if player_correct && negb ai_correct then
      with_result true (Some Player) "You won! AI made mistakes."%string g1
    else if negb player_correct && ai_correct then
      with_result true (Some AI) "AI won! You made mistakes."%string g1
    else if player_correct && ai_correct then
      if player_mistakes g1 <? ai_mistakes g1 then
        with_result true (Some Player) "You won! Made fewer mistakes than AI."%string g1
      else if player_mistakes g1 >? ai_mistakes g1 then
        with_result true (Some AI) "AI won! Made fewer mistakes than you."%string g1
      else
        with_result true (Some Draw) "Perfect match! It's a draw."%string g1
    else
      if player_mistakes g1 <? ai_mistakes g1 then
        with_result true (Some Player) "You won! Made fewer mistakes than AI."%string g1
      else if player_mistakes g1 >? ai_mistakes g1 then
        with_result true (Some AI) "AI won! Made fewer mistakes than you."%string g1
      else
        with_result true (Some Draw)
          "Both made same number of mistakes. It's a draw."%string g1
  else g.

(* ===================================================================== *)
(** ** AI actor *)
(* ===================================================================== *)

Definition ai_move (g : QuantumSudokuGame) (t : Random.tape)
  : QuantumSudokuGame * Random.tape :=
  if game_over g then (g, t)
  else
    let quantum_cells := cells_where (fun _ _ cell => is_quantum cell) (board g) in
    let '(g1, t1) :=
      if negb (is_empty_list quantum_cells) then
        let '((row, col), t1) := Random.choice (0%nat, 0%nat) quantum_cells t in
        let cell := cell_at (board g) row col in
        let valid_values :=
          List.filter (fun v => is_valid_move g row col v false) (superposition cell) in
        let '(_, cell', t2) :=
          if negb (is_empty_list valid_values) then
            let '(x, t') := Random.choice 0 valid_values t1 in
            collapse cell (Some x) t'
          else collapse cell None t1 in
        let b1 := update_cell (fun _ => cell') row col (board g) in
        let '(b2, t3) := collapse_peers row col (entangled_with cell') b1 t2 in
        (with_board b2 g, t3)
      else
        let empty_cells :=
          cells_where (fun _ _ cell => collapsed cell && (value cell =? 0)) (board g) in
        if negb (is_empty_list empty_cells) then
          let '((row, col), t1) := Random.choice (0%nat, 0%nat) empty_cells t in
          let valid_values :=
            List.filter (fun num => is_valid_move g row col num false) nums in
          if negb (is_empty_list valid_values) then
            let '(x, t2) := Random.choice 0 valid_values t1 in
            (set_value row col x g, t2)
          else
            let '(x, t2) := Random.randint 1 9 t1 in
            (with_ai_mistakes (ai_mistakes g + 1) (set_value row col x g), t2)
        else (g, t) in
    (check_game_over (with_player_turn true g1), t1).

(* ===================================================================== *)
(** ** class QuantumSudokuUI: the handlers that issue engine commands *)
(* ===================================================================== *)

(** Of the UI object only what decides which command reaches the engine is
    kept: the game, the number picked on the number row, and the flag that
    schedules the AI turn.  Widgets, fonts and drawing are left out, and
    the clock that delays the AI turn is an input of [update]. *)
Record QuantumSudokuUI := mkUI {
  game : QuantumSudokuGame;
  selected_num : option Z;
  ai_thinking : bool
}.

Definition WIDTH : Z := 900.
Definition BOARD_SIZE : Z := 540.
Definition CELL_SIZE : Z := BOARD_SIZE / 9.
Definition MARGIN : Z := 50.

(** What [handle_board_click] and [handle_logic_move] do once the engine
    accepted the move. *)
Definition after_player_move (g : QuantumSudokuGame) (sel : option Z)
    (thinking : bool) : QuantumSudokuUI :=
  let g' := check_game_over g in
  mkUI g' sel (if negb (game_over g') then true else thinking).

Definition handle_board_click (pos : Z * Z) (ui : QuantumSudokuUI) (t : Random.tape)
  : outcome unit * QuantumSudokuUI * Random.tape :=
  let g := game ui in
  if negb (player_turn g) || game_over g then (Return tt, ui, t)
  else
    let board_x := (WIDTH - BOARD_SIZE) / 2 in
    let board_y := MARGIN in
    if (board_x <=? fst pos) && (fst pos <=? board_x + BOARD_SIZE)
       && (board_y <=? snd pos) && (snd pos <=? board_y + BOARD_SIZE) then
      let col := (fst pos - board_x) / CELL_SIZE in
      let row := (snd pos - board_y) / CELL_SIZE in
      if (0 <=? row) && (row <? 9) && (0 <=? col) && (col <? 9) then
        let r := Z.to_nat row in
        let c := Z.to_nat col in
        let g1 := with_selected_cell (Some (r, c)) g in
        match selected_num ui with
        | None => (Return tt, mkUI g1 None (ai_thinking ui), t)
        | Some num =>
            if negb (locked (cell_at (board g1) r c)) then
              match make_move r c num g1 t with
              | (Raise e, g2, t') => (Raise e, mkUI g2 (Some num) (ai_thinking ui), t')
              | (Return true, g2, t') =>
                  let ui' := after_player_move g2 (Some num) (ai_thinking ui) in
                  (Return tt, mkUI (game ui') None (ai_thinking ui'), t')
              | (Return false, g2, t') =>
                  (Return tt, mkUI g2 None (ai_thinking ui), t')
              end
            else (Return tt, mkUI g1 None (ai_thinking ui), t)
        end
      else (Return tt, ui, t)
    else (Return tt, ui, t).

Definition handle_logic_move (ui : QuantumSudokuUI) (t : Random.tape)
  : outcome unit * QuantumSudokuUI * Random.tape :=
  let g := game ui in
  match selected_cell g, selected_num ui with
  | Some (row, col), Some num =>
      if logic_moves_remaining g >? 0 then
        match use_logic_move row col (Some num) g t with
        | (Raise e, g1, t') => (Raise e, mkUI g1 (Some num) (ai_thinking ui), t')
        | (Return true, g1, t') =>
            (Return tt, after_player_move g1 (Some num) (ai_thinking ui), t')
        | (Return false, g1, t') =>
            (Return tt, mkUI g1 (Some num) (ai_thinking ui), t')
        end
      else (Return tt, ui, t)
  | _, _ => (Return tt, ui, t)
  end.

(** The number row of [handle_events]: a click on button [n] picks it,
    whenever it is the player's turn. *)
Definition select_number (n : Z) (ui : QuantumSudokuUI) : QuantumSudokuUI :=
  if player_turn (game ui) then mkUI (game ui) (Some n) (ai_thinking ui) else ui.

Definition handle_give_up (ui : QuantumSudokuUI) : QuantumSudokuUI :=
  let g := with_result true (Some AI) "You surrendered! AI wins."%string (game ui) in
  mkUI (snd (check_ai_moves g)) (selected_num ui) (ai_thinking ui).

(** [update]; [elapsed] says whether more than a second passed since the
    AI turn was scheduled. *)
Definition update (elapsed : bool) (ui : QuantumSudokuUI) (t : Random.tape)
  : QuantumSudokuUI * Random.tape :=
  if negb (game_over (game ui)) && ai_thinking ui && elapsed then
    let '(g', t') := ai_move (game ui) t in
    (mkUI g' (selected_num ui) false, t')
  else (ui, t).

(* ===================================================================== *)
(** * Vocabulary of the properties *)
(* ===================================================================== *)

(** ** Boards as arrays *)

Definition board9 (b : Board) : Prop :=
  length b = 9%nat /\ Forall (fun r => length r = 9%nat) b.


(** ** Units of the diagonal Sudoku *)

Definition value_at (g : QuantumSudokuGame) (r c : nat) : Z :=
  value (cell_at (board g) r c).

Definition row_values (g : QuantumSudokuGame) (r : nat) : list Z :=
  map (fun c => value_at g r c) range9.

Definition col_values (g : QuantumSudokuGame) (c : nat) : list Z :=
  map (fun r => value_at g r c) range9.

(** The box in band [br] and stack [bc], both below 3. *)
Definition box_values (g : QuantumSudokuGame) (br bc : nat) : list Z :=
  flat_map (fun i => map (fun j => value_at g (3 * br + i) (3 * bc + j))%nat (seq 0 3))
    (seq 0 3).

Definition main_diagonal (g : QuantumSudokuGame) : list Z :=
  map (fun i => value_at g i i) range9.

Definition anti_diagonal (g : QuantumSudokuGame) : list Z :=
  map (fun i => value_at g i (8 - i)%nat) range9.

(** A decision procedure for permutations of lists of integers. *)
Fixpoint remove_one (x : Z) (l : list Z) : option (list Z) :=
  match l with
  | [] => None
  | y :: l' =>
      if x =? y then Some l'
      else match remove_one x l' with
           | Some r => Some (y :: r)
           | None => None
           end
  end.

Fixpoint permb (l1 l2 : list Z) : bool :=
  match l1 with
  | [] => is_empty_list l2
  | x :: l1' =>
      match remove_one x l2 with
      | Some l2' => permb l1' l2'
      | None => false
      end
  end.

(** The board the generator arrives at. *)
Definition solved_grid : Grid :=
  [ [1; 2; 3; 4; 5; 6; 7; 8; 9];
    [4; 5; 6; 7; 8; 9; 1; 2; 3];
    [7; 8; 9; 1; 2; 3; 4; 5; 6];
    [2; 1; 4; 3; 6; 5; 8; 9; 7];
    [3; 6; 8; 9; 7; 2; 5; 1; 4];
    [5; 9; 7; 8; 1; 4; 6; 3; 2];
    [9; 4; 1; 6; 3; 8; 2; 7; 5];
    [8; 3; 2; 5; 4; 7; 9; 6; 1];
    [6; 7; 5; 2; 9; 1; 3; 4; 8] ].

Definition solved_board : Board :=
  map (map (fun v => with_value v new_cell)) solved_grid.

(** ** Counting cells *)

Definition count_nonzero (b : Board) : nat :=
  length (cells_where (fun _ _ cell => negb (value cell =? 0)) b).

Definition count_quantum (b : Board) : nat :=
  length (cells_where (fun _ _ cell => is_quantum cell) b).

(** ** Sessions used as concrete inputs *)

(** The medium game that the empty tape creates (every draw 0: the shuffle
    rotates the row-major order by one cell). *)
Definition medium_start :=
  Eval vm_compute in
    match new_game medium [] with
    | Some (g, _) => g
    | None => init_game medium
    end.

(** The player fills the empty cells (0,1) and (0,2) with 2 and 3. *)
Definition filled_01 : QuantumSudokuGame := set_value 0 1 2 medium_start.
Definition filled_02 : QuantumSudokuGame := set_value 0 2 3 filled_01.

(** A click in the middle of the board cell [(row, col)]. *)
Definition click_at (row col : Z) : Z * Z := (180 + 60 * col + 30, 50 + 60 * row + 30).

(** A grid that [create_puzzle] hands to [count_solutions] while it carves
    [medium_start]: the solved board with its first six rows carved as in
    [medium_start] and (6,0), (6,1) emptied. *)
Definition carving_grid : Grid :=
  [ [1; 0; 0; 0; 0; 0; 0; 0; 0];
    [0; 0; 0; 0; 0; 0; 0; 2; 3];
    [0; 0; 0; 0; 2; 3; 4; 5; 6];
    [0; 0; 0; 0; 0; 5; 0; 0; 7];
    [0; 0; 0; 0; 0; 0; 0; 0; 0];
    [0; 0; 0; 8; 1; 0; 0; 3; 2];
    [0; 0; 1; 6; 3; 8; 2; 7; 5];
    [8; 3; 2; 5; 4; 7; 9; 6; 1];
    [6; 7; 5; 2; 9; 1; 3; 4; 8] ].

(** Draws under which the shuffle visits 49 cells whose removal keeps the
    solution unique and then 32 cells none of which can be removed. *)
Definition tape32 : Random.tape :=
  [79; 77; 75; 71; 70; 66; 65; 58; 56; 52; 51; 44; 43; 41; 40; 37; 35; 34; 31;
   30; 24; 23; 20; 18; 14; 12; 11; 10; 4; 3; 1; 0; 4; 40; 3; 37; 20; 14; 20; 14;
   14; 35; 34; 31; 30; 24; 23; 18; 12; 11; 10; 1; 0; 4; 14; 3; 11; 20; 11; 20;
   10; 18; 12; 1; 0; 4; 14; 3; 11; 10; 10; 1; 0; 4; 3; 1; 0; 0; 0; 1]%nat.

(** The session after the player clicked cell (0,1) and then gave up. *)
Definition surrendered : QuantumSudokuUI :=
  let ui0 := mkUI medium_start None false in
  let ui1 := snd (fst (handle_board_click (click_at 0 1) ui0 [])) in
  select_number 5 (handle_give_up ui1).

(** Two logic moves on the filled cells (0,1) and (0,2) turn both into
    superposed cells; with every draw 0 the second one entangles them. *)
Definition superposed_01 : QuantumSudokuGame :=
  snd (fst (use_logic_move 0 1 None filled_02 [])).
Definition entangled_pair : QuantumSudokuGame :=
  snd (fst (use_logic_move 0 2 None superposed_01 [])).

(** ** Winner precedence, in the words of the specification *)

(** correct-only-player gives Player; correct-only-AI gives AI; both
    correct or both incorrect: fewer mistakes wins, equal mistakes is a
    draw. *)
Definition winner_precedence (player_correct ai_correct : bool)
    (player_count ai_count : Z) : Winner :=
  match player_correct, ai_correct with
  | true, false => Player
  | false, true => AI
  | _, _ =>
      if player_count <? ai_count then Player
      else if ai_count <? player_count then AI
      else Draw
  end.

(** A full board that breaks every rule: 1 in all 81 cells, none locked,
    both mistake counters 0. *)
Definition all_ones : QuantumSudokuGame :=
  with_board (replicate 9 (replicate 9 (with_value 1 new_cell))) (init_game medium).

(** ** Locked cells *)

(** What puzzle creation guarantees of a locked cell: it is resolved, holds
    a nonzero value, and has neither candidates nor entanglement links. *)
Definition given (x : QuantumCell) : Prop :=
  collapsed x = true /\ value x ≠ 0 /\ superposition x = []
  /\ entangled_with x = [] /\ entanglement_group x = None.

Definition locked_inv (b : Board) : Prop :=
  forall r c x, lookup_cell b r c = Some x -> locked x = true -> given x.

Definition unlocked_at (b : Board) (r c : nat) : Prop :=
  forall x, lookup_cell b r c = Some x -> locked x = false.

(** [locked_frame b b']: every position of [b'] holds the cell it held in
    [b], or held an unlocked cell and holds an unlocked cell. *)
Definition locked_frame (b b' : Board) : Prop :=
  forall r c,
    lookup_cell b' r c = lookup_cell b r c
    \/ exists x y, lookup_cell b r c = Some x /\ lookup_cell b' r c = Some y
                   /\ locked x = false /\ locked y = false.

(** ** Commands of a session *)

(** The operations that act on a session once it exists: the two player
    commands, a collapse, the AI turn, the end-of-game evaluation, the
    surrender, the selection of a cell, and quantum conversion (with the
    entanglement it draws). *)
Inductive command :=
| MakeMove (row col : nat) (v : Z)
| UseLogicMove (row col : nat) (v : option Z)
| CollapseQuantumCell (row col : nat) (v : option Z)
| AiMove
| CheckGameOver
| GiveUp
| SelectCell (p : nat * nat)
| CreateQuantumCells (n : nat).

Definition run (c : command) (g : QuantumSudokuGame) (t : Random.tape)
  : QuantumSudokuGame * Random.tape :=
  match c with
  | MakeMove row col v =>
      let '(_, g', t') := make_move row col v g t in (g', t')
  | UseLogicMove row col v =>
      let '(_, g', t') := use_logic_move row col v g t in (g', t')
  | CollapseQuantumCell row col v =>
      let '(_, g', t') := collapse_quantum_cell row col v g t in (g', t')
  | AiMove => ai_move g t
  | CheckGameOver => (check_game_over g, t)
  | GiveUp => (game (handle_give_up (mkUI g None false)), t)
  | SelectCell p => (with_selected_cell (Some p) g, t)
  | CreateQuantumCells n => create_quantum_cells n g t
  end.

(** The sessions that exist: a new game, and whatever a command makes of a
    session. *)
Inductive reachable : QuantumSudokuGame -> Prop :=
| reachable_new d t g t' : new_game d t = Some (g, t') -> reachable g
| reachable_run c g t : reachable g -> reachable (fst (run c g t)).

(** ** Invariants of puzzle creation *)

Definition board_all (P : QuantumCell -> Prop) (b : Board) : Prop :=
  forall r c x, lookup_cell b r c = Some x -> P x.

(** A cell as the generator and the carving leave it: resolved, unlocked,
    without candidates or links. *)
Definition plain (x : QuantumCell) : Prop :=
  collapsed x = true /\ locked x = false /\ superposition x = []
  /\ entangled_with x = [] /\ entanglement_group x = None.

(** A cell after the givens were locked. *)
Definition given_or_free (x : QuantumCell) : Prop :=
  collapsed x = true /\ superposition x = [] /\ entangled_with x = []
  /\ entanglement_group x = None /\ (locked x = true -> value x ≠ 0).

(** [g'] differs from [g] in its board only. *)
Definition only_board (g g' : QuantumSudokuGame) : Prop :=
  g' = with_board (board g') g.

(** A sequence of commands, each drawing from what the previous ones left
    of the tape. *)
Fixpoint run_all (cs : list command) (g : QuantumSudokuGame) (t : Random.tape)
  : QuantumSudokuGame * Random.tape :=
  match cs with
  | [] => (g, t)
  | c :: cs' => let '(g', t') := run c g t in run_all cs' g' t'
  end.

(** ** Solutions of a value grid *)

Definition grid9 (b : Grid) : Prop :=
  length b = 9%nat /\ Forall (fun r => length r = 9%nat) b.

(** Every way of filling the empty cells among [cells], in the order of
    the list, with a number of 1..9 that at the moment it is written
    occurs neither in its row, nor in its column, nor in its box: the
    rules that [is_valid_in_board] checks (the diagonals are not among
    them). *)
Fixpoint completions (cells : list (nat * nat)) (b : Grid) : list Grid :=
  match cells with
  | [] => [b]
  | (r, c) :: rest =>
      if grid_at b r c =? 0 then
        flat_map (fun num =>
                    if is_valid_in_board b r c num
                    then completions rest (grid_set r c num b)
                    else []) nums
      else completions rest b
  end.

(** The solutions of a grid. *)
Definition solutions (b : Grid) : list Grid := completions all_cells b.

(** What a capped count [n] tells about the true count [m]: it never
    exceeds it, and it is exact below 2. *)
Definition capped (n m : Z) : Prop := Z.min 2 m <= n <= m.

(** ** Carving *)

(** A cell after the locking loop of [create_puzzle] went over it. *)
Definition empty_or_locked (x : QuantumCell) : Prop :=
  value x = 0 \/ locked x = true.

(** The medium puzzle carved under [tape32], before quantum selection. *)
Definition carved_32 :=
  Eval vm_compute in
    match create_puzzle (with_board solved_board (init_game medium)) tape32 with
    | Some (g, _) => g
    | None => init_game medium
    end.

(** ** Solutions, declaratively *)

(** Two positions share a row, a column or a box. *)
Definition same_unit (p q : nat * nat) : bool :=
  (p.1 =? q.1)%nat || (p.2 =? q.2)%nat
  || ((p.1 / 3 =? q.1 / 3)%nat && (p.2 / 3 =? q.2 / 3)%nat).

Definition at_pos (b : Grid) (p : nat * nat) : Z := grid_at b p.1 p.2.

(** [s] solves [b]: it is a 9x9 grid that keeps the nonzero cells of [b]
    and holds, in every cell that [b] leaves empty, a number of 1..9 that
    no other cell of the same row, column or box of [s] holds. *)
Definition is_solution (b s : Grid) : Prop :=
  grid9 s
  /\ (forall p, p ∈ all_cells -> at_pos b p ≠ 0 -> at_pos s p = at_pos b p)
  /\ (forall p, p ∈ all_cells -> at_pos b p = 0 ->
        1 <= at_pos s p <= 9
        /\ forall q, q ∈ all_cells -> q ≠ p -> same_unit p q = true ->
             at_pos s q ≠ at_pos s p).

(** [q] comes before [p] in [cells]. *)
Definition before (cells : list (nat * nat)) (q p : nat * nat) : Prop :=
  exists l1 l2 l3, cells = l1 ++ q :: l2 ++ p :: l3.

(** The same, for the cells of [cells] only and looking backwards: a
    filled cell differs from the cells of its units that were nonzero in
    [b] or come before it in [cells]. *)
Definition fills (cells : list (nat * nat)) (b s : Grid) : Prop :=
  grid9 s
  /\ (forall p, p ∈ all_cells -> at_pos b p ≠ 0 -> at_pos s p = at_pos b p)
  /\ (forall p, p ∈ all_cells -> p ∉ cells -> at_pos s p = at_pos b p)
  /\ (forall p, p ∈ cells -> at_pos b p = 0 ->
        1 <= at_pos s p <= 9
        /\ forall q, q ∈ all_cells -> q ≠ p -> same_unit p q = true ->
             at_pos b q ≠ 0 \/ before cells q p ->
             at_pos s q ≠ at_pos s p).

(* ===================================================================== *)
(** * Further vocabulary *)
(* ===================================================================== *)

(** ** The puzzle of a new game *)

(** The nonzero cells of [b] hold what [s] holds there. *)
Definition values_within (b : Board) (s : Grid) : Prop :=
  forall r c, value (cell_at b r c) = 0 \/ value (cell_at b r c) = grid_at s r c.

Definition same_pos (p q : nat * nat) : bool :=
  (p.1 =? q.1)%nat && (p.2 =? q.2)%nat.

(** Every cell of [s] holds a number of 1..9 that no other cell of its
    row, column or box holds. *)
Definition grid_rules_ok (s : Grid) : bool :=
  forallb (fun p =>
    (1 <=? at_pos s p) && (at_pos s p <=? 9)
    && forallb (fun q =>
         negb (same_unit p q) || same_pos p q || negb (at_pos s q =? at_pos s p))
         all_cells) all_cells.

(** ** The rules of the diagonal Sudoku *)

(** [q] is another cell of a unit of [p]: of its row, its column, its box,
    or of a diagonal that [p] lies on. *)
Definition peer (p q : nat * nat) : bool :=
  negb (same_pos p q)
  && (same_unit p q
      || ((p.1 =? p.2)%nat && (q.1 =? q.2)%nat)
      || ((p.1 + p.2 =? 8)%nat && (q.1 + q.2 =? 8)%nat)).

(** The 29 units of the diagonal Sudoku as lists of positions. *)
Definition box_cells (box_row box_col : nat) : list (nat * nat) :=
  flat_map (fun i => map (fun j => (box_row + i, box_col + j)%nat) (seq 0 3)) (seq 0 3).

Definition unit_rows : list (list (nat * nat)) :=
  map (fun r => map (fun c => (r, c)) range9) range9.

Definition unit_cols : list (list (nat * nat)) :=
  map (fun c => map (fun r => (r, c)) range9) range9.

Definition unit_boxes : list (list (nat * nat)) :=
  flat_map (fun box_row => map (fun box_col => box_cells box_row box_col) [0; 3; 6]%nat)
    [0; 3; 6]%nat.

Definition unit_diagonals : list (list (nat * nat)) :=
  [map (fun i => (i, i)) range9; map (fun i => (i, 8 - i)%nat) range9].

Definition units : list (list (nat * nat)) :=
  unit_rows ++ unit_cols ++ unit_boxes ++ unit_diagonals.

(** Every cell is resolved and holds a number. *)
Definition full (g : QuantumSudokuGame) : Prop :=
  forall r c, (r < 9)%nat -> (c < 9)%nat ->
    collapsed (cell_at (board g) r c) = true /\ value (cell_at (board g) r c) ≠ 0.

(** The values of a game at a list of positions. *)
Definition values_at (g : QuantumSudokuGame) (u : list (nat * nat)) : list Z :=
  map (fun p => value_at g p.1 p.2) u.

(** ** Collapse *)

(** [z'] is [z] resolved to one of its candidates, and to [v] if [v] is
    among them. *)
Definition resolved_from (v : Z) (z z' : QuantumCell) : Prop :=
  exists w, z' = collapse_to w z /\ w ∈ superposition z
            /\ (v ∈ superposition z -> w = v).

(** The entangled pair after cell (0,1) was collapsed to 1. *)
Definition pair_collapsed : QuantumSudokuGame :=
  snd (fst (collapse_quantum_cell 0 1 (Some 1) entangled_pair [])).

(** ** The two states of a cell *)

(** A cell is either resolved, with no candidates left, or in
    superposition: unresolved, without a value, with at least two
    candidates. *)
Definition well_formed (x : QuantumCell) : Prop :=
  (collapsed x = true /\ superposition x = [])
  \/ (collapsed x = false /\ value x = 0 /\ (2 <= length (superposition x))%nat).

Definition board_ok (b : Board) : Prop := board9 b /\ board_all well_formed b.

(** ** What a command may change besides the board *)

(** [g'] differs from [g] in its board and its table of entanglement
    groups only. *)
Definition same_session (g g' : QuantumSudokuGame) : Prop :=
  g' = with_groups (entanglement_groups g') (with_board (board g') g).

(** The flags and counters of [g'] against those of [g]: the turn stays
    with the player, the logic-move flag stays down, a finished game stays
    finished, the difficulty is kept, and the mistake counters only grow,
    the player's by at most 1 and the AI's by at most 2. *)
Definition session_step (g g' : QuantumSudokuGame) : Prop :=
  (player_turn g = true -> player_turn g' = true)
  /\ (using_logic_move g = false -> using_logic_move g' = false)
  /\ (game_over g = true -> game_over g' = true)
  /\ difficulty g' = difficulty g
  /\ player_mistakes g <= player_mistakes g' <= player_mistakes g + 1
  /\ ai_mistakes g <= ai_mistakes g' <= ai_mistakes g + 2.

(** ** Entanglement links *)

(** The links that the cell at a position stores, if the board has it. *)
Definition links (b : Board) (r c : nat) : option (list (nat * nat)) :=
  entangled_with <$> lookup_cell b r c.

(** Links come in pairs and never point to the cell itself or off the
    board; the group table has the keys 1..n, and every group is a pair of
    two different cells that are linked. *)
Definition entanglement_ok (g : QuantumSudokuGame) : Prop :=
  (forall r c l q, links (board g) r c = Some l -> q ∈ l ->
     q ≠ (r, c) /\ exists l', links (board g) q.1 q.2 = Some l' /\ (r, c) ∈ l')
  /\ (forall k, is_Some (entanglement_groups g !! k)
               <-> (1 <= k <= size (entanglement_groups g))%nat)
  /\ (forall k m, entanglement_groups g !! k = Some m ->
        exists p q, m = [p; q] /\ p ≠ q
                    /\ exists l, links (board g) p.1 p.2 = Some l /\ q ∈ l).

(** [g'] has the links and the groups of [g]. *)
Definition links_step (g g' : QuantumSudokuGame) : Prop :=
  (forall r c, links (board g') r c = links (board g) r c)
  /\ entanglement_groups g' = entanglement_groups g.

(** ** Open cells *)

(** The cells that [ai_move] collects as empty: resolved, value 0. *)
Definition count_empty (b : Board) : nat :=
  length (cells_where (fun _ _ cell => collapsed cell && (value cell =? 0)) b).

(** ** The backtracking solver *)

(** The value at [p] differs from the value of every peer of [p]. *)
Definition fits (g : QuantumSudokuGame) (p : nat * nat) : Prop :=
  forall q, q ∈ all_cells -> peer p q = true ->
    value_at g q.1 q.2 ≠ value_at g p.1 p.2.

(** What [solve_board] needs of a board: 9x9, every cell resolved, no
    logic move in progress. *)
Definition solvable_shape (g : QuantumSudokuGame) : Prop :=
  board9 (board g) /\ using_logic_move g = false
  /\ forall r c, (r < 9)%nat -> (c < 9)%nat -> collapsed (cell_at (board g) r c) = true.

(** [s] completes [g]: it keeps the numbers of [g] and holds, in every
    cell that [g] leaves empty, a number of 1..9 that differs from the
    value of every peer. *)
Definition completion (g s : QuantumSudokuGame) : Prop :=
  (forall r c, value_at g r c ≠ 0 -> value_at s r c = value_at g r c)
  /\ forall p, p ∈ all_cells -> value_at g p.1 p.2 = 0 ->
       1 <= value_at s p.1 p.2 <= 9 /\ fits s p.

(** What [solve_board] leaves of [g] when it returns [ok]. *)
Definition solved_from (g : QuantumSudokuGame) (ok : bool) (g' : QuantumSudokuGame)
  : Prop :=
  only_board g g' /\ solvable_shape g'
  /\ (ok = true -> completion g g')
  /\ (ok = false ->
      (forall r c, value_at g' r c = value_at g r c)
      /\ forall s, ~ completion g s).

Definition empties (g : QuantumSudokuGame) : list (nat * nat) :=
  List.filter (fun '(r, c) => value (cell_at (board g) r c) =? 0) all_cells.

(** ** A session played to the end *)

(** The player fills every empty cell of [medium_start] with the number of
    the generated grid, in row-major order. *)
Definition solving_moves : list command :=
  Eval vm_compute in
    map (fun '(r, c) => MakeMove r c (grid_at solved_grid r c)) (empties medium_start).

Definition solved_session : QuantumSudokuGame :=
  Eval vm_compute in (run_all solving_moves medium_start []).1.

(** ** Candidates and open cells *)

(** No candidate of a cell is 0. *)
Definition nonzero_candidates (x : QuantumCell) : Prop :=
  Forall (fun w => w ≠ 0) (superposition x).

Definition candidates_ok (b : Board) : Prop := board_all nonzero_candidates b.

(** The cells that are still to be settled: in superposition, or empty. *)
Definition open_cells (b : Board) : nat := (count_quantum b + count_empty b)%nat.

(** [n] AI turns in a row. *)
Fixpoint ai_turns (n : nat) (g : QuantumSudokuGame) (t : Random.tape)
  : QuantumSudokuGame * Random.tape :=
  match n with
  | O => (g, t)
  | S n' => let '(g', t') := ai_move g t in ai_turns n' g' t'
  end.
(* ===================================================================== *)
(** * Properties *)
(* ===================================================================== *)

(** ** Boards as arrays *)

Lemma lookup_cell_update_eq f row col b :
  lookup_cell (update_cell f row col b) row col = f <$> lookup_cell b row col.
Proof.
  unfold lookup_cell, update_cell. rewrite list_lookup_alter_eq.
  destruct (b !! row) as [r|]; simpl; [|done].
  by rewrite list_lookup_alter_eq.
Qed.

Lemma lookup_cell_update_ne f row col b r c :
  (r, c) ≠ (row, col) ->
  lookup_cell (update_cell f row col b) r c = lookup_cell b r c.
Proof.
  intros Hne. unfold lookup_cell, update_cell.
  destruct (decide (row = r)) as [->|Hr].
  - rewrite list_lookup_alter_eq. destruct (b !! r) as [rw|]; simpl; [|done].
    rewrite list_lookup_alter_ne; [done|congruence].
  - by rewrite list_lookup_alter_ne.
Qed.

Lemma cell_at_update_ne f row col b r c :
  (r, c) ≠ (row, col) -> cell_at (update_cell f row col b) r c = cell_at b r c.
Proof. intros. unfold cell_at. by rewrite lookup_cell_update_ne. Qed.

Lemma cell_at_update_eq f row col b x :
  lookup_cell b row col = Some x -> cell_at (update_cell f row col b) row col = f x.
Proof. intros H. unfold cell_at. by rewrite lookup_cell_update_eq, H. Qed.

Lemma update_cell_out f row col b :
  lookup_cell b row col = None -> update_cell f row col b = b.
Proof.
  unfold lookup_cell, update_cell. intros H.
  apply list_eq. intros i. destruct (decide (row = i)) as [->|].
  - rewrite list_lookup_alter_eq. destruct (b !! i) as [rw|] eqn:E; simpl; [|done].
    f_equal. apply list_eq. intros j. destruct (decide (col = j)) as [->|].
    + by rewrite list_lookup_alter_eq, H.
    + by rewrite list_lookup_alter_ne.
  - by rewrite list_lookup_alter_ne.
Qed.

Lemma board9_update f row col b : board9 b -> board9 (update_cell f row col b).
Proof.
  intros [Hl Hr]. split.
  - unfold update_cell. by rewrite length_alter.
  - unfold update_cell. apply Forall_lookup. intros i r Hi.
    destruct (decide (row = i)) as [->|].
    + rewrite list_lookup_alter_eq in Hi.
      destruct (b !! i) as [r0|] eqn:E; simplify_eq/=.
      rewrite length_alter. by eapply (Forall_lookup_1 _ _ _ _ Hr).
    + rewrite list_lookup_alter_ne in Hi by done.
      by eapply (Forall_lookup_1 _ _ _ _ Hr).
Qed.

Lemma board9_lookup b r c :
  board9 b -> (r < 9)%nat -> (c < 9)%nat -> is_Some (lookup_cell b r c).
Proof.
  intros [Hl Hr] Hlt1 Hlt2. unfold lookup_cell.
  destruct (lookup_lt_is_Some_2 b r) as [rw E]; [lia|]. rewrite E.
  apply lookup_lt_is_Some_2. rewrite (Forall_lookup_1 _ _ _ _ Hr E). lia.
Qed.

Lemma all_cells_eq :
  all_cells = flat_map (fun r => map (fun c => (r, c)) (seq 0 9)) (seq 0 9).
Proof. reflexivity. Qed.

Lemma in_all_cells r c : (r, c) ∈ all_cells <-> (r < 9)%nat /\ (c < 9)%nat.
Proof.
  rewrite all_cells_eq, list_elem_of_In, in_flat_map. split.
  - intros (x & Hx & Hin). apply in_map_iff in Hin as (y & Heq & Hy).
    apply in_seq in Hx, Hy. simplify_eq. lia.
  - intros [H1 H2]. exists r. split; [apply in_seq; lia|].
    apply in_map_iff. exists c. split; [done|apply in_seq; lia].
Qed.

(** ** The full-board generator *)

Lemma remove_one_perm x l r : remove_one x l = Some r -> l ≡ₚ x :: r.
Proof.
  revert r. induction l as [|y l IH]; intros r; simpl; [done|].
  destruct (Z.eqb_spec x y) as [->|Hne].
  - by intros [= ->].
  - destruct (remove_one x l) as [r'|]; [|done]. intros [= <-].
    rewrite (IH r' eq_refl). apply Permutation_swap.
Qed.

Lemma permb_sound l1 l2 : permb l1 l2 = true -> l1 ≡ₚ l2.
Proof.
  revert l2. induction l1 as [|x l1 IH]; intros l2; simpl.
  - by destruct l2.
  - destruct (remove_one x l2) as [r|] eqn:E; [|done].
    intros H. rewrite (remove_one_perm _ _ _ E). by rewrite (IH _ H).
Qed.

Lemma board9_reset b : board9 b -> reset_board b = replicate 9 (replicate 9 new_cell).
Proof.
  intros [Hl Hr]. unfold reset_board.
  do 10 (destruct b as [|? b]; simplify_eq/=).
  repeat match goal with
         | H : Forall _ (_ :: _) |- _ => apply Forall_cons in H as [? H]
         end.
  repeat match goal with
         | H : length ?r = 9%nat |- _ =>
             do 10 (destruct r as [|? r]; simplify_eq/=)
         end.
  reflexivity.
Qed.

Lemma generate_solved_board_eq g :
  board9 (board g) -> using_logic_move g = false ->
  generate_solved_board g = Some (with_board solved_board g).
Proof.
  intros H9 Hflag. unfold generate_solved_board.
  rewrite (board9_reset _ H9).
  destruct g as [b d sc pt go w m eg lm sl u pm am].
  cbn [using_logic_move] in Hflag. subst u.
  vm_compute. reflexivity.
Qed.

(** C5.  Whatever the board held before, as long as it is 9x9 and no
    logic move is in progress, the generator returns, and the board it
    leaves is complete: every cell resolved and nonzero, and every row,
    every column, every 3x3 box, the main diagonal and the anti-diagonal a
    permutation of 1..9. *)
Theorem generate_solved_board_valid (g : QuantumSudokuGame) :
  board9 (board g) -> using_logic_move g = false ->
  exists g',
    generate_solved_board g = Some g'
    /\ all_filled g' = true
    /\ (forall r, (r < 9)%nat -> row_values g' r ≡ₚ nums)
    /\ (forall c, (c < 9)%nat -> col_values g' c ≡ₚ nums)
    /\ (forall br bc, (br < 3)%nat -> (bc < 3)%nat -> box_values g' br bc ≡ₚ nums)
    /\ main_diagonal g' ≡ₚ nums
    /\ anti_diagonal g' ≡ₚ nums.
Proof.
  intros H9 Hflag. exists (with_board solved_board g).
  split; [by apply generate_solved_board_eq|].
  split; [vm_compute; reflexivity|].
  repeat split.
  - intros r Hr. do 9 (destruct r as [|r]; [apply permb_sound; vm_compute; reflexivity|]). lia.
  - intros c Hc. do 9 (destruct c as [|c]; [apply permb_sound; vm_compute; reflexivity|]). lia.
  - intros br bc Hbr Hbc.
    do 3 (destruct br as [|br];
          [do 3 (destruct bc as [|bc]; [apply permb_sound; vm_compute; reflexivity|]); lia|]).
    lia.
  - apply permb_sound; vm_compute; reflexivity.
  - apply permb_sound; vm_compute; reflexivity.
Qed.

Lemma generate_solved_board_valid_witness :
  exists g',
    generate_solved_board (init_game medium) = Some g'
    /\ all_filled g' = true
    /\ (forall r, (r < 9)%nat -> row_values g' r ≡ₚ nums)
    /\ (forall c, (c < 9)%nat -> col_values g' c ≡ₚ nums)
    /\ (forall br bc, (br < 3)%nat -> (bc < 3)%nat -> box_values g' br bc ≡ₚ nums)
    /\ main_diagonal g' ≡ₚ nums
    /\ anti_diagonal g' ≡ₚ nums.
Proof.
  apply (generate_solved_board_valid (init_game medium)).
  - split; [reflexivity|]. repeat constructor.
  - reflexivity.
Defined.

(** ** Concrete sessions *)

(** Closed goals about concrete sessions: split the conjunctions, pick the
    witnesses by evaluation. *)
Ltac by_evaluation :=
  repeat match goal with
         | |- _ /\ _ => split
         | |- exists _, _ => eexists
         end;
  vm_compute; reflexivity.

Lemma new_game_medium_nil : new_game medium [] = Some (medium_start, []).
Proof. vm_compute. reflexivity. Qed.


Lemma filled_cells_reachable :
  make_move 0 1 2 medium_start [] = (Return true, filled_01, [])
  /\ make_move 0 2 3 filled_01 [] = (Return true, filled_02, []).
Proof. by_evaluation. Qed.

Lemma entangled_pair_reachable :
  use_logic_move 0 1 None filled_02 [] = (Return true, superposed_01, [])
  /\ use_logic_move 0 2 None superposed_01 [] = (Return true, entangled_pair, []).
Proof. by_evaluation. Qed.

(** ** make_move on a filled cell *)

(** On an unlocked, resolved, nonzero cell [make_move] draws once; below
    0.2 it leaves with AttributeError, otherwise it returns False.  The
    game is not written in either case. *)
Lemma make_move_filled g row col v t cell :
  lookup_cell (board g) row col = Some cell ->
  locked cell = false -> collapsed cell = true -> value cell ≠ 0 ->
  make_move row col v g t =
    (if fst (Random.random t) <? 200 then Raise AttributeError else Return false,
     g, snd (Random.random t)).
Proof.
  intros Hc Hl Hcol Hv. unfold make_move. rewrite Hc, Hl, Hcol.
  destruct (Z.eqb_spec (value cell) 0) as [|_]; [done|].
  destruct (Random.random t) as [x t']. simpl. by destruct (x <? 200).
Qed.

(** C1.  In the medium game of the empty tape the player fills the empty
    cell (0,1) with 2; the cell is then unlocked, resolved and nonzero.
    The next [make_move] on it, with a draw of 0.100, does not return: it
    raises AttributeError, and no cell has been converted. *)
Theorem make_move_filled_cell_raises :
  new_game medium [] = Some (medium_start, [])
  /\ make_move 0 1 2 medium_start [] = (Return true, filled_01, [])
  /\ locked (cell_at (board filled_01) 0 1) = false
  /\ collapsed (cell_at (board filled_01) 0 1) = true
  /\ value (cell_at (board filled_01) 0 1) = 2
  /\ make_move 0 1 2 filled_01 [100%nat] = (Raise AttributeError, filled_01, []).
Proof.
  split; [exact new_game_medium_nil|].
  split; [exact (proj1 filled_cells_reachable)|].
  by_evaluation.
Qed.

(** ** Commands on a terminal session *)

Lemma handle_board_click_terminal pos ui t :
  game_over (game ui) = true -> handle_board_click pos ui t = (Return tt, ui, t).
Proof.
  intros H. unfold handle_board_click. rewrite H.
  by rewrite orb_true_r.
Qed.

Lemma ai_move_terminal g t : game_over g = true -> ai_move g t = (g, t).
Proof. intros H. unfold ai_move. by rewrite H. Qed.

Lemma update_terminal e ui t : game_over (game ui) = true -> update e ui t = (ui, t).
Proof. intros H. unfold update. by rewrite H. Qed.

(** C2.  The player selects cell (0,1), gives up (the session is over, the
    AI has won) and picks the number 5.  A click on the logic-move button
    is still carried out: [handle_logic_move] runs [use_logic_move], which
    writes 5 into the cell and takes one unit of the budget.  The engine's
    [make_move] does not look at [game_over] either. *)
Theorem terminal_session_accepts_logic_move :
  game_over (game surrendered) = true
  /\ winner (game surrendered) = Some AI
  /\ value_at (game surrendered) 0 1 = 0
  /\ logic_moves_remaining (game surrendered) = 10
  /\ (exists ui',
        handle_logic_move surrendered [] = (Return tt, ui', [])
        /\ game_over (game ui') = true
        /\ value_at (game ui') 0 1 = 5
        /\ logic_moves_remaining (game ui') = 9)
  /\ (exists g',
        use_logic_move 0 1 (Some 5) (game surrendered) [] = (Return true, g', [])
        /\ value_at g' 0 1 = 5
        /\ logic_moves_remaining g' = 9)
  /\ (exists g',
        make_move 0 1 2 (game surrendered) [] = (Return true, g', [])
        /\ value_at g' 0 1 = 2).
Proof.
  by_evaluation.
Qed.

(** ** Collapse of an entangled pair *)

(** C3.  Cells (0,1) and (0,2) of [entangled_pair] are superposed with
    candidates [2;1] and [3;1] and form the 2-member group 1.  A logic
    move collapses (0,1) to 1, a candidate of the peer; the peer (0,2) is
    still in superposition afterwards.  [collapse_quantum_cell] on the same
    input resolves both cells to 1. *)
Theorem logic_move_leaves_peer_superposed :
  is_quantum (cell_at (board entangled_pair) 0 1) = true
  /\ is_quantum (cell_at (board entangled_pair) 0 2) = true
  /\ entangled_with (cell_at (board entangled_pair) 0 1) = [(0, 2)%nat]
  /\ entangled_with (cell_at (board entangled_pair) 0 2) = [(0, 1)%nat]
  /\ entanglement_groups entangled_pair !! 1%nat = Some [(0, 2)%nat; (0, 1)%nat]
  /\ mem 1 (superposition (cell_at (board entangled_pair) 0 2)) = true
  /\ (exists g',
        use_logic_move 0 1 (Some 1) entangled_pair [] = (Return true, g', [])
        /\ collapsed (cell_at (board g') 0 1) = true
        /\ value (cell_at (board g') 0 1) = 1
        /\ collapsed (cell_at (board g') 0 2) = false
        /\ is_quantum (cell_at (board g') 0 2) = true)
  /\ (exists g',
        collapse_quantum_cell 0 1 (Some 1) entangled_pair [] = (true, g', [])
        /\ collapsed (cell_at (board g') 0 1) = true
        /\ value (cell_at (board g') 0 1) = 1
        /\ collapsed (cell_at (board g') 0 2) = true
        /\ value (cell_at (board g') 0 2) = 1).
Proof.
  by_evaluation.
Qed.

(** ** End-of-game scoring *)

(** Case analysis on the comparisons of the two mistake counters. *)
Ltac compare_counters :=
  cbn [player_mistakes ai_mistakes with_ai_mistakes with_result winner game_over];
  rewrite ?Z.gtb_ltb;
  repeat (match goal with
          | H : (?a <? ?b) = _ |- context [?a <? ?b] => rewrite H
          | |- context [player_mistakes ?g <? ?x] =>
              is_var g; destruct (player_mistakes g <? x) eqn:?
          | |- context [?x <? player_mistakes ?g] =>
              is_var g; destruct (x <? player_mistakes g) eqn:?
          end;
          cbn [player_mistakes ai_mistakes with_ai_mistakes with_result winner
               game_over]);
  repeat match goal with
         | H : (_ <? _) = true |- _ => apply Z.ltb_lt in H
         | H : (_ <? _) = false |- _ => apply Z.ltb_ge in H
         end;
  repeat split; first [reflexivity | exfalso; lia].

Lemma check_game_over_not_full g : all_filled g = false -> check_game_over g = g.
Proof. intros H. unfold check_game_over. by rewrite H. Qed.

Lemma check_ai_moves_pass g :
  existsb (ai_violation g) all_cells = false -> check_ai_moves g = (true, g).
Proof. intros H. unfold check_ai_moves. by rewrite H. Qed.

Lemma check_ai_moves_fail g :
  existsb (ai_violation g) all_cells = true ->
  check_ai_moves g = (false, with_ai_mistakes (ai_mistakes g + 1) g).
Proof. intros H. unfold check_ai_moves. by rewrite H. Qed.

(** C4.  On a full board [check_game_over] ends the game and names the
    winner by the precedence of the specification, applied to the result
    of the validity check, the result of the AI scan and the two mistake
    counters as the session holds them when they are compared. *)
Theorem check_game_over_winner (g : QuantumSudokuGame) :
  all_filled g = true ->
  game_over (check_game_over g) = true
  /\ winner (check_game_over g) =
       Some (winner_precedence (is_board_solved g) (fst (check_ai_moves g))
               (player_mistakes (check_game_over g))
               (ai_mistakes (check_game_over g))).
Proof.
  intros Hfull. unfold check_game_over. rewrite Hfull.
  unfold check_ai_moves.
  destruct (existsb (ai_violation g) all_cells), (is_board_solved g);
    cbn [fst negb andb winner_precedence]; compare_counters.
Qed.

Lemma check_game_over_winner_witness :
  game_over (check_game_over all_ones) = true
  /\ winner (check_game_over all_ones) =
       Some (winner_precedence (is_board_solved all_ones)
               (fst (check_ai_moves all_ones))
               (player_mistakes (check_game_over all_ones))
               (ai_mistakes (check_game_over all_ones))).
Proof. apply (check_game_over_winner all_ones). vm_compute. reflexivity. Defined.

Lemma ai_violation_with_result o w m g p :
  ai_violation (with_result o w m g) p = ai_violation g p.
Proof. reflexivity. Qed.

(** C10.  When the scan of [check_ai_moves] meets a resolved, nonzero,
    unlocked cell whose value is not a valid move with candidates disabled,
    it adds one to the AI mistake counter and reports the AI incorrect.
    [check_game_over] compares the counters after that increment, and
    [handle_give_up] leaves the incremented counter in the session. *)
Theorem check_ai_moves_counts_mistake (g : QuantumSudokuGame) (p : nat * nat) :
  p ∈ all_cells -> ai_violation g p = true ->
  check_ai_moves g = (false, with_ai_mistakes (ai_mistakes g + 1) g)
  /\ (all_filled g = true ->
      ai_mistakes (check_game_over g) = ai_mistakes g + 1
      /\ winner (check_game_over g) =
           Some (winner_precedence (is_board_solved g) false
                   (player_mistakes g) (ai_mistakes g + 1)))
  /\ (forall sel thinking,
        ai_mistakes (game (handle_give_up (mkUI g sel thinking)))
        = ai_mistakes g + 1).
Proof.
  intros Hp Hv.
  assert (He : existsb (ai_violation g) all_cells = true).
  { apply existsb_exists. exists p. split; [by apply list_elem_of_In|done]. }
  split; [by apply check_ai_moves_fail|]. split.
  - intros Hfull.
    unfold check_game_over. rewrite Hfull, (check_ai_moves_fail g He).
    destruct (is_board_solved g); cbn [negb andb winner_precedence];
      compare_counters.
  - intros sel thinking. unfold handle_give_up. cbn [game].
    rewrite check_ai_moves_fail; [reflexivity|exact He].
Qed.

(** On [all_ones] both counters are 0 before the scan; the scan raises the
    AI's to 1, and the player wins the comparison instead of drawing. *)
Lemma check_ai_moves_counts_mistake_witness :
  check_ai_moves all_ones = (false, with_ai_mistakes (ai_mistakes all_ones + 1) all_ones)
  /\ (all_filled all_ones = true ->
      ai_mistakes (check_game_over all_ones) = ai_mistakes all_ones + 1
      /\ winner (check_game_over all_ones) =
           Some (winner_precedence (is_board_solved all_ones) false
                   (player_mistakes all_ones) (ai_mistakes all_ones + 1)))
  /\ (forall sel thinking,
        ai_mistakes (game (handle_give_up (mkUI all_ones sel thinking)))
        = ai_mistakes all_ones + 1).
Proof.
  apply (check_ai_moves_counts_mistake all_ones (0, 0)%nat).
  - apply in_all_cells. lia.
  - vm_compute. reflexivity.
Defined.

Lemma all_ones_player_wins :
  player_mistakes all_ones = 0 /\ ai_mistakes all_ones = 0
  /\ is_board_solved all_ones = false
  /\ winner (check_game_over all_ones) = Some Player.
Proof. by_evaluation. Qed.

(** ** Locked cells are framed out *)

Lemma locked_frame_refl b : locked_frame b b.
Proof. intros r c. by left. Qed.

Lemma locked_frame_trans b1 b2 b3 :
  locked_frame b1 b2 -> locked_frame b2 b3 -> locked_frame b1 b3.
Proof.
  intros H12 H23 r c.
  destruct (H12 r c) as [E1|(x & y & Hx & Hy & Lx & Ly)],
           (H23 r c) as [E2|(y' & z & Hy' & Hz & Ly' & Lz)].
  - left. congruence.
  - right. exists y', z. rewrite <- E1. done.
  - right. exists x, y. rewrite E2. done.
  - right. exists x, z. done.
Qed.

Lemma locked_frame_keeps b b' r c x :
  locked_frame b b' -> lookup_cell b r c = Some x -> locked x = true ->
  lookup_cell b' r c = Some x.
Proof.
  intros H Hx Lx. destruct (H r c) as [E|(x' & y & Hx' & _ & Lx' & _)].
  - congruence.
  - congruence.
Qed.

Lemma locked_frame_inv b b' : locked_inv b -> locked_frame b b' -> locked_inv b'.
Proof.
  intros Hinv H r c y Hy Ly.
  destruct (H r c) as [E|(x & y' & _ & Hy' & _ & Ly')].
  - apply (Hinv r c). congruence. done.
  - congruence.
Qed.

Lemma locked_frame_unlocked b b' r c :
  locked_frame b b' -> unlocked_at b r c -> unlocked_at b' r c.
Proof.
  intros H Hu y Hy.
  destruct (H r c) as [E|(x & y' & _ & Hy' & _ & Ly')].
  - apply Hu. congruence.
  - congruence.
Qed.

Lemma locked_frame_update f row col b :
  unlocked_at b row col ->
  (forall x, lookup_cell b row col = Some x -> locked (f x) = false) ->
  locked_frame b (update_cell f row col b).
Proof.
  intros Hu Hf r c. destruct (decide ((r, c) = (row, col))) as [[= -> ->]|Hne].
  - rewrite lookup_cell_update_eq.
    destruct (lookup_cell b row col) as [x|] eqn:E; [|by left].
    right. exists x, (f x). auto.
  - left. by apply lookup_cell_update_ne.
Qed.

Lemma cell_at_lookup b r c x : lookup_cell b r c = Some x -> cell_at b r c = x.
Proof. intros H. unfold cell_at. by rewrite H. Qed.

Lemma quantum_unlocked b r c :
  locked_inv b -> is_quantum (cell_at b r c) = true -> unlocked_at b r c.
Proof.
  intros Hinv Hq x Hx. rewrite (cell_at_lookup _ _ _ _ Hx) in Hq.
  destruct (locked x) eqn:L; [|done].
  destruct (Hinv r c x Hx L) as [Hc _].
  unfold is_quantum in Hq. rewrite Hc in Hq. by rewrite andb_false_r in Hq.
Qed.

Lemma empty_unlocked b r c :
  locked_inv b -> value (cell_at b r c) = 0 -> unlocked_at b r c.
Proof.
  intros Hinv Hv x Hx. rewrite (cell_at_lookup _ _ _ _ Hx) in Hv.
  destruct (locked x) eqn:L; [|done].
  by destruct (Hinv r c x Hx L) as (_ & Hn & _).
Qed.

Lemma flag_unlocked b r c : locked (cell_at b r c) = false -> unlocked_at b r c.
Proof. intros H x Hx. by rewrite (cell_at_lookup _ _ _ _ Hx) in H. Qed.

Lemma collapse_locked cell v t ok cell' t' :
  collapse cell v t = (ok, cell', t') -> locked cell' = locked cell.
Proof.
  unfold collapse. destruct (is_empty_list _ || _); [by intros [= <- <- <-]|].
  destruct v as [x|].
  - destruct (mem x _); by intros [= <- <- <-].
  - destruct (Random.choice _ _ _). by intros [= <- <- <-].
Qed.

Lemma collapse_peer_frame row col p b t :
  locked_inv b -> locked_frame b (fst (collapse_peer row col p b t)).
Proof.
  intros Hinv. unfold collapse_peer. destruct p as [orow ocol].
  destruct (is_quantum (cell_at b orow ocol)) eqn:Hq; [|apply locked_frame_refl].
  pose proof (quantum_unlocked _ _ _ Hinv Hq) as Hu.
  destruct (if mem _ _ then _ else _) as [[ok other'] t'] eqn:E. cbn [fst].
  apply locked_frame_update; [done|]. intros x Hx.
  assert (locked other' = locked (cell_at b orow ocol)) as ->.
  { destruct (mem _ _); by eapply collapse_locked. }
  rewrite (cell_at_lookup _ _ _ _ Hx). by apply Hu.
Qed.

Lemma collapse_peers_frame row col peers b t :
  locked_inv b -> locked_frame b (fst (collapse_peers row col peers b t)).
Proof.
  revert b t. induction peers as [|p peers IH]; intros b t Hinv; simpl.
  - apply locked_frame_refl.
  - pose proof (collapse_peer_frame row col p b t Hinv) as H1.
    destruct (collapse_peer row col p b t) as [b' t']. cbn [fst] in H1.
    eapply locked_frame_trans; [exact H1|].
    apply IH. by eapply locked_frame_inv.
Qed.

Lemma collapse_quantum_cell_frame row col v g t :
  locked_inv (board g) ->
  locked_frame (board g) (board (snd (fst (collapse_quantum_cell row col v g t)))).
Proof.
  intros Hinv. unfold collapse_quantum_cell.
  destruct (is_quantum (cell_at (board g) row col)) eqn:Hq;
    cbn [negb]; [|apply locked_frame_refl].
  pose proof (quantum_unlocked _ _ _ Hinv Hq) as Hu.
  destruct (collapse _ v t) as [[ok cell'] t1] eqn:E.
  destruct ok; cbn [negb]; [|apply locked_frame_refl].
  assert (F1 : locked_frame (board g)
                 (update_cell (fun _ => cell') row col (board g))).
  { apply locked_frame_update; [done|]. intros x Hx.
    rewrite (collapse_locked _ _ _ _ _ _ E), (cell_at_lookup _ _ _ _ Hx).
    by apply Hu. }
  pose proof (collapse_peers_frame row col (entangled_with cell') _ t1
                (locked_frame_inv _ _ Hinv F1)) as F2.
  destruct (collapse_peers _ _ _ _ _) as [b2 t2]. cbn [fst snd board with_board] in *.
  by eapply locked_frame_trans.
Qed.

Lemma randbelow_lt n t : (0 < n)%nat -> (fst (Random.randbelow n t) < n)%nat.
Proof.
  intros Hn. unfold Random.randbelow. destruct t as [|x t]; cbn [fst]; [done|].
  apply Nat.mod_upper_bound. lia.
Qed.

Lemma choice_in {A} (d : A) l t : l ≠ [] -> fst (Random.choice d l t) ∈ l.
Proof.
  intros Hl. unfold Random.choice.
  pose proof (randbelow_lt (length l) t) as Hlt.
  destruct (Random.randbelow (length l) t) as [i t']. cbn [fst] in *.
  destruct (lookup_lt_is_Some_2 l i) as [x Hx].
  { apply Hlt. destruct l; [done|simpl; lia]. }
  rewrite Hx. simpl. by eapply list_elem_of_lookup_2.
Qed.

Lemma is_empty_list_false {A} (l : list A) : is_empty_list l = false -> l ≠ [].
Proof. by destruct l. Qed.

Lemma is_empty_list_true {A} (l : list A) : is_empty_list l = true -> l = [].
Proof. by destruct l. Qed.

Lemma cells_where_spec p b r c :
  (r, c) ∈ cells_where p b -> p r c (cell_at b r c) = true.
Proof.
  unfold cells_where. rewrite list_elem_of_In, filter_In. by intros [_ H].
Qed.

Lemma create_entanglement_frame row col g t :
  locked_inv (board g) -> unlocked_at (board g) row col ->
  locked_frame (board g) (board (fst (create_entanglement row col g t))).
Proof.
  intros Hinv Hu. unfold create_entanglement.
  set (cands := cells_where _ (board g)).
  destruct (is_empty_list cands) eqn:Hc; [apply locked_frame_refl|].
  pose proof (choice_in (0, 0)%nat cands t (is_empty_list_false _ Hc)) as Hin.
  destruct (Random.choice _ cands t) as [[orow ocol] t']. cbn [fst] in *.
  apply cells_where_spec in Hin.
  apply andb_prop in Hin as [Hin _]. apply andb_prop in Hin as [_ Hq].
  cbn [board with_groups with_board].
  set (grp := S (size (entanglement_groups g))).
  assert (F1 : locked_frame (board g)
                 (update_cell (with_entanglement grp (orow, ocol)) row col (board g))).
  { apply locked_frame_update; [done|]. intros x Hx. simpl. by apply Hu. }
  eapply locked_frame_trans; [exact F1|].
  apply locked_frame_update.
  - eapply locked_frame_unlocked; [exact F1|]. by apply quantum_unlocked.
  - intros x Hx. simpl.
    eapply (locked_frame_unlocked _ _ _ _ F1); [|exact Hx].
    by apply quantum_unlocked.
Qed.

Lemma set_superposition_locked vs x : locked (set_superposition vs x) = locked x.
Proof. unfold set_superposition. by destruct vs as [|? [|? ?]]. Qed.

Lemma make_quantum_frame row col g t :
  locked_inv (board g) -> unlocked_at (board g) row col ->
  locked_frame (board g) (board (fst (make_quantum row col g t))).
Proof.
  intros Hinv Hu. unfold make_quantum.
  destruct (is_empty_list _); [apply locked_frame_refl|].
  destruct (if is_easy _ then _ else _) as [k t1].
  destruct (Random.sample _ _ t1) as [chosen t2].
  set (vs := _ :: chosen).
  assert (F1 : locked_frame (board g)
                 (update_cell (set_superposition vs) row col (board g))).
  { apply locked_frame_update; [done|]. intros x Hx.
    rewrite set_superposition_locked. by apply Hu. }
  destruct (Random.random t2) as [x t3].
  destruct (x <? 500); [|exact F1].
  eapply locked_frame_trans; [exact F1|].
  apply (create_entanglement_frame row col (with_board _ g) t3).
  - by eapply locked_frame_inv.
  - by eapply locked_frame_unlocked.
Qed.

Lemma make_quantum_all_frame cells g t :
  locked_inv (board g) ->
  Forall (fun p => unlocked_at (board g) p.1 p.2) cells ->
  locked_frame (board g) (board (fst (make_quantum_all cells g t))).
Proof.
  revert g t. induction cells as [|[row col] cells IH]; intros g t Hinv Hall; simpl.
  - apply locked_frame_refl.
  - apply Forall_cons in Hall as [Hu Hall]. cbn [fst snd] in Hu.
    pose proof (make_quantum_frame row col g t Hinv Hu) as F1.
    destruct (make_quantum row col g t) as [g' t']. cbn [fst] in F1.
    eapply locked_frame_trans; [exact F1|].
    apply IH; [by eapply locked_frame_inv|].
    eapply Forall_impl; [exact Hall|].
    intros p Hp. by eapply locked_frame_unlocked.
Qed.

Lemma elem_of_insert_inv {A} (l : list A) i y x :
  x ∈ <[i := y]> l -> x = y \/ x ∈ l.
Proof.
  intros H. apply list_elem_of_lookup in H as [k Hk].
  apply list_lookup_insert_Some in Hk as [(-> & -> & _)|[_ Hk]]; [by left|].
  right. by eapply list_elem_of_lookup_2.
Qed.

Lemma swap_subset {A} i j (l : list A) x : x ∈ Random.swap i j l -> x ∈ l.
Proof.
  unfold Random.swap.
  destruct (l !! i) as [a|] eqn:Ea; [|done].
  destruct (l !! j) as [b|] eqn:Eb; [|done].
  intros H. apply elem_of_insert_inv in H as [->|H].
  - by eapply list_elem_of_lookup_2.
  - apply elem_of_insert_inv in H as [->|H]; [|done].
    by eapply list_elem_of_lookup_2.
Qed.

Lemma shuffle_from_subset {A} n (l : list A) t x :
  x ∈ fst (Random.shuffle_from n l t) -> x ∈ l.
Proof.
  revert l t. induction n as [|n IH]; intros l t; simpl; [done|].
  destruct (Random.randbelow _ t) as [j t']. intros H.
  apply IH in H. by eapply swap_subset.
Qed.

Lemma shuffle_subset {A} (l : list A) t x : x ∈ fst (Random.shuffle l t) -> x ∈ l.
Proof. apply shuffle_from_subset. Qed.

Lemma create_quantum_cells_frame n g t :
  locked_inv (board g) ->
  locked_frame (board g) (board (fst (create_quantum_cells n g t))).
Proof.
  intros Hinv. unfold create_quantum_cells.
  set (cands := cells_where _ (board g)).
  pose proof (shuffle_subset cands t) as Hsub.
  destruct (Random.shuffle cands t) as [shuffled t']. cbn [fst] in Hsub.
  apply make_quantum_all_frame; [done|].
  apply Forall_forall. intros [r c] Hin. cbn [fst snd].
  apply elem_of_take in Hin as (i & Hi & _).
  apply list_elem_of_lookup_2, Hsub, cells_where_spec in Hi.
  apply andb_prop in Hi as [Hi _]. apply andb_prop in Hi as [Hl _].
  apply flag_unlocked. by destruct (locked _).
Qed.

Lemma set_value_frame row col v g :
  unlocked_at (board g) row col ->
  locked_frame (board g) (board (set_value row col v g)).
Proof.
  intros Hu. unfold set_value. cbn [board with_board].
  apply locked_frame_update; [done|]. intros x Hx. simpl. by apply Hu.
Qed.

Lemma make_move_frame row col v g t :
  locked_inv (board g) ->
  locked_frame (board g) (board (snd (fst (make_move row col v g t)))).
Proof.
  intros Hinv. unfold make_move.
  destruct (lookup_cell (board g) row col) as [cell|] eqn:Hc;
    [|apply locked_frame_refl].
  destruct (locked cell) eqn:Hl; [apply locked_frame_refl|].
  assert (Hu : unlocked_at (board g) row col) by (intros x Hx; congruence).
  destruct (collapsed cell).
  - destruct (value cell =? 0).
    + destruct (is_valid_move g row col v true); cbn [fst snd].
      * by apply set_value_frame.
      * apply locked_frame_refl.
    + destruct (Random.random t) as [x t']. destruct (x <? 200);
        apply locked_frame_refl.
  - pose proof (collapse_quantum_cell_frame row col (Some v) g t Hinv) as F.
    destruct (collapse_quantum_cell row col (Some v) g t) as [[ok g'] t'].
    exact F.
Qed.

Lemma use_logic_move_frame row col v g t :
  locked_inv (board g) ->
  locked_frame (board g) (board (snd (fst (use_logic_move row col v g t)))).
Proof.
  intros Hinv. unfold use_logic_move.
  destruct (logic_moves_remaining g <=? 0); [apply locked_frame_refl|].
  destruct (lookup_cell (board g) row col) as [cell|] eqn:Hc;
    [|apply locked_frame_refl].
  destruct (locked cell) eqn:Hl; [apply locked_frame_refl|].
  assert (Hu : unlocked_at (board g) row col) by (intros x Hx; congruence).
  destruct (collapsed cell); [destruct (value cell =? 0)|].
  - destruct (match v with Some x => _ | None => _ end) as [x t'].
    cbn [fst snd board with_logic_moves with_using_logic_move].
    apply (set_value_frame row col x (with_using_logic_move true g) Hu).
  - destruct (Random.randint 1 3 t) as [k t1].
    destruct (Random.sample _ _ t1) as [chosen t2].
    set (vs := _ :: chosen).
    assert (F1 : locked_frame (board g)
                   (update_cell (set_superposition vs) row col (board g))).
    { apply locked_frame_update; [done|]. intros x Hx.
      rewrite set_superposition_locked. by apply Hu. }
    destruct (Random.random t2) as [x t3].
    destruct (x <? 500).
    + pose proof (create_entanglement_frame row col
                    (with_board (update_cell (set_superposition vs) row col
                                   (board (with_using_logic_move true g)))
                       (with_using_logic_move true g)) t3) as F2.
      destruct (create_entanglement _ _ _ t3) as [g1 t4].
      cbn [fst snd board with_logic_moves with_using_logic_move with_board] in *.
      eapply locked_frame_trans; [exact F1|]. apply F2.
      * by eapply locked_frame_inv.
      * by eapply locked_frame_unlocked.
    + exact F1.
  - destruct (match v with Some x => _ | None => _ end) as [[ok cell'] t'] eqn:E.
    cbn [fst snd board with_logic_moves with_using_logic_move with_board].
    apply locked_frame_update; [done|]. intros x Hx.
    assert (locked cell' = locked cell) as ->; [|done].
    destruct v as [x0|]; [destruct (mem x0 _)|]; by eapply collapse_locked.
Qed.

Lemma check_ai_moves_board g : board (snd (check_ai_moves g)) = board g.
Proof. unfold check_ai_moves. by destruct (existsb _ _). Qed.

Lemma check_game_over_board g : board (check_game_over g) = board g.
Proof.
  unfold check_game_over, check_ai_moves.
  destruct (all_filled g); [|done].
  destruct (existsb _ _), (is_board_solved g); cbn [negb andb];
    repeat match goal with
           | |- context [if ?a then _ else _] => destruct a
           end; reflexivity.
Qed.

Lemma ai_move_frame g t :
  locked_inv (board g) -> locked_frame (board g) (board (fst (ai_move g t))).
Proof.
  intros Hinv. unfold ai_move.
  destruct (game_over g); [apply locked_frame_refl|].
  set (qs := cells_where (fun _ _ cell => is_quantum cell) (board g)).
  set (es := cells_where (fun _ _ cell => collapsed cell && (value cell =? 0))
               (board g)).
  destruct (is_empty_list qs) eqn:Hq; cbn [negb].
  - destruct (is_empty_list es) eqn:He; cbn [negb].
    + cbn [fst]. rewrite check_game_over_board. apply locked_frame_refl.
    + pose proof (choice_in (0, 0)%nat es t (is_empty_list_false _ He)) as Hin.
      destruct (Random.choice _ es t) as [[row col] t1]. cbn [fst] in Hin.
      apply cells_where_spec, andb_prop in Hin as [_ Hv].
      apply Z.eqb_eq in Hv.
      pose proof (empty_unlocked _ _ _ Hinv Hv) as Hu.
      destruct (is_empty_list (List.filter _ nums)); cbn [negb].
      * destruct (Random.randint 1 9 t1) as [x t2]. cbn [fst].
        rewrite check_game_over_board.
        apply (set_value_frame row col x g Hu).
      * destruct (Random.choice 0 _ t1) as [x t2]. cbn [fst].
        rewrite check_game_over_board.
        apply (set_value_frame row col x g Hu).
  - pose proof (choice_in (0, 0)%nat qs t (is_empty_list_false _ Hq)) as Hin.
    destruct (Random.choice _ qs t) as [[row col] t1]. cbn [fst] in Hin.
    apply cells_where_spec in Hin.
    pose proof (quantum_unlocked _ _ _ Hinv Hin) as Hu.
    destruct (if negb (is_empty_list _) then _ else _) as [[ok cell'] t2] eqn:E.
    assert (Hl : locked cell' = locked (cell_at (board g) row col)).
    { destruct (negb _) in E.
      - destruct (Random.choice 0 _ t1) as [x t']. by eapply collapse_locked.
      - by eapply collapse_locked. }
    assert (F1 : locked_frame (board g)
                   (update_cell (fun _ => cell') row col (board g))).
    { apply locked_frame_update; [done|]. intros x Hx.
      rewrite Hl, (cell_at_lookup _ _ _ _ Hx). by apply Hu. }
    pose proof (collapse_peers_frame row col (entangled_with cell') _ t2
                  (locked_frame_inv _ _ Hinv F1)) as F2.
    destruct (collapse_peers _ _ _ _ t2) as [b2 t3]. cbn [fst] in *.
    rewrite check_game_over_board. cbn [board with_player_turn with_board].
    by eapply locked_frame_trans.
Qed.

Lemma run_frame c g t :
  locked_inv (board g) -> locked_frame (board g) (board (fst (run c g t))).
Proof.
  intros Hinv. destruct c as [row col v|row col v|row col v| | | |p|n]; unfold run.
  - pose proof (make_move_frame row col v g t Hinv) as F.
    by destruct (make_move row col v g t) as [[o g'] t'].
  - pose proof (use_logic_move_frame row col v g t Hinv) as F.
    by destruct (use_logic_move row col v g t) as [[o g'] t'].
  - pose proof (collapse_quantum_cell_frame row col v g t Hinv) as F.
    by destruct (collapse_quantum_cell row col v g t) as [[o g'] t'].
  - by apply ai_move_frame.
  - cbn [fst]. rewrite check_game_over_board. apply locked_frame_refl.
  - cbn [fst handle_give_up game]. rewrite check_ai_moves_board.
    apply locked_frame_refl.
  - apply locked_frame_refl.
  - by apply create_quantum_cells_frame.
Qed.

(** ** The logic-move budget *)

Lemma collapse_quantum_cell_budget row col v g t :
  logic_moves_remaining (snd (fst (collapse_quantum_cell row col v g t)))
  = logic_moves_remaining g.
Proof.
  unfold collapse_quantum_cell.
  destruct (negb _); [done|].
  destruct (collapse _ v t) as [[ok cell'] t1].
  destruct (negb ok); [done|].
  by destruct (collapse_peers _ _ _ _ _).
Qed.

Lemma create_entanglement_budget row col g t :
  logic_moves_remaining (fst (create_entanglement row col g t))
  = logic_moves_remaining g.
Proof.
  unfold create_entanglement.
  destruct (is_empty_list _); [done|].
  by destruct (Random.choice _ _ t) as [[orow ocol] t'].
Qed.

Lemma make_quantum_budget row col g t :
  logic_moves_remaining (fst (make_quantum row col g t)) = logic_moves_remaining g.
Proof.
  unfold make_quantum.
  destruct (is_empty_list _); [done|].
  destruct (if is_easy _ then _ else _) as [k t1].
  destruct (Random.sample _ _ t1) as [chosen t2].
  destruct (Random.random t2) as [x t3].
  destruct (x <? 500); [|done].
  by rewrite create_entanglement_budget.
Qed.

Lemma make_quantum_all_budget cells g t :
  logic_moves_remaining (fst (make_quantum_all cells g t)) = logic_moves_remaining g.
Proof.
  revert g t. induction cells as [|[row col] cells IH]; intros g t; simpl; [done|].
  pose proof (make_quantum_budget row col g t) as H.
  destruct (make_quantum row col g t) as [g' t']. rewrite IH. exact H.
Qed.

Lemma create_quantum_cells_budget n g t :
  logic_moves_remaining (fst (create_quantum_cells n g t)) = logic_moves_remaining g.
Proof.
  unfold create_quantum_cells.
  destruct (Random.shuffle _ t) as [shuffled t'].
  apply make_quantum_all_budget.
Qed.

Lemma check_game_over_budget g :
  logic_moves_remaining (check_game_over g) = logic_moves_remaining g.
Proof.
  unfold check_game_over, check_ai_moves.
  destruct (all_filled g); [|done].
  destruct (existsb _ _), (is_board_solved g); cbn [negb andb];
    repeat match goal with
           | |- context [if ?a then _ else _] => destruct a
           end; reflexivity.
Qed.

Lemma make_move_budget row col v g t :
  logic_moves_remaining (snd (fst (make_move row col v g t)))
  = logic_moves_remaining g.
Proof.
  unfold make_move.
  destruct (lookup_cell _ _ _) as [cell|]; [|done].
  destruct (locked cell); [done|].
  destruct (collapsed cell).
  - destruct (value cell =? 0).
    + by destruct (is_valid_move _ _ _ _ _).
    + destruct (Random.random t) as [x t']. by destruct (x <? 200).
  - pose proof (collapse_quantum_cell_budget row col (Some v) g t) as H.
    by destruct (collapse_quantum_cell _ _ _ _ _) as [[ok g'] t'].
Qed.

Lemma ai_move_budget g t :
  logic_moves_remaining (fst (ai_move g t)) = logic_moves_remaining g.
Proof.
  unfold ai_move. destruct (game_over g); [done|].
  destruct (negb (is_empty_list (cells_where (fun _ _ cell => is_quantum cell) _))).
  - destruct (Random.choice _ _ t) as [[row col] t1].
    destruct (if negb _ then _ else _) as [[ok cell'] t2].
    destruct (collapse_peers _ _ _ _ t2) as [b2 t3].
    cbn [fst]. by rewrite check_game_over_budget.
  - destruct (negb (is_empty_list _)).
    + destruct (Random.choice _ _ t) as [[row col] t1].
      destruct (negb (is_empty_list _)).
      * destruct (Random.choice 0 _ t1) as [x t2]. cbn [fst].
        by rewrite check_game_over_budget.
      * destruct (Random.randint 1 9 t1) as [x t2]. cbn [fst].
        by rewrite check_game_over_budget.
    + cbn [fst]. by rewrite check_game_over_budget.
Qed.

(** [use_logic_move]: what the call returns decides the budget. *)
Lemma use_logic_move_budget row col v g t :
  match fst (fst (use_logic_move row col v g t)) with
  | Return true =>
      0 < logic_moves_remaining g
      /\ logic_moves_remaining (snd (fst (use_logic_move row col v g t)))
         = logic_moves_remaining g - 1
  | _ => use_logic_move row col v g t
         = (fst (fst (use_logic_move row col v g t)), g, t)
  end.
Proof.
  unfold use_logic_move.
  destruct (Z.leb_spec (logic_moves_remaining g) 0) as [Hle|Hlt]; [done|].
  destruct (lookup_cell _ _ _) as [cell|]; [|done].
  destruct (locked cell); [done|].
  destruct (if collapsed cell then _ else _) as [g1 t1] eqn:E.
  cbn [fst snd logic_moves_remaining with_logic_moves with_using_logic_move].
  split; [done|]. f_equal.
  destruct (collapsed cell); [destruct (value cell =? 0)|].
  - destruct (match v with Some x => _ | None => _ end) as [x t'].
    by injection E as <- <-.
  - destruct (Random.randint 1 3 t) as [k t2].
    destruct (Random.sample _ _ t2) as [chosen t3].
    destruct (Random.random t3) as [x t4].
    destruct (x <? 500).
    + pose proof (create_entanglement_budget row col
        (with_board
           (update_cell (set_superposition (value cell :: chosen)) row col
              (board (with_using_logic_move true g)))
           (with_using_logic_move true g)) t4) as H.
      rewrite E in H. exact H.
    + by injection E as <- <-.
  - destruct (match v with Some x => _ | None => _ end) as [[ok cell'] t'].
    by injection E as <- <-.
Qed.

(** ** Puzzle creation establishes the invariants *)

Lemma only_board_refl g : only_board g g.
Proof. by destruct g. Qed.

Lemma only_board_trans g1 g2 g3 :
  only_board g1 g2 -> only_board g2 g3 -> only_board g1 g3.
Proof. unfold only_board. intros -> ->. reflexivity. Qed.

Lemma only_board_set_value row col v g : only_board g (set_value row col v g).
Proof. reflexivity. Qed.

Lemma board_all_update P f row col b :
  board_all P b -> (forall x, P x -> P (f x)) -> board_all P (update_cell f row col b).
Proof.
  intros Hb Hf r c y Hy.
  destruct (decide ((r, c) = (row, col))) as [[= -> ->]|Hne].
  - rewrite lookup_cell_update_eq in Hy.
    destruct (lookup_cell b row col) as [x|] eqn:E; [|done].
    injection Hy as <-. by eapply Hf, Hb.
  - rewrite lookup_cell_update_ne in Hy by done. by eapply Hb.
Qed.

Lemma board_all_Forall P b : Forall (Forall P) b -> board_all P b.
Proof.
  intros H r c x. unfold lookup_cell.
  destruct (b !! r) as [rw|] eqn:E; [|done]. intros Hx.
  eapply Forall_lookup_1; [|exact Hx]. by eapply Forall_lookup_1.
Qed.

Lemma board_all_impl (P Q : QuantumCell -> Prop) b :
  board_all P b -> (forall x, P x -> Q x) -> board_all Q b.
Proof. intros H HPQ r c x Hx. by eapply HPQ, H. Qed.

Lemma solved_board_plain : board_all plain solved_board.
Proof. apply board_all_Forall. repeat constructor. Qed.

Lemma carve_spec cells removed g g' :
  carve cells removed g = Some g' ->
  only_board g g'
  /\ (board_all plain (board g) -> board_all plain (board g')).
Proof.
  revert removed g. induction cells as [|[row col] cells IH]; intros removed g;
    cbn [carve].
  - intros [= <-]. split; [apply only_board_refl|done].
  - destruct (removed >=? _); [intros [= <-]; split; [apply only_board_refl|done]|].
    assert (Hplain : forall v g0, board_all plain (board g0) ->
                       board_all plain (board (set_value row col v g0))).
    { intros v g0 H. apply board_all_update; [done|]. by intros x (? & ? & ?). }
    destruct (is_hard (difficulty g)).
    + intros H. apply IH in H as [H1 H2]. split.
      * eapply only_board_trans; [apply only_board_set_value|exact H1].
      * intros Hp. by apply H2, Hplain.
    + destruct (count_solutions 82 _) as [solutions|]; [|done].
      destruct (negb (solutions =? 1)); intros H; apply IH in H as [H1 H2]; split.
      * eapply only_board_trans; [|exact H1].
        eapply only_board_trans; apply only_board_set_value.
      * intros Hp. by apply H2, Hplain, Hplain.
      * eapply only_board_trans; [apply only_board_set_value|exact H1].
      * intros Hp. by apply H2, Hplain.
Qed.

Lemma update_cells_all P f cells b :
  board_all P b -> (forall x, P x -> P (f x)) -> board_all P (update_cells f cells b).
Proof.
  intros Hb Hf. revert b Hb. unfold update_cells.
  induction cells as [|[r c] cells IH]; intros b Hb; simpl; [done|].
  apply IH. by apply board_all_update.
Qed.

Lemma some_pair_inj {A B} (a c : A) (b d : B) :
  Some (a, b) = Some (c, d) -> c = a /\ d = b.
Proof. by intros [= -> ->]. Qed.

Lemma create_puzzle_spec g t g' t' :
  create_puzzle g t = Some (g', t') ->
  board_all plain (board g) ->
  only_board g g' /\ board_all given_or_free (board g').
Proof.
  unfold create_puzzle. destruct (Random.shuffle all_cells t) as [shuffled t1].
  destruct (carve shuffled 0 g) as [g1|] eqn:E; [|done].
  intros H Hp. apply some_pair_inj in H as [-> ->].
  apply carve_spec in E as [H1 H2]. split.
  - eapply only_board_trans; [exact H1|]. reflexivity.
  - cbn [board with_board]. apply update_cells_all.
    + eapply board_all_impl; [by apply H2|].
      intros x (Hc & Hl & Hs & He & Hg). repeat split; try done. congruence.
    + intros x (Hc & Hs & He & Hg & Hv). unfold lock_given.
      destruct (Z.eqb_spec (value x) 0); cbn [negb]; [done|].
      repeat split; done.
Qed.

Lemma given_or_free_inv b : board_all given_or_free b -> locked_inv b.
Proof.
  intros H r c x Hx Hl. destruct (H r c x Hx) as (Hc & Hs & He & Hg & Hv).
  repeat split; auto.
Qed.

Lemma init_game_board9 d : board9 (board (init_game d)).
Proof. split; [reflexivity|]. repeat constructor. Qed.

(** What every new game satisfies. *)
Lemma new_game_spec d t g t' :
  new_game d t = Some (g, t') ->
  logic_moves_remaining g = 10 /\ locked_inv (board g).
Proof.
  unfold new_game, setup_game.
  rewrite (generate_solved_board_eq (init_game d) (init_game_board9 d) eq_refl).
  destruct (create_puzzle _ t) as [[g2 t2]|] eqn:E; [|done].
  apply create_puzzle_spec in E as [H1 H2]; [|exact solved_board_plain].
  intros H. apply (inj Some) in H.
  pose proof (create_quantum_cells_budget (num_quantum (difficulty g2)) g2 t2) as Hb.
  pose proof (create_quantum_cells_frame (num_quantum (difficulty g2)) g2 t2
                (given_or_free_inv _ H2)) as Hf.
  rewrite H in Hb, Hf. cbn [fst] in *. split.
  - rewrite Hb, H1. reflexivity.
  - eapply locked_frame_inv; [|exact Hf]. by apply given_or_free_inv.
Qed.

Lemma run_budget c g t :
  0 <= logic_moves_remaining g ->
  0 <= logic_moves_remaining (fst (run c g t)) <= logic_moves_remaining g.
Proof.
  intros H0. destruct c as [row col v|row col v|row col v| | | |p|n]; unfold run.
  - pose proof (make_move_budget row col v g t) as H.
    destruct (make_move row col v g t) as [[o g'] t']. cbn [fst snd] in *. lia.
  - pose proof (use_logic_move_budget row col v g t) as H.
    destruct (use_logic_move row col v g t) as [[o g'] t']. cbn [fst snd] in *.
    destruct o as [[|]|e]; [lia| |]; injection H as -> ->; lia.
  - pose proof (collapse_quantum_cell_budget row col v g t) as H.
    destruct (collapse_quantum_cell row col v g t) as [[o g'] t'].
    cbn [fst snd] in *. lia.
  - rewrite ai_move_budget. lia.
  - cbn [fst]. rewrite check_game_over_budget. lia.
  - cbn [fst handle_give_up game]. unfold check_ai_moves.
    destruct (existsb _ _); cbn [snd logic_moves_remaining with_ai_mistakes with_result];
      lia.
  - cbn [fst logic_moves_remaining with_selected_cell]. lia.
  - rewrite create_quantum_cells_budget. lia.
Qed.

Lemma reachable_budget g : reachable g -> 0 <= logic_moves_remaining g <= 10.
Proof.
  induction 1 as [d t g t' Hnew|c g t Hr IH].
  - apply new_game_spec in Hnew as [-> _]. lia.
  - pose proof (run_budget c g t (proj1 IH)). lia.
Qed.

Lemma reachable_locked_inv g : reachable g -> locked_inv (board g).
Proof.
  induction 1 as [d t g t' Hnew|c g t Hr IH].
  - by apply new_game_spec in Hnew as [_ ?].
  - eapply locked_frame_inv; [exact IH|]. by apply run_frame.
Qed.

(** C8.  The budget of a new game is 10.  In every session that can
    arise the budget lies between 0 and 10, no command raises it or takes
    it below 0, [use_logic_move] with budget 0 returns False and leaves
    game and tape as they were, and a [use_logic_move] that returns True
    has lowered the budget by exactly 1. *)
Theorem logic_budget (g : QuantumSudokuGame) :
  reachable g ->
  (forall d t g0 t0, new_game d t = Some (g0, t0) -> logic_moves_remaining g0 = 10)
  /\ 0 <= logic_moves_remaining g <= 10
  /\ (forall c t,
        0 <= logic_moves_remaining (fst (run c g t)) <= logic_moves_remaining g)
  /\ (forall row col v t,
        logic_moves_remaining g = 0 ->
        use_logic_move row col v g t = (Return false, g, t))
  /\ (forall row col v t g' t',
        use_logic_move row col v g t = (Return true, g', t') ->
        logic_moves_remaining g' = logic_moves_remaining g - 1).
Proof.
  intros Hr. pose proof (reachable_budget g Hr) as Hb.
  split; [intros d t g0 t0 H; by apply new_game_spec in H as [? _]|].
  split; [done|]. split; [intros c t; apply run_budget; lia|]. split.
  - intros row col v t H0. unfold use_logic_move. by rewrite H0.
  - intros row col v t g' t' H.
    pose proof (use_logic_move_budget row col v g t) as Hu.
    rewrite H in Hu. cbn [fst snd] in Hu. by destruct Hu.
Qed.

Lemma logic_budget_witness :
  (forall d t g0 t0, new_game d t = Some (g0, t0) -> logic_moves_remaining g0 = 10)
  /\ 0 <= logic_moves_remaining medium_start <= 10
  /\ (forall c t,
        0 <= logic_moves_remaining (fst (run c medium_start t))
        <= logic_moves_remaining medium_start)
  /\ (forall row col v t,
        logic_moves_remaining medium_start = 0 ->
        use_logic_move row col v medium_start t = (Return false, medium_start, t))
  /\ (forall row col v t g' t',
        use_logic_move row col v medium_start t = (Return true, g', t') ->
        logic_moves_remaining g' = logic_moves_remaining medium_start - 1).
Proof.
  apply (logic_budget medium_start).
  exact (reachable_new medium [] medium_start [] new_game_medium_nil).
Defined.

(** ** Locked cells *)

Lemma reachable_run_all cs g t : reachable g -> reachable (fst (run_all cs g t)).
Proof.
  revert g t. induction cs as [|c cs IH]; intros g t Hr; simpl; [done|].
  pose proof (reachable_run c g t Hr) as Hr'.
  destruct (run c g t) as [g' t']. by apply IH.
Qed.

Lemma run_all_frame cs g t :
  locked_inv (board g) -> locked_frame (board g) (board (fst (run_all cs g t))).
Proof.
  revert g t. induction cs as [|c cs IH]; intros g t Hinv; simpl.
  - apply locked_frame_refl.
  - pose proof (run_frame c g t Hinv) as F.
    destruct (run c g t) as [g' t']. cbn [fst] in F.
    eapply locked_frame_trans; [exact F|]. apply IH. by eapply locked_frame_inv.
Qed.

(** C9.  In every session that can arise, a locked cell is a given
    (resolved, nonzero, no candidates, no links); after any command, and
    after any sequence of commands, its position holds the very same cell
    record; and [make_move] and [use_logic_move] aimed at it return False
    and leave the whole game, mistake counters included, and the tape as
    they were. *)
Theorem locked_cells_immutable (g : QuantumSudokuGame) (r c : nat) (x : QuantumCell) :
  reachable g -> lookup_cell (board g) r c = Some x -> locked x = true ->
  given x
  /\ (forall cmd t, lookup_cell (board (fst (run cmd g t))) r c = Some x)
  /\ (forall cs t, lookup_cell (board (fst (run_all cs g t))) r c = Some x)
  /\ (forall v t, make_move r c v g t = (Return false, g, t))
  /\ (forall v t, use_logic_move r c v g t = (Return false, g, t)).
Proof.
  intros Hr Hx Hl. pose proof (reachable_locked_inv g Hr) as Hinv.
  split; [by apply (Hinv r c)|]. split; [|split; [|split]].
  - intros cmd t. eapply locked_frame_keeps; [|exact Hx|exact Hl].
    by apply run_frame.
  - intros cs t. eapply locked_frame_keeps; [|exact Hx|exact Hl].
    by apply run_all_frame.
  - intros v t. unfold make_move. by rewrite Hx, Hl.
  - intros v t. unfold use_logic_move. rewrite Hx, Hl.
    by destruct (logic_moves_remaining g <=? 0).
Qed.

Lemma locked_cells_immutable_witness :
  given (with_locked true (with_value 1 new_cell))
  /\ (forall cmd t,
        lookup_cell (board (fst (run cmd medium_start t))) 0 0
        = Some (with_locked true (with_value 1 new_cell)))
  /\ (forall cs t,
        lookup_cell (board (fst (run_all cs medium_start t))) 0 0
        = Some (with_locked true (with_value 1 new_cell)))
  /\ (forall v t, make_move 0 0 v medium_start t = (Return false, medium_start, t))
  /\ (forall v t,
        use_logic_move 0 0 v medium_start t = (Return false, medium_start, t)).
Proof.
  apply (locked_cells_immutable medium_start 0 0
           (with_locked true (with_value 1 new_cell))).
  - exact (reachable_new medium [] medium_start [] new_game_medium_nil).
  - reflexivity.
  - reflexivity.
Defined.

(** ** The solution counter *)

Lemma grid9_row b r : grid9 b -> (r < 9)%nat ->
  exists rw, b !! r = Some rw /\ length rw = 9%nat.
Proof.
  intros [Hl Hr] Hlt. destruct (lookup_lt_is_Some_2 b r) as [rw E]; [lia|].
  exists rw. split; [done|]. by eapply (Forall_lookup_1 _ _ _ _ Hr).
Qed.

Lemma grid9_set r c v b : grid9 b -> grid9 (grid_set r c v b).
Proof.
  intros [Hl Hr]. unfold grid_set. split; [by rewrite length_alter|].
  apply Forall_lookup. intros i rw Hi.
  destruct (decide (r = i)) as [->|Hne].
  - rewrite list_lookup_alter_eq in Hi.
    destruct (b !! i) as [rw0|] eqn:E; simplify_eq/=.
    rewrite length_insert. by eapply (Forall_lookup_1 _ _ _ _ Hr).
  - rewrite list_lookup_alter_ne in Hi by done.
    by eapply (Forall_lookup_1 _ _ _ _ Hr).
Qed.

Lemma grid_at_set_eq r c v b :
  grid9 b -> (r < 9)%nat -> (c < 9)%nat -> grid_at (grid_set r c v b) r c = v.
Proof.
  intros H9 Hr Hc. destruct (grid9_row b r H9 Hr) as (rw & E & Hl).
  unfold grid_at, grid_set. rewrite list_lookup_alter_eq, E. simpl.
  rewrite list_lookup_insert_eq by lia. done.
Qed.

Lemma grid_at_set_ne r c v b r' c' :
  (r', c') ≠ (r, c) -> grid_at (grid_set r c v b) r' c' = grid_at b r' c'.
Proof.
  intros Hne. unfold grid_at, grid_set.
  destruct (decide (r = r')) as [->|Hr].
  - rewrite list_lookup_alter_eq. destruct (b !! r') as [rw|]; simpl; [|done].
    rewrite list_lookup_insert_ne; [done|congruence].
  - by rewrite list_lookup_alter_ne.
Qed.

Lemma find_skip {A} (f : A -> bool) pre l :
  Forall (fun x => f x = false) pre -> find f (pre ++ l) = find f l.
Proof.
  induction 1 as [|x pre Hx _ IH]; simpl; [done|]. by rewrite Hx.
Qed.

Lemma nums_nonzero num : num ∈ nums -> num ≠ 0.
Proof.
  intros H Hz. subst. unfold nums in H.
  repeat (apply elem_of_cons in H as [H|H]; [done|]).
  by apply elem_of_nil in H.
Qed.

Lemma capped_exact n m : capped n m -> n <= 1 -> n = m.
Proof. unfold capped. lia. Qed.

(** The loop over the candidates of one empty cell, given that every
    recursive call returns a capped count of the completions below it. *)
Lemma count_nums_capped (rec : Grid -> option Z) rest row col b l count :
  (forall num, num ∈ l ->
     exists k, rec (grid_set row col num b) = Some k
               /\ capped k (Z.of_nat (length (completions rest (grid_set row col num b))))) ->
  0 <= count <= 1 ->
  exists n,
    count_nums rec row col l count b = Some n
    /\ capped n
         (count + Z.of_nat (length (flat_map (fun num =>
                      if is_valid_in_board b row col num
                      then completions rest (grid_set row col num b)
                      else []) l))).
Proof.
  revert count. induction l as [|num l IH]; intros count Hrec Hc; cbn [count_nums flat_map].
  - exists count. split; [done|]. unfold capped. simpl. lia.
  - rewrite length_app, Nat2Z.inj_add.
    assert (Hrec' : forall num0, num0 ∈ l ->
              exists k, rec (grid_set row col num0 b) = Some k
                /\ capped k (Z.of_nat (length (completions rest (grid_set row col num0 b))))).
    { intros num0 Hin. apply Hrec. by right. }
    destruct (is_valid_in_board b row col num).
    + destruct (Hrec num) as (k & Hk & Hcap); [by left|]. rewrite Hk.
      destruct (Z.gtb_spec (count + k) 1) as [Hgt|Hle].
      * exists (count + k). split; [done|]. unfold capped in *. lia.
      * assert (k = Z.of_nat (length (completions rest (grid_set row col num b))))
          as Hex by (unfold capped in Hcap; lia).
        destruct (IH (count + k) Hrec') as (n & Hn & Hcap'); [unfold capped in Hcap; lia|].
        exists n. split; [done|]. rewrite <- Hex. unfold capped in *. lia.
    + destruct (IH count Hrec' Hc) as (n & Hn & Hcap').
      exists n. split; [done|]. simpl. exact Hcap'.
Qed.

Lemma count_solutions_capped cells :
  forall pre b fuel,
    all_cells = pre ++ cells -> grid9 b ->
    Forall (fun p => (grid_at b p.1 p.2 =? 0) = false) pre ->
    (length cells < fuel)%nat ->
    exists n, count_solutions fuel b = Some n
              /\ capped n (Z.of_nat (length (completions cells b))).
Proof.
  induction cells as [|[r c] rest IH]; intros pre b fuel Hall H9 Hpre Hfuel.
  - destruct fuel as [|fuel]; [simpl in Hfuel; lia|]. cbn [count_solutions].
    unfold find_empty. rewrite Hall.
    rewrite (find_skip (fun '(r, c) => grid_at b r c =? 0) pre []);
      [|eapply Forall_impl; [exact Hpre|]; by intros [? ?]].
    exists 1. split; [done|]. unfold capped. simpl. lia.
  - assert (Hin : (r, c) ∈ all_cells).
    { rewrite Hall. apply elem_of_app. right. by left. }
    apply in_all_cells in Hin as [Hr Hc].
    cbn [completions]. destruct (grid_at b r c =? 0) eqn:Hz.
    + destruct fuel as [|fuel]; [simpl in Hfuel; lia|]. cbn [count_solutions].
      assert (find_empty b = Some (r, c)) as ->.
      { unfold find_empty. rewrite Hall.
        rewrite (find_skip (fun '(r, c) => grid_at b r c =? 0) pre);
          [|eapply Forall_impl; [exact Hpre|]; by intros [? ?]].
        simpl. by rewrite Hz. }
      replace (Z.of_nat (length (flat_map _ nums)))
        with (0 + Z.of_nat (length (flat_map (fun num =>
                 if is_valid_in_board b r c num
                 then completions rest (grid_set r c num b) else []) nums))) by lia.
      apply count_nums_capped; [|lia].
      intros num Hnum. apply (IH (pre ++ [(r, c)])).
      * by rewrite <- app_assoc.
      * by apply grid9_set.
      * apply Forall_app. split.
        -- eapply Forall_impl; [exact Hpre|]. intros [r' c'] Hp. cbn [fst snd] in *.
           rewrite grid_at_set_ne; [done|]. intros [= -> ->]. congruence.
        -- apply Forall_singleton. cbn [fst snd].
           rewrite grid_at_set_eq by done.
           apply Z.eqb_neq. by apply nums_nonzero.
      * simpl in Hfuel. lia.
    + apply (IH (pre ++ [(r, c)])).
      * by rewrite <- app_assoc.
      * done.
      * apply Forall_app. split; [done|]. by apply Forall_singleton.
      * simpl in Hfuel. lia.
Qed.

(** With fuel 82 the counter returns on every 9x9 grid, and what it
    returns is a capped count of the solutions. *)
Lemma count_solutions_returns b :
  grid9 b ->
  exists n, count_solutions 82 b = Some n
            /\ capped n (Z.of_nat (length (solutions b))).
Proof.
  intros H9. apply (count_solutions_capped all_cells [] b 82 eq_refl H9).
  - constructor.
  - cbn. lia.
Qed.

(** [count_nums] leaves the loop as soon as the running count exceeds 1:
    the candidates still to come are not looked at. *)
Lemma count_nums_early_return rec row col num l count b k :
  is_valid_in_board b row col num = true ->
  rec (grid_set row col num b) = Some k -> 1 < count + k ->
  count_nums rec row col (num :: l) count b = Some (count + k).
Proof.
  intros Hv Hk Hgt. cbn [count_nums]. rewrite Hv, Hk.
  destruct (Z.gtb_spec (count + k) 1); [done|lia].
Qed.

Lemma completions_extend cells b s r c :
  s ∈ completions cells b -> grid_at b r c ≠ 0 -> grid_at s r c = grid_at b r c.
Proof.
  revert b. induction cells as [|[r0 c0] rest IH]; intros b Hs Hnz; cbn [completions] in Hs.
  - apply list_elem_of_singleton in Hs. by subst.
  - destruct (Z.eqb_spec (grid_at b r0 c0) 0) as [Hz|_]; [|by apply IH].
    apply list_elem_of_In, in_flat_map in Hs as (num & _ & Hs).
    destruct (is_valid_in_board b r0 c0 num); [|done].
    apply list_elem_of_In in Hs.
    assert (Hne : (r, c) ≠ (r0, c0)) by (intros [= -> ->]; done).
    rewrite <- (grid_at_set_ne r0 c0 num b r c Hne).
    apply IH; [done|]. by rewrite grid_at_set_ne.
Qed.

(** Every completion is a full grid. *)
Lemma completions_full cells b s :
  grid9 b -> Forall (fun p => p ∈ all_cells) cells ->
  s ∈ completions cells b ->
  Forall (fun p => grid_at s p.1 p.2 ≠ 0) cells.
Proof.
  revert b. induction cells as [|[r0 c0] rest IH]; intros b H9 Hin Hs; [done|].
  apply Forall_cons in Hin as [Hin0 Hin]. apply in_all_cells in Hin0 as [Hr Hc].
  cbn [completions] in Hs.
  destruct (Z.eqb_spec (grid_at b r0 c0) 0) as [Hz|Hnz].
  - apply list_elem_of_In, in_flat_map in Hs as (num & Hnum & Hs).
    destruct (is_valid_in_board b r0 c0 num); [|done].
    apply list_elem_of_In in Hs, Hnum.
    apply Forall_cons. split; [|by eapply IH; [apply grid9_set| |]].
    cbn [fst snd].
    rewrite (completions_extend rest _ s r0 c0 Hs); rewrite grid_at_set_eq by done;
      by apply nums_nonzero.
  - apply Forall_cons. split; [|by eapply IH].
    cbn [fst snd]. by rewrite (completions_extend rest b s r0 c0 Hs Hnz).
Qed.

(** A grid without empty cells is its only solution. *)
Lemma completions_of_full cells b :
  Forall (fun p => grid_at b p.1 p.2 ≠ 0) cells -> completions cells b = [b].
Proof.
  induction 1 as [|[r c] rest Hnz _ IH]; cbn [completions]; [done|].
  cbn [fst snd] in Hnz. by destruct (Z.eqb_spec (grid_at b r c) 0).
Qed.

Lemma carving_grid9 : grid9 carving_grid.
Proof. split; [reflexivity|]. repeat constructor. Qed.

(** The grid on which the counter overshoots is one that carving really
    produces:
    the 55th cell of the shuffle of the empty tape is (6,1), and emptying
    it after the first 54 cells were carved gives [carving_grid]. *)
Lemma carving_grid_arises :
  fst (Random.shuffle all_cells []) !! 54%nat = Some (6, 1)%nat
  /\ option_map (fun g => board_copy (board (set_value 6 1 0 g)))
       (carve (take 54 (fst (Random.shuffle all_cells []))) 0
          (with_board solved_board (init_game medium)))
     = Some carving_grid.
Proof. by_evaluation. Qed.

(** C6.  The counter does not keep to the cap of 2 that its docstring
    announces and that its loop tests.  The test [count > 1] comes only
    after the result of the recursive call has been added to the running
    count, so a loop that has counted 1 adds the 2 returned by the next
    branch and returns 3.  This happens on [carving_grid], a 9x9 grid that
    [create_puzzle] hands to the counter while carving the medium game of
    the empty tape (see [carving_grid_arises]): there [count_solutions]
    returns a value greater than 2, whereas C6 says that its return value
    never exceeds 2. *)
Theorem count_solutions_exceeds_two :
  grid9 carving_grid
  /\ exists n, count_solutions 82 carving_grid = Some n /\ 2 < n.
Proof.
  split; [exact carving_grid9|]. exists 3. split; [vm_compute; reflexivity|lia].
Qed.


(** ** Carving and quantum selection *)

Lemma all_cells_NoDup : NoDup all_cells.
Proof. apply (bool_decide_unpack _). vm_compute. reflexivity. Qed.

Lemma filter_length_one_change `{EqDecision A} (p q : A -> bool) (a : A) (l : list A) :
  NoDup l -> (forall x, x ≠ a -> p x = q x) ->
  (length (List.filter q l) <= S (length (List.filter p l)))%nat.
Proof.
  intros Hnd Hpq. induction Hnd as [|x l Hx Hnd IH]; simpl; [lia|].
  destruct (decide (x = a)) as [->|Hne].
  - assert (List.filter q l = List.filter p l) as ->.
    { apply filter_ext_in. intros y Hy. symmetry. apply Hpq.
      intros ->. apply Hx. by apply list_elem_of_In. }
    destruct (q a), (p a); simpl; lia.
  - rewrite (Hpq x Hne). destruct (q x); simpl; lia.
Qed.

Lemma value_update_keeps f row col b r c :
  (forall x, value (f x) = value x) ->
  value (cell_at (update_cell f row col b) r c) = value (cell_at b r c).
Proof.
  intros Hf. unfold cell_at.
  destruct (decide ((r, c) = (row, col))) as [[= -> ->]|Hne].
  - rewrite lookup_cell_update_eq. destruct (lookup_cell b row col); simpl; [|done].
    apply Hf.
  - by rewrite lookup_cell_update_ne.
Qed.

Lemma count_nonzero_ext b b' :
  (forall r c, value (cell_at b' r c) = value (cell_at b r c)) ->
  count_nonzero b' = count_nonzero b.
Proof.
  intros H. unfold count_nonzero, cells_where. f_equal.
  apply filter_ext. intros [r c]. by rewrite H.
Qed.

Lemma count_nonzero_set_value row col v g :
  (count_nonzero (board g) <= S (count_nonzero (board (set_value row col v g))))%nat.
Proof.
  unfold count_nonzero, cells_where.
  apply (filter_length_one_change _ _ (row, col)); [exact all_cells_NoDup|].
  intros [r c] Hne. unfold set_value. cbn [board with_board].
  by rewrite cell_at_update_ne.
Qed.

Lemma count_nonzero_restore row col g :
  count_nonzero
    (board (set_value row col (value (cell_at (board g) row col))
              (set_value row col 0 g)))
  = count_nonzero (board g).
Proof.
  apply count_nonzero_ext. intros r c. unfold set_value. cbn [board with_board].
  destruct (decide ((r, c) = (row, col))) as [[= -> ->]|Hne].
  - unfold cell_at. rewrite !lookup_cell_update_eq.
    by destruct (lookup_cell (board g) row col).
  - by rewrite !cell_at_update_ne.
Qed.

Lemma board_copy_grid9 b : grid9 (board_copy b).
Proof. split; [reflexivity|]. unfold board_copy. repeat constructor. Qed.

(** The removal loop returns, and it removes at most what is left of the
    target. *)
Lemma carve_total cells removed g :
  0 <= removed <= cells_to_remove (difficulty g) ->
  exists g',
    carve cells removed g = Some g'
    /\ Z.of_nat (count_nonzero (board g))
       <= Z.of_nat (count_nonzero (board g'))
          + (cells_to_remove (difficulty g) - removed).
Proof.
  revert removed g. induction cells as [|[row col] cells IH]; intros removed g Hr;
    cbn [carve].
  - exists g. split; [done|]. lia.
  - destruct (Z.geb_spec removed (cells_to_remove (difficulty g))) as [Hge|Hlt].
    { exists g. split; [done|]. lia. }
    pose proof (count_nonzero_set_value row col 0 g) as Hset.
    destruct (is_hard (difficulty g)).
    + destruct (IH (removed + 1) (set_value row col 0 g)) as (g' & Hg' & Hn).
      { cbn [difficulty set_value with_board]. lia. }
      exists g'. split; [done|]. cbn [difficulty set_value with_board] in Hn. lia.
    + destruct (count_solutions_returns
                  (board_copy (board (set_value row col 0 g)))
                  (board_copy_grid9 _)) as (n & -> & _).
      destruct (negb (n =? 1)).
      * destruct (IH removed
                    (set_value row col (value (cell_at (board g) row col))
                       (set_value row col 0 g))) as (g' & Hg' & Hn).
        { cbn [difficulty set_value with_board]. lia. }
        exists g'. split; [done|].
        rewrite count_nonzero_restore in Hn.
        cbn [difficulty set_value with_board] in Hn. lia.
      * destruct (IH (removed + 1) (set_value row col 0 g)) as (g' & Hg' & Hn).
        { cbn [difficulty set_value with_board]. lia. }
        exists g'. split; [done|]. cbn [difficulty set_value with_board] in Hn. lia.
Qed.

Lemma update_cells_value f cells b r c :
  (forall x, value (f x) = value x) ->
  value (cell_at (update_cells f cells b) r c) = value (cell_at b r c).
Proof.
  intros Hf. revert b. unfold update_cells.
  induction cells as [|[r0 c0] cells IH]; intros b; simpl; [done|].
  rewrite IH. by apply value_update_keeps.
Qed.

Lemma lock_given_value x : value (lock_given x) = value x.
Proof. unfold lock_given. by destruct (negb _). Qed.

Lemma lock_given_empty_or_locked x : empty_or_locked (lock_given x).
Proof.
  unfold lock_given, empty_or_locked.
  destruct (Z.eqb_spec (value x) 0); cbn [negb]; [by left|by right].
Qed.

Lemma update_cells_at (Q : QuantumCell -> Prop) f cells b r c y :
  (forall x, Q (f x)) ->
  ((r, c) ∈ cells \/ forall x, lookup_cell b r c = Some x -> Q x) ->
  lookup_cell (update_cells f cells b) r c = Some y -> Q y.
Proof.
  intros Hf. revert b. unfold update_cells.
  induction cells as [|[r0 c0] cells IH]; intros b Hin; simpl.
  - destruct Hin as [Hin|Hb]; [by apply elem_of_nil in Hin|apply Hb].
  - apply IH.
    destruct (decide ((r, c) = (r0, c0))) as [[= -> ->]|Hne].
    + right. intros x. rewrite lookup_cell_update_eq.
      destruct (lookup_cell b r0 c0); [|done]. intros [= <-]. apply Hf.
    + destruct Hin as [Hin|Hb].
      * left. apply elem_of_cons in Hin as [?|?]; [done|done].
      * right. intros x. rewrite lookup_cell_update_ne by done. apply Hb.
Qed.

Lemma create_puzzle_total g t :
  exists g' t',
    create_puzzle g t = Some (g', t')
    /\ Z.of_nat (count_nonzero (board g))
       <= Z.of_nat (count_nonzero (board g')) + cells_to_remove (difficulty g)
    /\ (forall r c y, (r, c) ∈ all_cells ->
          lookup_cell (board g') r c = Some y -> empty_or_locked y).
Proof.
  unfold create_puzzle. destruct (Random.shuffle all_cells t) as [shuffled t1].
  destruct (carve_total shuffled 0 g) as (g1 & -> & Hn).
  { destruct (difficulty g); simpl; lia. }
  eexists _, _. split; [reflexivity|]. cbn [board with_board]. split.
  - rewrite (count_nonzero_ext (board g1) (update_cells lock_given all_cells (board g1)));
      [lia|].
    intros r c. apply update_cells_value, lock_given_value.
  - intros r c y Hin. apply update_cells_at; [apply lock_given_empty_or_locked|].
    by left.
Qed.

Lemma filter_nil {A} (p : A -> bool) l :
  (forall x, x ∈ l -> p x = false) -> List.filter p l = [].
Proof.
  induction l as [|x l IH]; intros H; simpl; [done|].
  rewrite (H x) by left. apply IH. intros y Hy. apply H. by right.
Qed.

(** Once the givens are locked, no cell is both unlocked and nonzero:
    the selection of [create_quantum_cells] has nothing to choose from. *)
Lemma no_quantum_candidates b :
  (forall r c y, (r, c) ∈ all_cells -> lookup_cell b r c = Some y -> empty_or_locked y) ->
  cells_where (fun _ _ cell =>
      negb (locked cell) && negb (value cell =? 0) && negb (is_quantum cell)) b = [].
Proof.
  intros H. unfold cells_where. apply filter_nil. intros [r c] Hin.
  unfold cell_at. destruct (lookup_cell b r c) as [y|] eqn:E; simpl; [|done].
  destruct (H r c y Hin E) as [Hv|Hl].
  - rewrite Hv. simpl. by rewrite andb_false_r.
  - by rewrite Hl.
Qed.

Lemma create_quantum_cells_nothing n g t :
  cells_where (fun _ _ cell =>
      negb (locked cell) && negb (value cell =? 0) && negb (is_quantum cell))
    (board g) = [] ->
  create_quantum_cells n g t = (g, t).
Proof.
  intros H. unfold create_quantum_cells. rewrite H. cbn. by rewrite take_nil.
Qed.

Lemma count_quantum_collapsed b :
  board_all (fun x => collapsed x = true) b -> count_quantum b = 0%nat.
Proof.
  intros H. unfold count_quantum, cells_where. rewrite filter_nil; [done|].
  intros [r c] _. unfold cell_at, is_quantum.
  destruct (lookup_cell b r c) as [y|] eqn:E; simpl; [|done].
  rewrite (H r c y E). by rewrite andb_false_r.
Qed.

Lemma filter_shorter {A} (p : A -> bool) l :
  (length (List.filter p l) <= length l)%nat.
Proof. induction l as [|x l IH]; simpl; [lia|]. destruct (p x); simpl; lia. Qed.

Lemma count_nonzero_le b : (count_nonzero b <= 81)%nat.
Proof. unfold count_nonzero, cells_where. apply (filter_shorter _ all_cells). Qed.

(** Whatever the tape, a new game holds no cell in superposition: quantum
    selection looks for cells that are unlocked and nonzero, and the
    locking loop that ran just before left none. *)
Lemma new_game_no_superposition d t g t' :
  new_game d t = Some (g, t') -> count_quantum (board g) = 0%nat.
Proof.
  unfold new_game, setup_game.
  rewrite (generate_solved_board_eq (init_game d) (init_game_board9 d) eq_refl).
  destruct (create_puzzle_total (with_board solved_board (init_game d)) t)
    as (g2 & t2 & E & _ & Hq).
  rewrite E. pose proof (create_puzzle_spec _ _ _ _ E solved_board_plain) as [_ Hg].
  rewrite (create_quantum_cells_nothing _ g2 t2 (no_quantum_candidates _ Hq)).
  intros H. apply some_pair_inj in H as [-> _].
  apply count_quantum_collapsed. eapply board_all_impl; [exact Hg|].
  by intros x [? _].
Qed.

(** C7, as stated, fails: under [tape32] the carved medium grid holds 32
    nonzero cells, and quantum selection converts none. *)
Lemma medium_game_with_32_givens :
  exists g1 g2 t2,
    generate_solved_board (init_game medium) = Some g1
    /\ create_puzzle g1 tape32 = Some (g2, t2)
    /\ count_nonzero (board g2) = 32%nat
    /\ new_game medium tape32 = Some (create_quantum_cells 10 g2 t2)
    /\ count_quantum (board (fst (create_quantum_cells 10 g2 t2))) = 0%nat.
Proof.
  exists (with_board solved_board (init_game medium)), carved_32, [].
  by_evaluation.
Qed.

(** C7, amended.  Whatever the tape, creating a medium game returns; the
    generator leaves 81 nonzero cells, carving removes at most 50 of them,
    so that at least 31 are nonzero before quantum conversion, and quantum
    conversion leaves at most 10 cells in superposition. *)
Theorem medium_game_carving (t : Random.tape) :
  exists g1 g2 t2,
    generate_solved_board (init_game medium) = Some g1
    /\ count_nonzero (board g1) = 81%nat
    /\ create_puzzle g1 t = Some (g2, t2)
    /\ (31 <= count_nonzero (board g2) <= 81)%nat
    /\ new_game medium t = Some (create_quantum_cells 10 g2 t2)
    /\ (count_quantum (board (fst (create_quantum_cells 10 g2 t2))) <= 10)%nat.
Proof.
  pose proof (generate_solved_board_eq (init_game medium)
                (init_game_board9 medium) eq_refl) as Hgen.
  destruct (create_puzzle_total (with_board solved_board (init_game medium)) t)
    as (g2 & t2 & E & Hn & Hq).
  pose proof (create_puzzle_spec _ _ _ _ E solved_board_plain) as [Hob Hg].
  assert (Hfull : count_nonzero (board (with_board solved_board (init_game medium)))
                  = 81%nat) by (vm_compute; reflexivity).
  exists (with_board solved_board (init_game medium)), g2, t2.
  split; [exact Hgen|]. split; [exact Hfull|]. split; [exact E|]. split.
  - rewrite Hfull in Hn. cbn [difficulty with_board init_game cells_to_remove] in Hn.
    pose proof (count_nonzero_le (board g2)). lia.
  - split.
    + unfold new_game, setup_game. rewrite Hgen, E.
      rewrite Hob. reflexivity.
    + rewrite (create_quantum_cells_nothing _ g2 t2 (no_quantum_candidates _ Hq)).
      cbn [fst]. rewrite count_quantum_collapsed; [lia|].
      eapply board_all_impl; [exact Hg|]. by intros x [? _].
Qed.

(** ** Collapse through [collapse_quantum_cell] *)

Lemma collapse_success cell v t cell' t' :
  collapse cell v t = (true, cell', t') ->
  exists w, cell' = collapse_to w cell
            /\ (forall x, v = Some x -> w = x).
Proof.
  unfold collapse. destruct (is_empty_list _ || _); [done|].
  destruct v as [x|].
  - destruct (mem x _); [|done]. intros [= <- <-]. exists x. split; [done|].
    by intros ? [= <-].
  - destruct (Random.choice _ _ _) as [w t1]. intros [= <- <-]. by exists w.
Qed.

Lemma collapse_quantum cell v t :
  is_quantum cell = true ->
  (forall x, v = Some x -> mem x (superposition cell) = true) ->
  exists w t', collapse cell v t = (true, collapse_to w cell, t')
               /\ (forall x, v = Some x -> w = x).
Proof.
  intros Hq Hv. unfold collapse, is_quantum in *.
  apply andb_prop in Hq as [Hs Hc].
  destruct (is_empty_list _); [done|]. destruct (collapsed cell); [done|]. simpl.
  destruct v as [x|].
  - rewrite (Hv x eq_refl). exists x, t. split; [done|]. by intros ? [= <-].
  - destruct (Random.choice _ _ _) as [w t1]. by exists w, t1.
Qed.

(** The path that C3 describes, as [make_move] and the AI take it: when a
    superposed cell whose only link is a superposed peer is collapsed by
    [collapse_quantum_cell], both cells are resolved afterwards, and the
    peer takes the collapsed value whenever that value is among its
    candidates. *)
Lemma collapse_quantum_cell_propagates row col orow ocol v g t x y g' t' :
  lookup_cell (board g) row col = Some x ->
  lookup_cell (board g) orow ocol = Some y ->
  (orow, ocol) ≠ (row, col) ->
  is_quantum y = true ->
  entangled_with x = [(orow, ocol)] ->
  collapse_quantum_cell row col v g t = (true, g', t') ->
  collapsed (cell_at (board g') row col) = true
  /\ collapsed (cell_at (board g') orow ocol) = true
  /\ (mem (value (cell_at (board g') row col)) (superposition y) = true ->
      value (cell_at (board g') orow ocol) = value (cell_at (board g') row col)).
Proof.
  intros Hx Hy Hne Hqy Hlink. unfold collapse_quantum_cell.
  rewrite (cell_at_lookup _ _ _ _ Hx).
  destruct (negb (is_quantum x)); [done|].
  destruct (collapse x v t) as [[ok x'] t1] eqn:E.
  destruct ok; cbn [negb]; [|done].
  destruct (collapse_success _ _ _ _ _ E) as (w & -> & _).
  cbn [entangled_with collapse_to]. rewrite Hlink. cbn [collapse_peers collapse_peer].
  set (b1 := update_cell (fun _ => collapse_to w x) row col (board g)).
  assert (H1 : cell_at b1 orow ocol = y).
  { unfold b1. rewrite cell_at_update_ne by done. by apply cell_at_lookup. }
  assert (H2 : cell_at b1 row col = collapse_to w x).
  { unfold b1. by rewrite (cell_at_update_eq _ _ _ _ x). }
  assert (H3 : lookup_cell b1 orow ocol = Some y).
  { unfold b1. by rewrite lookup_cell_update_ne. }
  rewrite H1, Hqy, H2. cbn [value collapse_to].
  destruct (mem w (superposition y)) eqn:Hm.
  - destruct (collapse_quantum y (Some w) t1 Hqy) as (w' & t2 & -> & Hw');
      [by intros ? [= <-]|].
    rewrite (Hw' w eq_refl). intros [= <- <-]. cbn [board with_board].
    rewrite cell_at_update_ne by (intros [= -> ->]; done).
    rewrite H2. rewrite (cell_at_update_eq _ _ _ _ y H3). done.
  - destruct (collapse_quantum y None t1 Hqy) as (w' & t2 & -> & _); [done|].
    intros [= <- <-]. cbn [board with_board].
    rewrite cell_at_update_ne by (intros [= -> ->]; done).
    rewrite H2. rewrite (cell_at_update_eq _ _ _ _ y H3). cbn [collapsed collapse_to value].
    rewrite Hm. done.
Qed.

(** ** The solutions are the grids that solve the puzzle *)

Lemma mem_false x l : mem x l = false <-> forall y, y ∈ l -> y ≠ x.
Proof.
  unfold mem. split.
  - intros H y Hy ->. apply not_true_iff_false in H. apply H.
    apply existsb_exists. exists x. split; [by apply list_elem_of_In|].
    apply Z.eqb_refl.
  - intros H. apply not_true_iff_false. intros He.
    apply existsb_exists in He as (y & Hy & Heq). apply Z.eqb_eq in Heq. subst.
    by apply (H y); [apply list_elem_of_In|].
Qed.

Lemma same_box r r' : (r < 9)%nat -> (r' < 9)%nat ->
  (r' / 3 = r / 3)%nat <-> (r / 3 * 3 <= r' < r / 3 * 3 + 3)%nat.
Proof.
  intros Hr Hr'.
  do 9 (destruct r as [|r];
        [do 9 (destruct r' as [|r']; [vm_compute; split; [intros; lia|intros [? ?]; lia]|]); lia|]).
  lia.
Qed.

Lemma at_pos_row b r c rw :
  b !! r = Some rw -> at_pos b (r, c) = default 0 (rw !! c).
Proof. intros E. unfold at_pos, grid_at. cbn [fst snd]. by rewrite E. Qed.

Lemma existsb_false {A} (f : A -> bool) l :
  existsb f l = false <-> forall x, x ∈ l -> f x = false.
Proof.
  split.
  - intros H x Hx. apply not_true_iff_false. intros Hf.
    apply not_true_iff_false in H. apply H, existsb_exists.
    exists x. split; [by apply list_elem_of_In|done].
  - intros H. apply not_true_iff_false. intros He.
    apply existsb_exists in He as (x & Hx & Hf).
    rewrite (H x) in Hf; [done|by apply list_elem_of_In].
Qed.

Lemma elem_of_seq_iff j n i : i ∈ seq j n <-> (j <= i < j + n)%nat.
Proof. rewrite list_elem_of_In. apply in_seq. Qed.

(** [is_valid_in_board] says that no cell of the row, the column or the box
    of the position holds the number. *)
Lemma is_valid_in_board_spec b r c num :
  grid9 b -> (r < 9)%nat -> (c < 9)%nat ->
  is_valid_in_board b r c num = true <->
  forall q, q ∈ all_cells -> same_unit (r, c) q = true -> at_pos b q ≠ num.
Proof.
  intros H9 Hr Hc. destruct (grid9_row b r H9 Hr) as (rw & Erow & Hlen).
  unfold is_valid_in_board. rewrite Erow.
  change (default [] (Some rw)) with rw.
  split.
  - destruct (mem num rw) eqn:Hrow; [discriminate|].
    destruct (mem num (map _ range9)) eqn:Hcol; [discriminate|].
    destruct (existsb _ (seq (r / 3 * 3) 3)) eqn:Hbox; [discriminate|]. intros _.
    intros [r' c'] Hq Hunit. apply in_all_cells in Hq as [Hr' Hc'].
    unfold same_unit in Hunit. cbn [fst snd] in Hunit.
    apply orb_prop in Hunit as [Hunit|Hunit]; [apply orb_prop in Hunit as [Hu|Hu]|].
    + apply Nat.eqb_eq in Hu. subst r'. rewrite (at_pos_row _ _ _ _ Erow).
      destruct (lookup_lt_is_Some_2 rw c') as [y Hy]; [lia|]. rewrite Hy. simpl.
      apply (proj1 (mem_false num rw) Hrow). by eapply list_elem_of_lookup_2.
    + apply Nat.eqb_eq in Hu. subst c'.
      apply (proj1 (mem_false num _) Hcol).
      apply list_elem_of_In, in_map_iff. exists r'. split; [done|].
      apply in_seq. lia.
    + apply andb_prop in Hunit as [Hu1 Hu2].
      apply Nat.eqb_eq in Hu1, Hu2. symmetry in Hu1, Hu2.
      apply (same_box r r' Hr Hr') in Hu1. apply (same_box c c' Hc Hc') in Hu2.
      pose proof (proj1 (existsb_false _ _) Hbox r') as H1.
      rewrite elem_of_seq_iff in H1. specialize (H1 Hu1).
      pose proof (proj1 (existsb_false _ _) H1 c') as H2.
      rewrite elem_of_seq_iff in H2. specialize (H2 Hu2).
      by apply Z.eqb_neq in H2.
  - intros H.
    assert (Hrow : mem num rw = false).
    { apply mem_false. intros y Hy. apply list_elem_of_lookup in Hy as [c' Hy].
      pose proof (lookup_lt_Some _ _ _ Hy) as Hlt.
      specialize (H (r, c')). rewrite (at_pos_row _ _ _ _ Erow), Hy in H.
      apply H; [apply in_all_cells; lia|].
      unfold same_unit. cbn [fst snd]. by rewrite Nat.eqb_refl. }
    rewrite Hrow.
    assert (Hcol : mem num (map (fun r0 => grid_at b r0 c) range9) = false).
    { apply mem_false. intros y Hy.
      apply list_elem_of_In, in_map_iff in Hy as (r' & <- & Hr').
      apply in_seq in Hr'.
      apply (H (r', c)); [apply in_all_cells; lia|].
      unfold same_unit. cbn [fst snd]. by rewrite Nat.eqb_refl, orb_true_r. }
    rewrite Hcol.
    assert (Hbox : existsb (fun r0 => existsb (fun c0 => grid_at b r0 c0 =? num)
                     (seq (c / 3 * 3) 3)) (seq (r / 3 * 3) 3) = false).
    { apply existsb_false. intros r' Hr'. apply existsb_false. intros c' Hc'.
      apply elem_of_seq_iff in Hr', Hc'.
      assert (r / 3 < 3)%nat by (apply Nat.Div0.div_lt_upper_bound; lia).
      assert (c / 3 < 3)%nat by (apply Nat.Div0.div_lt_upper_bound; lia).
      assert (r' < 9)%nat by lia. assert (c' < 9)%nat by lia.
      apply Z.eqb_neq. apply (H (r', c')); [apply in_all_cells; lia|].
      unfold same_unit. cbn [fst snd].
      apply (same_box r r') in Hr'; [|done..]. apply (same_box c c') in Hc'; [|done..].
      rewrite Hr', Hc', !Nat.eqb_refl. by rewrite orb_true_r. }
    by rewrite Hbox.
Qed.

Lemma grid_ext s b :
  grid9 s -> grid9 b ->
  (forall p, p ∈ all_cells -> at_pos s p = at_pos b p) -> s = b.
Proof.
  intros Hs Hb H. apply list_eq. intros r.
  destruct (decide (r < 9)%nat) as [Hr|Hr].
  - destruct (grid9_row s r Hs Hr) as (rs & Es & Ls).
    destruct (grid9_row b r Hb Hr) as (rb & Eb & Lb).
    rewrite Es, Eb. f_equal. apply list_eq. intros c.
    destruct (decide (c < 9)%nat) as [Hc|Hc].
    + specialize (H (r, c)).
      rewrite (at_pos_row _ _ _ _ Es), (at_pos_row _ _ _ _ Eb) in H.
      destruct (lookup_lt_is_Some_2 rs c) as [x Hx]; [lia|].
      destruct (lookup_lt_is_Some_2 rb c) as [y Hy]; [lia|].
      rewrite Hx, Hy in *. simpl in H. f_equal. apply H, in_all_cells. lia.
    + rewrite !lookup_ge_None_2; [done|lia|lia].
  - destruct Hs as [Ls _], Hb as [Lb _].
    rewrite !lookup_ge_None_2; [done|lia|lia].
Qed.

Lemma at_pos_set_eq p v b :
  grid9 b -> p ∈ all_cells -> at_pos (grid_set p.1 p.2 v b) p = v.
Proof.
  destruct p as [r c]. intros H9 Hp. apply in_all_cells in Hp as [Hr Hc].
  by apply grid_at_set_eq.
Qed.

Lemma at_pos_set_ne p v b q :
  q ≠ p -> at_pos (grid_set p.1 p.2 v b) q = at_pos b q.
Proof.
  destruct p as [r c], q as [r' c']. intros Hne. by apply grid_at_set_ne.
Qed.

Lemma before_cons p0 rest q p : before rest q p -> before (p0 :: rest) q p.
Proof. intros (l1 & l2 & l3 & ->). by exists (p0 :: l1), l2, l3. Qed.

Lemma before_head p0 rest p : p ∈ rest -> before (p0 :: rest) p0 p.
Proof.
  intros Hp. apply list_elem_of_split in Hp as (l2 & l3 & ->). by exists [], l2, l3.
Qed.

Lemma before_cons_inv p0 rest q p :
  before (p0 :: rest) q p -> (q = p0 /\ p ∈ rest) \/ before rest q p.
Proof.
  intros (l1 & l2 & l3 & H). destruct l1 as [|x l1]; simplify_eq/=.
  - left. split; [done|]. apply elem_of_app. right. by left.
  - right. by exists l1, l2, l3.
Qed.

Lemma before_not_head p0 rest q : NoDup (p0 :: rest) -> ~ before (p0 :: rest) q p0.
Proof.
  intros Hnd (l1 & l2 & l3 & H). apply NoDup_cons in Hnd as [Hnot _].
  apply Hnot. destruct l1 as [|x l1]; simplify_eq/=.
  - apply elem_of_app. right. by left.
  - apply elem_of_app. right. right. apply elem_of_app. right. by left.
Qed.

Lemma before_total cells q p :
  q ∈ cells -> p ∈ cells -> q ≠ p -> before cells q p \/ before cells p q.
Proof.
  intros Hq Hp Hne. apply list_elem_of_split in Hq as (l1 & l2 & ->).
  apply elem_of_app in Hp as [Hp|Hp].
  - right. apply list_elem_of_split in Hp as (m1 & m2 & ->).
    exists m1, m2, l2. by rewrite <- app_assoc.
  - apply elem_of_cons in Hp as [->|Hp]; [done|].
    left. apply list_elem_of_split in Hp as (m1 & m2 & ->). by exists l1, m1, m2.
Qed.

Lemma elem_of_nums num : num ∈ nums <-> 1 <= num <= 9.
Proof.
  unfold nums. split.
  - intros H. repeat (apply elem_of_cons in H as [->|H]; [lia|]).
    by apply elem_of_nil in H.
  - intros [H1 H9].
    assert (num = 1 \/ num = 2 \/ num = 3 \/ num = 4 \/ num = 5 \/ num = 6
            \/ num = 7 \/ num = 8 \/ num = 9) as Hc by lia.
    repeat (destruct Hc as [->|Hc]; [set_solver|]). subst. set_solver.
Qed.

Lemma same_unit_sym p q : same_unit p q = same_unit q p.
Proof.
  unfold same_unit.
  by rewrite (Nat.eqb_sym p.1), (Nat.eqb_sym p.2), (Nat.eqb_sym (p.1 / 3)),
    (Nat.eqb_sym (p.2 / 3)).
Qed.

Lemma same_unit_refl p : same_unit p p = true.
Proof. unfold same_unit. by rewrite Nat.eqb_refl. Qed.

Lemma fills_cons_empty r0 c0 rest b s :
  grid9 b -> NoDup ((r0, c0) :: rest) -> (r0, c0) ∈ all_cells ->
  grid_at b r0 c0 = 0 ->
  fills ((r0, c0) :: rest) b s <->
  exists num, num ∈ nums /\ is_valid_in_board b r0 c0 num = true
              /\ fills rest (grid_set r0 c0 num b) s.
Proof.
  intros H9 Hnd Hp0 Hz. apply NoDup_cons in Hnd as [Hnot Hnd'].
  pose proof (proj1 (in_all_cells r0 c0) Hp0) as [Hr0 Hc0].
  assert (Hset0 : forall v, at_pos (grid_set r0 c0 v b) (r0, c0) = v).
  { intros v. by apply (at_pos_set_eq (r0, c0)). }
  assert (Hset : forall v q, q ≠ (r0, c0) -> at_pos (grid_set r0 c0 v b) q = at_pos b q).
  { intros v q Hq. by apply (at_pos_set_ne (r0, c0)). }
  split.
  - intros (Hs9 & Hext & Hun & Hfill).
    destruct (Hfill (r0, c0)) as [Hrange Hdiff]; [by left|done|].
    exists (at_pos s (r0, c0)). split; [by apply elem_of_nums|]. split.
    + apply is_valid_in_board_spec; [done..|]. intros q Hq Hunit.
      destruct (decide (q = (r0, c0))) as [->|Hne].
      { change (at_pos b (r0, c0)) with (grid_at b r0 c0). lia. }
      destruct (decide (at_pos b q = 0)) as [Hq0|Hq0]; [lia|].
      rewrite <- (Hext q Hq Hq0). apply Hdiff; auto.
    + split; [done|]. split; [|split].
      * intros p Hp Hnz. destruct (decide (p = (r0, c0))) as [->|Hne].
        -- by rewrite Hset0.
        -- rewrite Hset in * by done. by apply Hext.
      * intros p Hp Hnotin. destruct (decide (p = (r0, c0))) as [->|Hne].
        -- by rewrite Hset0.
        -- rewrite Hset by done. apply Hun; [done|].
           intros Hin. apply elem_of_cons in Hin as [?|?]; done.
      * intros p Hp Hp0'.
        assert (Hne : p ≠ (r0, c0)).
        { intros ->. rewrite Hset0 in Hp0'. lia. }
        rewrite Hset in Hp0' by done.
        destruct (Hfill p) as [Hr Hd]; [by right|done|]. split; [done|].
        intros q Hq Hqp Hunit Hcond. apply Hd; [done..|].
        destruct Hcond as [Hnz|Hbef].
        -- destruct (decide (q = (r0, c0))) as [->|Hq0].
           ++ right. by apply before_head.
           ++ left. by rewrite Hset in Hnz.
        -- right. by apply before_cons.
  - intros (num & Hnum & Hvalid & Hs9 & Hext & Hun & Hfill).
    apply elem_of_nums in Hnum.
    assert (Hs0 : at_pos s (r0, c0) = num).
    { rewrite Hext; [apply Hset0|done|]. rewrite Hset0. lia. }
    split; [done|]. split; [|split].
    + intros p Hp Hnz.
      assert (Hne : p ≠ (r0, c0)) by (intros ->; done).
      rewrite <- (Hset num p Hne). apply Hext; [done|]. by rewrite Hset.
    + intros p Hp Hnotin.
      assert (Hne : p ≠ (r0, c0)) by (intros ->; apply Hnotin; by left).
      rewrite <- (Hset num p Hne). apply Hun; [done|].
      intros Hin. apply Hnotin. by right.
    + intros p Hp Hp0'. apply elem_of_cons in Hp as [->|Hp].
      * rewrite Hs0. split; [done|]. intros q Hq Hne Hunit [Hnz|Hbef].
        -- assert (Hsq : at_pos s q = at_pos b q).
           { rewrite <- (Hset num q Hne). apply Hext; [done|]. by rewrite Hset. }
           rewrite Hsq.
           apply (proj1 (is_valid_in_board_spec b r0 c0 num H9 Hr0 Hc0) Hvalid q Hq Hunit).
        -- exfalso. eapply before_not_head; [|exact Hbef]. by apply NoDup_cons.
      * assert (Hne : p ≠ (r0, c0)) by (intros ->; done).
        destruct (Hfill p Hp) as [Hr Hd]; [by rewrite Hset|]. split; [done|].
        intros q Hq Hqp Hunit Hcond. apply Hd; [done..|].
        destruct Hcond as [Hnz|Hbef].
        -- left. rewrite Hset; [done|]. intros ->. done.
        -- apply before_cons_inv in Hbef as [[-> _]|Hbef]; [|by right].
           left. rewrite Hset0. lia.
Qed.

Lemma fills_cons_given p0 rest b s :
  at_pos b p0 ≠ 0 -> p0 ∈ all_cells ->
  fills (p0 :: rest) b s <-> fills rest b s.
Proof.
  intros Hnz Hp0. split.
  - intros (Hs9 & Hext & Hun & Hfill). split; [done|]. split; [done|]. split.
    + intros p Hp Hnotin. destruct (decide (p = p0)) as [->|Hne]; [by apply Hext|].
      apply Hun; [done|]. intros Hin. apply elem_of_cons in Hin as [?|?]; done.
    + intros p Hp Hz. destruct (Hfill p) as [Hr Hd]; [by right|done|].
      split; [done|]. intros q Hq Hqp Hunit [Hq0|Hbef]; apply Hd; auto.
      right. by apply before_cons.
  - intros (Hs9 & Hext & Hun & Hfill). split; [done|]. split; [done|]. split.
    + intros p Hp Hnotin. apply Hun; [done|]. intros Hin. apply Hnotin. by right.
    + intros p Hp Hz. apply elem_of_cons in Hp as [->|Hp]; [done|].
      destruct (Hfill p Hp Hz) as [Hr Hd]. split; [done|].
      intros q Hq Hqp Hunit [Hq0|Hbef]; [apply Hd; auto|].
      apply before_cons_inv in Hbef as [[-> _]|Hbef]; apply Hd; auto.
Qed.

Lemma completions_fills cells :
  forall b s, grid9 b -> NoDup cells -> Forall (fun p => p ∈ all_cells) cells ->
    s ∈ completions cells b <-> fills cells b s.
Proof.
  induction cells as [|[r0 c0] rest IH]; intros b s H9 Hnd Hin.
  - cbn [completions]. rewrite list_elem_of_singleton. split.
    + intros ->. split; [done|]. split; [done|]. split; [done|].
      intros p Hp. by apply elem_of_nil in Hp.
    + intros (Hs & _ & Hun & _). apply grid_ext; [done|done|].
      intros p Hp. apply Hun; [done|]. apply not_elem_of_nil.
  - pose proof Hnd as Hnd0. apply NoDup_cons in Hnd as [Hnot Hnd'].
    apply Forall_cons in Hin as [Hp0 Hin'].
    cbn [completions]. destruct (Z.eqb_spec (grid_at b r0 c0) 0) as [Hz|Hnz].
    + rewrite (fills_cons_empty r0 c0 rest b s H9 Hnd0 Hp0 Hz).
      rewrite list_elem_of_In, in_flat_map. split.
      * intros (num & Hnum & Hs). apply list_elem_of_In in Hnum.
        destruct (is_valid_in_board b r0 c0 num) eqn:Hv; [|done].
        apply list_elem_of_In in Hs. exists num. split; [done|]. split; [done|].
        apply IH; [by apply grid9_set|done..].
      * intros (num & Hnum & Hv & Hf). exists num.
        split; [by apply list_elem_of_In|]. rewrite Hv.
        apply list_elem_of_In. apply IH; [by apply grid9_set|done..].
    + rewrite (fills_cons_given (r0, c0) rest b s Hnz Hp0). by apply IH.
Qed.

Lemma fills_all_cells b s : fills all_cells b s <-> is_solution b s.
Proof.
  split.
  - intros (Hs9 & Hext & Hun & Hfill). split; [done|]. split; [done|].
    intros p Hp Hz. destruct (Hfill p Hp Hz) as [Hr Hd]. split; [done|].
    intros q Hq Hne Hunit.
    destruct (decide (at_pos b q = 0)) as [Hq0|Hq0]; [|apply Hd; auto].
    destruct (before_total all_cells q p Hq Hp Hne) as [Hb|Hb]; [apply Hd; auto|].
    destruct (Hfill q Hq Hq0) as [_ Hd']. intros Heq. symmetry in Heq. revert Heq.
    apply Hd'; [done|congruence| |by right]. by rewrite same_unit_sym.
  - intros (Hs9 & Hext & Hsol). split; [done|]. split; [done|]. split; [done|].
    intros p Hp Hz. destruct (Hsol p Hp Hz) as [Hr Hd]. split; [done|].
    intros q Hq Hne Hunit _. by apply Hd.
Qed.

(** The list [solutions b] holds exactly the grids that solve [b]. *)
Lemma solutions_spec b s : grid9 b -> s ∈ solutions b <-> is_solution b s.
Proof.
  intros H9. unfold solutions. rewrite <- fills_all_cells.
  apply completions_fills; [done|exact all_cells_NoDup|].
  by apply Forall_forall.
Qed.

Lemma NoDup_flat_map {A B} (f : A -> list B) l :
  NoDup l -> (forall x, x ∈ l -> NoDup (f x)) ->
  (forall x y z, x ∈ l -> y ∈ l -> z ∈ f x -> z ∈ f y -> x = y) ->
  NoDup (flat_map f l).
Proof.
  intros Hnd. induction Hnd as [|x l Hx Hnd IH]; intros Hf Hdis; simpl.
  - constructor.
  - apply NoDup_app. split; [apply Hf; by left|]. split.
    + intros z Hz Hz'. apply list_elem_of_In, in_flat_map in Hz' as (y & Hy & Hzy).
      apply list_elem_of_In in Hy, Hzy.
      assert (x = y) as -> by (apply (Hdis x y z); [by left|by right|done..]).
      done.
    + apply IH.
      * intros y Hy. apply Hf. by right.
      * intros y1 y2 z H1 H2. apply Hdis; by right.
Qed.

Lemma nums_NoDup : NoDup nums.
Proof. apply (bool_decide_unpack _). vm_compute. reflexivity. Qed.

(** ... and holds each of them once. *)
Lemma completions_NoDup cells b :
  grid9 b -> Forall (fun p => p ∈ all_cells) cells -> NoDup (completions cells b).
Proof.
  revert b. induction cells as [|[r0 c0] rest IH]; intros b H9 Hin; cbn [completions].
  - apply NoDup_singleton.
  - apply Forall_cons in Hin as [Hp0 Hin]. apply in_all_cells in Hp0 as [Hr Hc].
    destruct (grid_at b r0 c0 =? 0); [|by apply IH].
    apply NoDup_flat_map; [exact nums_NoDup| |].
    + intros num _. destruct (is_valid_in_board b r0 c0 num); [|constructor].
      apply IH; [by apply grid9_set|done].
    + intros n1 n2 s Hn1 Hn2 H1 H2.
      destruct (is_valid_in_board b r0 c0 n1); [|by apply elem_of_nil in H1].
      destruct (is_valid_in_board b r0 c0 n2); [|by apply elem_of_nil in H2].
      apply (completions_extend rest _ s r0 c0) in H1, H2;
        try (rewrite grid_at_set_eq by done; by apply nums_nonzero).
      rewrite grid_at_set_eq in H1, H2 by done. congruence.
Qed.

Lemma solutions_NoDup b : grid9 b -> NoDup (solutions b).
Proof.
  intros H9. apply completions_NoDup; [done|]. by apply Forall_forall.
Qed.

(** The three cases of a capped count, read on the solutions themselves. *)
Lemma capped_solutions b n :
  grid9 b -> capped n (Z.of_nat (length (solutions b))) ->
  (n = 0 <-> forall s, ~ is_solution b s)
  /\ (n = 1 <-> exists s, is_solution b s /\ forall s', is_solution b s' -> s' = s)
  /\ (2 <= n <-> exists s s', s ≠ s' /\ is_solution b s /\ is_solution b s').
Proof.
  intros H9 Hcap. pose proof (solutions_NoDup b H9) as Hnd.
  pose proof (fun s => solutions_spec b s H9) as Hspec.
  unfold capped in Hcap. destruct (solutions b) as [|s1 [|s2 l]] eqn:E;
    cbn [length] in Hcap.
  - split; [|split].
    + split; [|lia]. intros _ s Hs. apply Hspec in Hs. by apply elem_of_nil in Hs.
    + split; [lia|]. intros (s & Hs & _). apply Hspec in Hs. by apply elem_of_nil in Hs.
    + split; [lia|]. intros (s & s' & _ & Hs & _). apply Hspec in Hs.
      by apply elem_of_nil in Hs.
  - assert (H1 : is_solution b s1) by (apply Hspec; by left).
    assert (Hall : forall s, is_solution b s -> s = s1).
    { intros s Hs. apply Hspec in Hs. by apply list_elem_of_singleton in Hs. }
    split; [|split].
    + split; [lia|]. intros H. by destruct (H s1).
    + split; [|lia]. intros _. by exists s1.
    + split; [lia|]. intros (s & s' & Hne & Hs & Hs'). exfalso.
      rewrite (Hall s Hs), (Hall s' Hs') in Hne. done.
  - assert (H1 : is_solution b s1) by (apply Hspec; by left).
    assert (H2 : is_solution b s2) by (apply Hspec; right; by left).
    assert (Hne : s1 ≠ s2).
    { apply NoDup_cons in Hnd as [Hnot _]. intros ->. apply Hnot. by left. }
    split; [|split].
    + split; [lia|]. intros H. by destruct (H s1).
    + split; [lia|]. intros (s & _ & Hall). exfalso. apply Hne.
      by rewrite (Hall s1 H1), (Hall s2 H2).
    + split; [|lia]. intros _. by exists s1, s2.
Qed.

(** X20.  On every 9x9 value grid [count_solutions] returns.  It returns
    0 exactly when the grid has no solution, 1 exactly when it has one and
    only one, and 2 or more exactly when it has two different ones; what
    it returns is never negative and never exceeds the number of
    solutions.  A solution fills every empty cell with a number of 1..9
    that no other cell of its row, column or 3x3 box holds; the diagonals
    play no part. *)
Theorem count_solutions_capped_count (b : Grid) :
  grid9 b ->
  exists n,
    count_solutions 82 b = Some n
    /\ (n = 0 <-> forall s, ~ is_solution b s)
    /\ (n = 1 <-> exists s, is_solution b s /\ forall s', is_solution b s' -> s' = s)
    /\ (2 <= n <-> exists s s', s ≠ s' /\ is_solution b s /\ is_solution b s')
    /\ 0 <= n <= Z.of_nat (length (solutions b)).
Proof.
  intros H9. destruct (count_solutions_returns b H9) as (n & Hn & Hcap).
  destruct (capped_solutions b n H9 Hcap) as (H0 & H1 & H2).
  exists n. split; [exact Hn|]. split; [exact H0|]. split; [exact H1|].
  split; [exact H2|]. unfold capped in Hcap. lia.
Qed.

Lemma count_solutions_capped_count_witness :
  exists n,
    count_solutions 82 carving_grid = Some n
    /\ (n = 0 <-> forall s, ~ is_solution carving_grid s)
    /\ (n = 1 <-> exists s, is_solution carving_grid s
                            /\ forall s', is_solution carving_grid s' -> s' = s)
    /\ (2 <= n <-> exists s s', s ≠ s' /\ is_solution carving_grid s
                                /\ is_solution carving_grid s')
    /\ 0 <= n <= Z.of_nat (length (solutions carving_grid)).
Proof. apply (count_solutions_capped_count carving_grid). exact carving_grid9. Defined.

(* ===================================================================== *)
(** * Further properties of the engine *)
(* ===================================================================== *)

(** ** The puzzle of a new game *)

Lemma grid_at_board_copy b r c :
  (r < 9)%nat -> (c < 9)%nat -> grid_at (board_copy b) r c = value (cell_at b r c).
Proof.
  intros Hr Hc.
  do 9 (destruct r as [|r]; [do 9 (destruct c as [|c]; [reflexivity|]); lia|]).
  lia.
Qed.

Lemma board_copy_ext b b' :
  (forall r c, value (cell_at b' r c) = value (cell_at b r c)) ->
  board_copy b' = board_copy b.
Proof.
  intros H. unfold board_copy. apply map_ext. intros r. apply map_ext. intros c.
  apply H.
Qed.

Lemma same_pos_true p q : same_pos p q = true <-> p = q.
Proof.
  destruct p as [r c], q as [r' c']. unfold same_pos. cbn [fst snd].
  rewrite andb_true_iff, !Nat.eqb_eq. split; [by intros [-> ->]|by intros [= -> ->]].
Qed.

(** A grid that obeys the rules solves every puzzle whose nonzero cells
    it contains. *)
Lemma grid_rules_ok_solution s b :
  grid9 s -> grid_rules_ok s = true ->
  (forall p, p ∈ all_cells -> at_pos b p ≠ 0 -> at_pos s p = at_pos b p) ->
  is_solution b s.
Proof.
  intros H9 Hok Hext. split; [done|]. split; [done|].
  intros p Hp _. unfold grid_rules_ok in Hok.
  rewrite forallb_forall in Hok. specialize (Hok p (proj1 (list_elem_of_In _ _) Hp)).
  apply andb_prop in Hok as [Hr Hd]. apply andb_prop in Hr as [H1 H2].
  split; [lia|]. intros q Hq Hne Hunit.
  rewrite forallb_forall in Hd. specialize (Hd q (proj1 (list_elem_of_In _ _) Hq)).
  rewrite Hunit in Hd. cbn [negb orb] in Hd.
  apply orb_prop in Hd as [Hd|Hd].
  - apply same_pos_true in Hd. congruence.
  - apply negb_true_iff, Z.eqb_neq in Hd. done.
Qed.

Lemma solved_grid9 : grid9 solved_grid.
Proof. split; [reflexivity|]. repeat constructor. Qed.

Lemma solved_grid_rules_ok : grid_rules_ok solved_grid = true.
Proof. vm_compute. reflexivity. Qed.

Lemma solved_board_values r c :
  value (cell_at solved_board r c) = grid_at solved_grid r c.
Proof.
  do 9 (destruct r as [|r]; [do 9 (destruct c as [|c]; [reflexivity|]);
                             reflexivity|]).
  reflexivity.
Qed.

Lemma values_within_set_zero row col g s :
  values_within (board g) s -> values_within (board (set_value row col 0 g)) s.
Proof.
  intros H r c. unfold set_value. cbn [board with_board].
  destruct (decide ((r, c) = (row, col))) as [[= -> ->]|Hne].
  - left. unfold cell_at. rewrite lookup_cell_update_eq.
    by destruct (lookup_cell (board g) row col).
  - rewrite cell_at_update_ne by done. apply H.
Qed.

Lemma restore_values row col g r c :
  value (cell_at (board (set_value row col (value (cell_at (board g) row col))
                           (set_value row col 0 g))) r c)
  = value (cell_at (board g) r c).
Proof.
  unfold set_value. cbn [board with_board].
  destruct (decide ((r, c) = (row, col))) as [[= -> ->]|Hne].
  - unfold cell_at. rewrite !lookup_cell_update_eq.
    by destruct (lookup_cell (board g) row col).
  - by rewrite !cell_at_update_ne.
Qed.

(** Carving keeps what it does not remove, and on the difficulties that
    check uniqueness it keeps the count of solutions at 1. *)
Lemma carve_keeps cells removed g g' s :
  carve cells removed g = Some g' ->
  values_within (board g) s ->
  values_within (board g') s
  /\ (is_hard (difficulty g) = false ->
      count_solutions 82 (board_copy (board g)) = Some 1 ->
      count_solutions 82 (board_copy (board g')) = Some 1).
Proof.
  revert removed g. induction cells as [|[row col] cells IH]; intros removed g;
    cbn [carve]; cbv zeta.
  - intros H Hw. apply (inj Some) in H. subst. split; [exact Hw|]. by intros _ H1.
  - destruct (removed >=? _).
    { intros H Hw. apply (inj Some) in H. subst. split; [exact Hw|]. by intros _ H1. }
    destruct (is_hard (difficulty g)) eqn:Hh.
    + intros H Hw. apply IH in H as [H1 _]; [|by apply values_within_set_zero].
      split; [exact H1|]. discriminate.
    + destruct (count_solutions 82 (board_copy (board (set_value row col 0 g))))
        as [n|] eqn:En; [|intros H; discriminate H].
      destruct (Z.eqb_spec n 1) as [->|Hn]; cbn [negb].
      * intros H Hw. apply IH in H as [H1 H2]; [|by apply values_within_set_zero].
        split; [exact H1|]. intros _ _. apply H2; [exact Hh|exact En].
      * intros H Hw. apply IH in H as [H1 H2].
        -- split; [exact H1|]. intros _ Hone. apply H2; [exact Hh|].
           rewrite (board_copy_ext (board g)); [done|]. apply restore_values.
        -- intros r c. rewrite restore_values. apply Hw.
Qed.

(** A new game is the carved and locked puzzle: the quantum selection
    finds no candidate, since every nonzero cell is locked by then. *)
Lemma new_game_shape d t :
  exists g1,
    carve (Random.shuffle all_cells t).1 0 (with_board solved_board (init_game d))
      = Some g1
    /\ new_game d t
       = Some (with_board (update_cells lock_given all_cells (board g1)) g1,
               (Random.shuffle all_cells t).2).
Proof.
  unfold new_game, setup_game.
  rewrite (generate_solved_board_eq (init_game d) (init_game_board9 d) eq_refl).
  destruct (create_puzzle_total (with_board solved_board (init_game d)) t)
    as (g2 & t2 & E & _ & Hq).
  rewrite E. rewrite (create_quantum_cells_nothing _ g2 t2 (no_quantum_candidates _ Hq)).
  unfold create_puzzle in E.
  destruct (Random.shuffle all_cells t) as [shuffled t1]. cbn [fst snd].
  destruct (carve shuffled 0 _) as [g1|] eqn:Ec; [|discriminate E].
  exists g1. split; [reflexivity|]. apply some_pair_inj in E as [<- <-]. reflexivity.
Qed.

Lemma full_board_one_solution :
  count_solutions 82 (board_copy solved_board) = Some 1.
Proof. vm_compute. reflexivity. Qed.

Lemma values_within_solution b :
  values_within b solved_grid -> is_solution (board_copy b) solved_grid.
Proof.
  intros Hw. apply grid_rules_ok_solution;
    [exact solved_grid9|exact solved_grid_rules_ok|].
  intros [r c] Hin Hne. apply in_all_cells in Hin as [Hr Hc].
  unfold at_pos in *. cbn [fst snd] in *.
  rewrite grid_at_board_copy in * by done.
  destruct (Hw r c) as [H0|H1]; [done|by symmetry].
Qed.

(** What carving leaves on the difficulties that check uniqueness. *)
Lemma new_game_carved_unique d t g t' :
  new_game d t = Some (g, t') -> is_hard d = false ->
  count_solutions 82 (board_copy (board g)) = Some 1
  /\ values_within (board g) solved_grid.
Proof.
  intros Hnew Hd. destruct (new_game_shape d t) as (g1 & Ec & E).
  rewrite E in Hnew. apply some_pair_inj in Hnew as [Hg _]. subst g.
  cbn [board with_board].
  apply carve_keeps with (s := solved_grid) in Ec as [Hw Hone];
    [|intros r c; right; apply solved_board_values].
  assert (Hval : forall r c,
            value (cell_at (update_cells lock_given all_cells (board g1)) r c)
            = value (cell_at (board g1) r c)).
  { intros r c. apply update_cells_value, lock_given_value. }
  rewrite (board_copy_ext _ _ Hval). split.
  - exact (Hone Hd full_board_one_solution).
  - intros r c. rewrite Hval. apply Hw.
Qed.

(** A grid on which the counter returns 1 has at most one solution. *)
Lemma one_solution_unique b s s' :
  grid9 b -> count_solutions 82 b = Some 1 ->
  is_solution b s -> is_solution b s' -> s = s'.
Proof.
  intros H9 Hone Hs Hs'.
  destruct (count_solutions_returns b H9) as (n & En & Hcap).
  rewrite Hone in En. apply (inj Some) in En. subst n.
  apply capped_solutions in Hcap as (_ & [Huniq _] & _); [|done].
  destruct (Huniq eq_refl) as (s0 & _ & Hall).
  rewrite (Hall s Hs). symmetry. by apply Hall.
Qed.

(** X1.  On the difficulties that check uniqueness while carving (easy and
    medium), the puzzle of a new game has exactly one solution under the
    row, column and box rules, whatever the random draws: the counter
    returns 1 on it, and the grid the generator built is that solution. *)
Theorem new_game_unique_solution d t g t' :
  new_game d t = Some (g, t') -> is_hard d = false ->
  count_solutions 82 (board_copy (board g)) = Some 1
  /\ is_solution (board_copy (board g)) solved_grid
  /\ forall s, is_solution (board_copy (board g)) s -> s = solved_grid.
Proof.
  intros Hnew Hd.
  destruct (new_game_carved_unique d t g t' Hnew Hd) as [Hone Hw].
  pose proof (values_within_solution _ Hw) as Hsol.
  split; [exact Hone|]. split; [exact Hsol|].
  intros s Hs.
  exact (one_solution_unique _ s solved_grid (board_copy_grid9 _) Hone Hs Hsol).
Qed.

Lemma new_game_unique_solution_witness :
  count_solutions 82 (board_copy (board medium_start)) = Some 1
  /\ is_solution (board_copy (board medium_start)) solved_grid
  /\ forall s, is_solution (board_copy (board medium_start)) s -> s = solved_grid.
Proof.
  apply (new_game_unique_solution medium [] medium_start []).
  - exact new_game_medium_nil.
  - reflexivity.
Defined.

Lemma count_nonzero_solved_board : count_nonzero solved_board = 81%nat.
Proof. vm_compute. reflexivity. Qed.

Lemma lock_given_locked x :
  locked x = false -> locked (lock_given x) = negb (value (lock_given x) =? 0).
Proof.
  intros Hl. unfold lock_given. destruct (value x =? 0) eqn:E; cbn [negb].
  - by rewrite Hl, E.
  - cbn [with_locked locked value]. by rewrite E.
Qed.

Lemma update_cells_lookup_notin f cells b r c :
  (r, c) ∉ cells ->
  lookup_cell (update_cells f cells b) r c = lookup_cell b r c.
Proof.
  unfold update_cells. revert b.
  induction cells as [|[r0 c0] cells IH]; intros b Hnin; cbn [foldl]; [done|].
  apply not_elem_of_cons in Hnin as [Hne Hnin].
  rewrite IH by done. by apply lookup_cell_update_ne.
Qed.

Lemma update_cells_lookup f cells b r c :
  NoDup cells -> (r, c) ∈ cells ->
  lookup_cell (update_cells f cells b) r c = f <$> lookup_cell b r c.
Proof.
  intros Hnd. revert b.
  induction Hnd as [|[r0 c0] cells Hx Hnd IH]; intros b Hin.
  - by apply elem_of_nil in Hin.
  - change (update_cells f ((r0, c0) :: cells) b)
      with (update_cells f cells (update_cell f r0 c0 b)).
    destruct (decide ((r, c) = (r0, c0))) as [[= -> ->]|Hne].
    + rewrite update_cells_lookup_notin by done. apply lookup_cell_update_eq.
    + apply elem_of_cons in Hin as [Hin|Hin]; [done|].
      rewrite IH by done. by rewrite lookup_cell_update_ne.
Qed.

(** X2.  Creating a game returns for every difficulty and every sequence
    of random draws.  In the game it returns no cell is in superposition
    and no entanglement group exists (the quantum selection looks for
    unlocked nonzero cells after every nonzero cell was locked); a cell is
    locked exactly when it holds a number; every number is the one of the
    generated grid; and at least 81 minus the removal target of the
    difficulty are left. *)
Theorem new_game_givens_locked d t :
  exists g t',
    new_game d t = Some (g, t')
    /\ entanglement_groups g = ∅
    /\ count_quantum (board g) = 0%nat
    /\ (forall r c, (r < 9)%nat -> (c < 9)%nat ->
          locked (cell_at (board g) r c)
          = negb (value (cell_at (board g) r c) =? 0))
    /\ values_within (board g) solved_grid
    /\ 81 - cells_to_remove d <= Z.of_nat (count_nonzero (board g)) <= 81.
Proof.
  destruct (new_game_shape d t) as (g1 & Ec & E).
  eexists _, _. split; [exact E|]. cbn [board with_board entanglement_groups].
  pose proof (carve_spec _ _ _ _ Ec) as [Honly Hplain].
  specialize (Hplain solved_board_plain).
  pose proof (carve_keeps _ _ _ _ solved_grid Ec) as [Hw _];
    [intros r c; right; apply solved_board_values|].
  destruct (carve_total (Random.shuffle all_cells t).1 0
              (with_board solved_board (init_game d))) as (g1' & Ec' & Hn).
  { cbn [difficulty with_board init_game]. destruct d; simpl; lia. }
  rewrite Ec in Ec'. apply (inj Some) in Ec'. subst g1'.
  cbn [board with_board difficulty init_game] in Hn.
  rewrite count_nonzero_solved_board in Hn.
  assert (Hval : forall r c,
            value (cell_at (update_cells lock_given all_cells (board g1)) r c)
            = value (cell_at (board g1) r c)).
  { intros r c. apply update_cells_value, lock_given_value. }
  split; [|split; [|split; [|split]]].
  - rewrite Honly. reflexivity.
  - apply count_quantum_collapsed. apply update_cells_all.
    + eapply board_all_impl; [exact Hplain|]. by intros x [? _].
    + intros x Hx. unfold lock_given. by destruct (negb _).
  - intros r c Hr Hc. unfold cell_at.
    rewrite (update_cells_lookup lock_given all_cells (board g1) r c
               all_cells_NoDup (proj2 (in_all_cells r c) (conj Hr Hc))).
    destruct (lookup_cell (board g1) r c) as [x|] eqn:Ex; [|reflexivity].
    cbn [fmap option_fmap option_map default]. apply lock_given_locked.
    by destruct (Hplain r c x Ex) as (_ & ? & _).
  - intros r c. rewrite Hval. apply Hw.
  - rewrite (count_nonzero_ext (board g1)) by exact Hval. split; [lia|].
    unfold count_nonzero, cells_where.
    pose proof (filter_shorter
      (fun '(r, c) => negb (value (cell_at (board g1) r c) =? 0)) all_cells) as Hle.
    change (length all_cells) with 81%nat in Hle. lia.
Qed.

(** ** The shuffle is a permutation *)

Lemma insert_head_Permutation {A} (l : list A) j (x b : A) :
  l !! j = Some b -> b :: <[j := x]> l ≡ₚ x :: l.
Proof.
  revert j. induction l as [|y l IH]; intros [|j] H; simplify_eq/=.
  - apply Permutation_swap.
  - etrans; [apply Permutation_swap|]. rewrite (IH j H). apply Permutation_swap.
Qed.

Lemma swap_Permutation {A} i j (l : list A) : Random.swap i j l ≡ₚ l.
Proof.
  unfold Random.swap.
  destruct (l !! i) as [a|] eqn:Ea; [|done].
  destruct (l !! j) as [b|] eqn:Eb; [|done].
  revert i j Ea Eb. induction l as [|y l IH]; intros [|i] [|j] Ea Eb;
    simplify_eq/=; [done| | |].
  - by apply insert_head_Permutation.
  - by apply insert_head_Permutation.
  - f_equiv. by apply IH.
Qed.

Lemma shuffle_from_Permutation {A} n (l : list A) t :
  (Random.shuffle_from n l t).1 ≡ₚ l.
Proof.
  revert l t. induction n as [|n IH]; intros l t; simpl; [done|].
  destruct (Random.randbelow _ t) as [j t']. rewrite IH. apply swap_Permutation.
Qed.

Lemma shuffle_Permutation {A} (l : list A) t : (Random.shuffle l t).1 ≡ₚ l.
Proof. apply shuffle_from_Permutation. Qed.

Lemma filter_length_Permutation {A} (p : A -> bool) l l' :
  l ≡ₚ l' -> length (List.filter p l) = length (List.filter p l').
Proof.
  induction 1 as [|x l l' _ IH|x y l|l l' l'' _ IH1 _ IH2]; simpl.
  - done.
  - destruct (p x); simpl; lia.
  - destruct (p x), (p y); simpl; lia.
  - lia.
Qed.

(** ** Carving without the uniqueness check *)

Lemma value_set_zero row col g r c :
  value (cell_at (board (set_value row col 0 g)) r c)
  = if decide ((r, c) = (row, col)) then 0 else value (cell_at (board g) r c).
Proof.
  unfold set_value. cbn [board with_board].
  destruct (decide ((r, c) = (row, col))) as [[= -> ->]|Hne].
  - unfold cell_at. rewrite lookup_cell_update_eq.
    by destruct (lookup_cell (board g) row col).
  - by rewrite cell_at_update_ne.
Qed.

Lemma carve_hard cells removed g :
  is_hard (difficulty g) = true -> 0 <= removed <= 60 ->
  exists g',
    carve cells removed g = Some g'
    /\ forall r c,
         value (cell_at (board g') r c)
         = if decide ((r, c) ∈ take (Z.to_nat (60 - removed)) cells) then 0
           else value (cell_at (board g) r c).
Proof.
  revert removed g. induction cells as [|[row col] cells IH]; intros removed g Hh Hr;
    cbn [carve]; cbv zeta.
  - exists g. split; [done|]. intros r c. rewrite take_nil.
    destruct (decide _) as [Hin|_]; [by apply elem_of_nil in Hin|done].
  - assert (Hd : cells_to_remove (difficulty g) = 60)
      by (destruct (difficulty g); [done|done|reflexivity]).
    rewrite Hd, Hh.
    destruct (Z.geb_spec removed 60) as [Hge|Hlt].
    + exists g. split; [done|]. intros r c.
      replace (60 - removed) with 0 by lia. cbn [Z.to_nat take].
      destruct (decide _) as [Hin|_]; [by apply elem_of_nil in Hin|done].
    + destruct (IH (removed + 1) (set_value row col 0 g)) as (g' & E & Hv);
        [exact Hh|lia|].
      exists g'. split; [exact E|]. intros r c. rewrite Hv.
      replace (Z.to_nat (60 - removed)) with (S (Z.to_nat (60 - (removed + 1))))
        by lia.
      cbn [take]. rewrite value_set_zero.
      repeat destruct (decide _) as [?|?]; try done; exfalso;
        try match goal with
            | H : _ ∈ _ :: _ |- _ => apply elem_of_cons in H as [?|?]
            end;
        try match goal with
            | H : _ ∉ _ :: _ |- _ => apply not_elem_of_cons in H as [? ?]
            end;
        done.
Qed.

Lemma solved_board_nonzero r c :
  (r < 9)%nat -> (c < 9)%nat -> value (cell_at solved_board r c) ≠ 0.
Proof.
  intros Hr Hc.
  do 9 (destruct r as [|r]; [do 9 (destruct c as [|c]; [done|]); lia|]).
  lia.
Qed.

Lemma filter_all {A} (p : A -> bool) l :
  (forall x, x ∈ l -> p x = true) -> List.filter p l = l.
Proof.
  induction l as [|x l IH]; intros H; simpl; [done|].
  rewrite (H x) by left. f_equal. apply IH. intros y Hy. apply H. by right.
Qed.

(** X3.  On hard, where carving does not check uniqueness, a new game has
    exactly 21 numbers: the first 60 cells of the shuffled positions are
    emptied, every other cell keeps the number of the generated grid. *)
Theorem hard_game_21_givens t :
  exists g t',
    new_game hard t = Some (g, t')
    /\ count_nonzero (board g) = 21%nat
    /\ forall r c, (r < 9)%nat -> (c < 9)%nat ->
         value (cell_at (board g) r c)
         = if decide ((r, c) ∈ take 60 (Random.shuffle all_cells t).1) then 0
           else grid_at solved_grid r c.
Proof.
  destruct (new_game_shape hard t) as (g1 & Ec & E).
  eexists _, _. split; [exact E|]. cbn [board with_board].
  destruct (carve_hard (Random.shuffle all_cells t).1 0
              (with_board solved_board (init_game hard))) as (g1' & Ec' & Hv);
    [reflexivity|lia|].
  rewrite Ec in Ec'. apply (inj Some) in Ec'. subst g1'.
  change (Z.to_nat (60 - 0)) with 60%nat in Hv.
  cbn [board with_board] in Hv.
  pose proof (shuffle_Permutation all_cells t) as Hperm.
  set (sh := (Random.shuffle all_cells t).1) in *.
  assert (Hval : forall r c,
            value (cell_at (update_cells lock_given all_cells (board g1)) r c)
            = if decide ((r, c) ∈ take 60 sh) then 0
              else value (cell_at solved_board r c)).
  { intros r c. rewrite <- Hv. apply update_cells_value, lock_given_value. }
  split.
  - unfold count_nonzero, cells_where.
    rewrite <- (filter_length_Permutation _ _ _ Hperm).
    rewrite <- (take_drop 60 sh) at 1. rewrite List.filter_app, length_app.
    assert (Hnd : NoDup (take 60 sh ++ drop 60 sh)).
    { rewrite take_drop, Hperm. exact all_cells_NoDup. }
    apply NoDup_app in Hnd as (_ & Hdis & _).
    rewrite filter_nil, filter_all.
    + rewrite length_drop, Hperm. reflexivity.
    + intros [r c] Hin. rewrite Hval.
      destruct (decide _) as [Hin'|_]; [by destruct (Hdis _ Hin')|].
      apply negb_true_iff, Z.eqb_neq.
      assert ((r, c) ∈ all_cells) as Hall.
      { rewrite <- Hperm. by apply (subseteq_drop 60 sh). }
      apply in_all_cells in Hall as [Hr Hc]. by apply solved_board_nonzero.
    + intros [r c] Hin. rewrite Hval. by rewrite decide_True.
  - intros r c Hr Hc. rewrite Hval. destruct (decide _); [done|].
    apply solved_board_values.
Qed.

(** ** The constraint checker *)

Lemma box_start_lt r r' :
  (r < 9)%nat -> (r / 3 * 3 <= r' < r / 3 * 3 + 3)%nat -> (r' < 9)%nat.
Proof.
  intros Hr. do 9 (destruct r as [|r]; [vm_compute; lia|]). lia.
Qed.

Lemma range9_spec i : i ∈ range9 <-> (i < 9)%nat.
Proof. unfold range9. rewrite elem_of_seq_iff. lia. Qed.

Lemma peer_spec row col r c :
  (row < 9)%nat -> (col < 9)%nat -> (r < 9)%nat -> (c < 9)%nat ->
  peer (row, col) (r, c) = true <->
  (r, c) ≠ (row, col)
  /\ (r = row \/ c = col
      \/ ((row / 3 * 3 <= r < row / 3 * 3 + 3)%nat
          /\ (col / 3 * 3 <= c < col / 3 * 3 + 3)%nat)
      \/ (row = col /\ r = c)
      \/ ((row + col = 8)%nat /\ (r + c = 8)%nat)).
Proof.
  intros Hrow Hcol Hr Hc. unfold peer, same_unit. cbn [fst snd].
  rewrite andb_true_iff, negb_true_iff, !orb_true_iff, !andb_true_iff, !Nat.eqb_eq.
  rewrite <- (same_box row r Hrow Hr), <- (same_box col c Hcol Hc).
  rewrite <- not_true_iff_false, same_pos_true.
  split.
  - intros [Hne H]. split; [congruence|]. intuition (subst; auto).
  - intros [Hne H]. split; [congruence|]. intuition (subst; auto).
Qed.

(** The constraint checker against the rules, stated on positions. *)
Lemma is_valid_move_rules g row col num check_quantum :
  (row < 9)%nat -> (col < 9)%nat ->
  is_valid_move g row col num check_quantum = true <->
  using_logic_move g = true
  \/ forall q, q ∈ all_cells -> peer (row, col) q = true ->
       conflicts check_quantum num (cell_at (board g) q.1 q.2) = false.
Proof.
  intros Hrow Hcol. unfold is_valid_move.
  destruct (using_logic_move g); [by split; [left|]|].
  set (hit := fun r c => conflicts check_quantum num (cell_at (board g) r c)).
  cbv zeta. split.
  - destruct (existsb _ range9) eqn:H1; [done|].
    destruct (existsb _ range9) eqn:H2 in |- *; [done|].
    destruct (existsb _ (seq (row / 3 * 3) 3)) eqn:H3; [done|].
    destruct (_ && _) eqn:H4 in |- *; [done|].
    destruct (_ && _) eqn:H5 in |- *; [done|]. intros _. right.
    intros [r c] Hin Hp. cbn [fst snd]. apply in_all_cells in Hin as [Hr Hc].
    apply peer_spec in Hp as [Hne Hp]; [|done..].
    destruct Hp as [->|[->|[[Hbr Hbc]|[[-> ->]|[Hs Hs']]]]].
    + rewrite existsb_false in H1. specialize (H1 c (proj2 (range9_spec c) Hc)).
      apply andb_false_iff in H1 as [H1|H1]; [|exact H1].
      apply negb_false_iff, Nat.eqb_eq in H1. congruence.
    + rewrite existsb_false in H2. specialize (H2 r (proj2 (range9_spec r) Hr)).
      apply andb_false_iff in H2 as [H2|H2]; [|exact H2].
      apply negb_false_iff, Nat.eqb_eq in H2. congruence.
    + rewrite existsb_false in H3.
      specialize (H3 r (proj2 (elem_of_seq_iff _ _ _) Hbr)).
      rewrite existsb_false in H3.
      specialize (H3 c (proj2 (elem_of_seq_iff _ _ _) Hbc)).
      apply andb_false_iff in H3 as [H3|H3]; [|exact H3].
      apply orb_false_iff in H3 as [Ha Hb].
      apply negb_false_iff, Nat.eqb_eq in Ha, Hb. congruence.
    + rewrite Nat.eqb_refl in H4. cbn [andb] in H4. rewrite existsb_false in H4.
      specialize (H4 c (proj2 (range9_spec c) Hc)).
      apply andb_false_iff in H4 as [H4|H4]; [|exact H4].
      apply negb_false_iff, Nat.eqb_eq in H4. congruence.
    + apply Nat.eqb_eq in Hs. rewrite Hs in H5. cbn [andb] in H5.
      rewrite existsb_false in H5.
      specialize (H5 r (proj2 (range9_spec r) Hr)).
      replace (8 - r)%nat with c in H5 by lia.
      apply andb_false_iff in H5 as [H5|H5]; [|exact H5].
      apply negb_false_iff, Nat.eqb_eq in H5. apply Nat.eqb_eq in Hs.
      exfalso. apply Hne. f_equal; lia.
  - intros [Hflag|H]; [done|].
    assert (Hhit : forall r c, (r < 9)%nat -> (c < 9)%nat ->
              peer (row, col) (r, c) = true -> hit r c = false).
    { intros r c Hr Hc Hp. apply (H (r, c)); [by apply in_all_cells|done]. }
    assert (H1 : existsb (fun c => negb (c =? col)%nat && hit row c) range9 = false).
    { apply existsb_false. intros c Hc%range9_spec.
      destruct (Nat.eqb_spec c col) as [->|Hne]; [done|]. cbn [negb andb].
      apply Hhit; [done..|]. apply peer_spec; [done..|].
      split; [congruence|by left]. }
    assert (H2 : existsb (fun r => negb (r =? row)%nat && hit r col) range9 = false).
    { apply existsb_false. intros r Hr%range9_spec.
      destruct (Nat.eqb_spec r row) as [->|Hne]; [done|]. cbn [negb andb].
      apply Hhit; [done..|]. apply peer_spec; [done..|].
      split; [congruence|by right; left]. }
    assert (H3 : existsb (fun r =>
                   existsb (fun c =>
                     (negb (r =? row)%nat || negb (c =? col)%nat) && hit r c)
                     (seq (col / 3 * 3) 3)) (seq (row / 3 * 3) 3) = false).
    { apply existsb_false. intros r Hr%elem_of_seq_iff.
      apply existsb_false. intros c Hc%elem_of_seq_iff.
      destruct (negb (r =? row)%nat || negb (c =? col)%nat) eqn:Hne; [|done].
      cbn [andb].
      pose proof (box_start_lt row r Hrow Hr). pose proof (box_start_lt col c Hcol Hc).
      apply Hhit; [done..|]. apply peer_spec; [done..|]. split.
      - intros [= -> ->]. by rewrite !Nat.eqb_refl in Hne.
      - right; right; left. done. }
    assert (H4 : (row =? col)%nat
                 && existsb (fun i => negb (i =? row)%nat && hit i i) range9 = false).
    { destruct (Nat.eqb_spec row col) as [Heq|_]; [|done]. cbn [andb].
      apply existsb_false. intros i Hi%range9_spec.
      destruct (Nat.eqb_spec i row) as [->|Hne]; [done|]. cbn [negb andb].
      apply Hhit; [done..|]. apply peer_spec; [done..|].
      split; [congruence|]. right; right; right; left. done. }
    assert (H5 : (row + col =? 8)%nat
                 && existsb (fun i => negb (i =? row)%nat && hit i (8 - i)%nat) range9
                 = false).
    { destruct (Nat.eqb_spec (row + col) 8) as [Heq|_]; [|done]. cbn [andb].
      apply existsb_false. intros i Hi%range9_spec.
      destruct (Nat.eqb_spec i row) as [->|Hne]; [done|]. cbn [negb andb].
      apply Hhit; [done|lia|]. apply peer_spec; [done|done|done|lia|].
      split; [congruence|]. right; right; right; right. lia. }
    subst hit. cbv beta in H1, H2, H3, H4, H5.
    by rewrite H1, H2, H3, H4, H5.
Qed.

(** X4.  [is_valid_move] accepts a number at a position exactly when no
    other cell of the row, the column, the box, or of a diagonal through
    the position, conflicts with it: holds it as a resolved value or, when
    candidates are checked, is in superposition with the number among its
    candidates.  While a logic move is in progress it accepts everything. *)
Theorem is_valid_move_spec g row col num check_quantum :
  (row < 9)%nat -> (col < 9)%nat ->
  is_valid_move g row col num check_quantum = true <->
  using_logic_move g = true
  \/ forall q, q ∈ all_cells -> peer (row, col) q = true ->
       conflicts check_quantum num (cell_at (board g) q.1 q.2) = false.
Proof. apply is_valid_move_rules. Qed.


Lemma is_valid_move_spec_witness :
  is_valid_move medium_start 0 1 2 true = true <->
  using_logic_move medium_start = true
  \/ forall q, q ∈ all_cells -> peer (0, 1)%nat q = true ->
       conflicts true 2 (cell_at (board medium_start) q.1 q.2) = false.
Proof. apply (is_valid_move_spec medium_start 0 1 2 true); lia. Defined.

(** ** The full-board check *)

Lemma set_add_length_le acc l :
  (length acc <= length (foldl set_add acc l) <= length acc + length l)%nat.
Proof.
  revert acc. induction l as [|x l IH]; intros acc; cbn [foldl length]; [lia|].
  specialize (IH (set_add acc x)). unfold set_add in *.
  destruct (mem x acc); cbn [length] in *; lia.
Qed.

Lemma mem_true x l : mem x l = true <-> x ∈ l.
Proof.
  unfold mem. rewrite existsb_exists. split.
  - intros (y & Hy & Heq). apply Z.eqb_eq in Heq. subst. by apply list_elem_of_In.
  - intros H. exists x. split; [by apply list_elem_of_In|apply Z.eqb_refl].
Qed.

Lemma set_add_length acc l :
  length (foldl set_add acc l) = (length acc + length l)%nat
  <-> NoDup l /\ forall x, x ∈ l -> x ∉ acc.
Proof.
  revert acc. induction l as [|x l IH]; intros acc; cbn [foldl length].
  - split; [|lia]. intros _. split; [constructor|]. intros x Hx.
    by apply elem_of_nil in Hx.
  - pose proof (set_add_length_le (set_add acc x) l) as Hle.
    unfold set_add in *. destruct (mem x acc) eqn:Hm.
    + split; [lia|]. intros [_ H]. exfalso. apply (H x); [left|by apply mem_true].
    + assert (Hx : x ∉ acc) by (rewrite <- mem_true; congruence).
      cbn [length] in *. replace (length acc + S (length l))%nat
        with (S (length acc) + length l)%nat by lia.
      rewrite IH, NoDup_cons. split.
      * intros [Hnd H]. split; [split; [|done]|].
        -- intros Hin. apply (H x Hin). left.
        -- intros y [->|Hy]%elem_of_cons; [done|]. intros Hacc.
           apply (H y Hy). by right.
      * intros [[Hnx Hnd] H]. split; [done|].
        intros y Hy [->|Hacc]%elem_of_cons; [done|]. apply (H y); [by right|done].
Qed.

Lemma distinct_NoDup l : length l = 9%nat -> (distinct l =? 9)%nat = true <-> NoDup l.
Proof.
  intros Hl. rewrite Nat.eqb_eq. unfold distinct.
  pose proof (set_add_length [] l) as H. cbn [length Nat.add] in H.
  rewrite Hl in H. rewrite H. split; [by intros [? _]|].
  intros Hnd. split; [done|]. intros x _ Hx. by apply elem_of_nil in Hx.
Qed.

Lemma forallb_range9 (f : nat -> bool) :
  forallb f range9 = true <-> forall i, (i < 9)%nat -> f i = true.
Proof.
  rewrite forallb_forall. split.
  - intros H i Hi. apply H, list_elem_of_In, range9_spec, Hi.
  - intros H i Hi. apply H, range9_spec, list_elem_of_In, Hi.
Qed.

Lemma forallb_elem_of {A} (f : A -> bool) l :
  forallb f l = true <-> forall x, x ∈ l -> f x = true.
Proof.
  rewrite forallb_forall. split; intros H x Hx; apply H; by apply list_elem_of_In.
Qed.

Lemma filled_spec (x : QuantumCell) :
  negb (negb (collapsed x) || (value x =? 0)) = true
  <-> collapsed x = true /\ value x ≠ 0.
Proof.
  rewrite negb_true_iff, orb_false_iff, negb_false_iff, Z.eqb_neq. done.
Qed.

Lemma elem_of_units u :
  u ∈ units <->
  (exists r, (r < 9)%nat /\ u = map (fun c => (r, c)) range9)
  \/ (exists c, (c < 9)%nat /\ u = map (fun r => (r, c)) range9)
  \/ (exists box_row box_col,
        box_row ∈ [0; 3; 6]%nat /\ box_col ∈ [0; 3; 6]%nat
        /\ u = box_cells box_row box_col)
  \/ u = map (fun i => (i, i)) range9
  \/ u = map (fun i => (i, 8 - i)%nat) range9.
Proof.
  unfold units, unit_rows, unit_cols, unit_boxes, unit_diagonals.
  rewrite !elem_of_app, !list_elem_of_In, !in_map_iff, in_flat_map.
  setoid_rewrite in_map_iff. setoid_rewrite <- list_elem_of_In.
  setoid_rewrite range9_spec. rewrite !elem_of_cons, elem_of_nil.
  split.
  - intros [(r & <- & Hr)|[(c & <- & Hc)|[(br & Hbr & bc & <- & Hbc)|[->|[->|Hf]]]]];
      [eauto 10..|done].
  - intros [(r & Hr & ->)|[(c & Hc & ->)|[(br & bc & Hbr & Hbc & ->)|[-> | ->]]]];
      eauto 10.
Qed.

(** The full-board check against the units. *)
Lemma is_board_solved_units g :
  is_board_solved g = true <->
  full g /\ forall u, u ∈ units -> NoDup (values_at g u).
Proof.
  unfold is_board_solved. cbv zeta. split.
  - intros H.
    apply andb_prop in H as [H Hanti]. apply andb_prop in H as [H Hdiag].
    apply andb_prop in H as [H Hboxes]. apply andb_prop in H as [Hrows Hcols].
    apply distinct_NoDup in Hanti; [|reflexivity].
    apply distinct_NoDup in Hdiag; [|reflexivity].
    pose proof (proj1 (forallb_range9 _) Hrows) as Hr. cbv beta in Hr.
    pose proof (proj1 (forallb_range9 _) Hcols) as Hc. cbv beta in Hc.
    pose proof (proj1 (forallb_elem_of _ _) Hboxes) as Hb. cbv beta in Hb.
    clear Hrows Hcols Hboxes. split.
    + intros r c Hlr Hlc. specialize (Hr r Hlr). apply andb_prop in Hr as [Hr _].
      apply filled_spec. exact (proj1 (forallb_range9 _) Hr c Hlc).
    + intros u [(r & Hlr & ->)|[(c & Hlc & ->)|[(br & bc & Hbr & Hbc & ->)|[-> | ->]]]]%
        elem_of_units.
      * specialize (Hr r Hlr). apply andb_prop in Hr as [_ Hr].
        by apply distinct_NoDup in Hr.
      * specialize (Hc c Hlc). by apply distinct_NoDup in Hc.
      * specialize (Hb br Hbr).
        pose proof (proj1 (forallb_elem_of _ _) Hb bc Hbc) as Hb'. cbv beta in Hb'.
        by apply distinct_NoDup in Hb'.
      * exact Hdiag.
      * exact Hanti.
  - intros [Hfull Hunits].
    apply andb_true_iff; split; [apply andb_true_iff; split;
      [apply andb_true_iff; split; [apply andb_true_iff; split|]|]|].
    + apply forallb_range9. intros r Hr. apply andb_true_iff. split.
      * apply forallb_range9. intros c Hc. apply filled_spec. by apply Hfull.
      * apply distinct_NoDup; [reflexivity|].
        apply (Hunits (map (fun c => (r, c)) range9)), elem_of_units. eauto.
    + apply forallb_range9. intros c Hc. apply distinct_NoDup; [reflexivity|].
      apply (Hunits (map (fun r => (r, c)) range9)), elem_of_units. eauto.
    + apply forallb_elem_of. intros br Hbr. apply forallb_elem_of. intros bc Hbc.
      apply distinct_NoDup; [reflexivity|].
      apply (Hunits (box_cells br bc)), elem_of_units. eauto 10.
    + apply distinct_NoDup; [reflexivity|].
      apply (Hunits (map (fun i => (i, i)) range9)), elem_of_units. eauto.
    + apply distinct_NoDup; [reflexivity|].
      apply (Hunits (map (fun i => (i, 8 - i)%nat) range9)), elem_of_units. eauto 10.
Qed.

(** X5.  [is_board_solved] holds exactly when every cell is resolved and
    nonzero and no two cells of a row, a column, a box or a diagonal hold
    the same value.  (That the values lie in 1..9 is not checked.) *)
Theorem is_board_solved_spec g :
  is_board_solved g = true <->
  full g /\ forall u, u ∈ units -> NoDup (values_at g u).
Proof. apply is_board_solved_units. Qed.


(** ** A solved board and the scan of the AI's moves *)

Lemma elem_of_box_cells r c box_row box_col :
  (r, c) ∈ box_cells box_row box_col
  <-> (box_row <= r < box_row + 3)%nat /\ (box_col <= c < box_col + 3)%nat.
Proof.
  unfold box_cells. rewrite list_elem_of_In, in_flat_map. split.
  - intros (i & Hi & Hin). apply in_map_iff in Hin as (j & Heq & Hj).
    apply in_seq in Hi, Hj. simplify_eq. lia.
  - intros [Hr Hc]. exists (r - box_row)%nat. split; [apply in_seq; lia|].
    apply in_map_iff. exists (c - box_col)%nat. split; [f_equal; lia|apply in_seq; lia].
Qed.

Lemma box_start r : (r < 9)%nat -> (r / 3 * 3)%nat ∈ [0; 3; 6]%nat.
Proof.
  intros Hr.
  do 9 (destruct r as [|r];
        [vm_compute; repeat (first [by left|right])|]).
  lia.
Qed.

Lemma box_start_range r : (r < 9)%nat -> (r / 3 * 3 <= r < r / 3 * 3 + 3)%nat.
Proof. intros Hr. by apply same_box. Qed.

(** Two cells that are peers lie in a common unit. *)
Lemma peer_in_unit row col r c :
  (row < 9)%nat -> (col < 9)%nat -> (r < 9)%nat -> (c < 9)%nat ->
  peer (row, col) (r, c) = true ->
  exists u, u ∈ units /\ (row, col) ∈ u /\ (r, c) ∈ u.
Proof.
  intros Hrow Hcol Hr Hc Hp. apply peer_spec in Hp as [_ Hp]; [|done..].
  destruct Hp as [->|[->|[[Hbr Hbc]|[[-> ->]|[Hs Hs']]]]].
  - exists (map (fun c => (row, c)) range9). split; [apply elem_of_units; eauto|].
    split; apply list_elem_of_fmap; eexists; (split; [reflexivity|]);
      by apply range9_spec.
  - exists (map (fun r => (r, col)) range9).
    split; [apply elem_of_units; eauto 10|].
    split; apply list_elem_of_fmap; eexists; (split; [reflexivity|]);
      by apply range9_spec.
  - exists (box_cells (row / 3 * 3) (col / 3 * 3)). split.
    + apply elem_of_units. right; right; left.
      exists (row / 3 * 3)%nat, (col / 3 * 3)%nat.
      split; [by apply box_start|]. split; [by apply box_start|done].
    + split; apply elem_of_box_cells; [|done].
      split; by apply box_start_range.
  - exists (map (fun i => (i, i)) range9). split; [apply elem_of_units; eauto 10|].
    split; apply list_elem_of_fmap; eexists; (split; [reflexivity|]);
      by apply range9_spec.
  - exists (map (fun i => (i, 8 - i)%nat) range9).
    split; [apply elem_of_units; eauto 10|].
    split; apply list_elem_of_fmap.
    + exists row. split; [f_equal; lia|by apply range9_spec].
    + exists r. split; [f_equal; lia|by apply range9_spec].
Qed.

Lemma NoDup_map_ne {A B} (f : A -> B) l x y :
  NoDup (map f l) -> x ∈ l -> y ∈ l -> x ≠ y -> f x ≠ f y.
Proof.
  induction l as [|a l IH]; intros Hnd Hx Hy Hne; [by apply elem_of_nil in Hx|].
  cbn [map] in Hnd. apply NoDup_cons in Hnd as [Ha Hnd].
  apply elem_of_cons in Hx as [->|Hx]; apply elem_of_cons in Hy as [->|Hy].
  - done.
  - intros Heq. apply Ha. rewrite Heq. apply list_elem_of_fmap. eauto.
  - intros Heq. apply Ha. rewrite <- Heq. apply list_elem_of_fmap. eauto.
  - by apply IH.
Qed.

Lemma solved_no_violation g :
  is_board_solved g = true -> existsb (ai_violation g) all_cells = false.
Proof.
  intros [_ Hunits]%is_board_solved_units. apply existsb_false.
  intros [row col] [Hrow Hcol]%in_all_cells. unfold ai_violation.
  apply andb_false_iff. right. apply negb_false_iff.
  apply is_valid_move_rules; [done..|]. right.
  intros [r c] [Hr Hc]%in_all_cells Hp. cbn [fst snd].
  destruct (peer_in_unit row col r c) as (u & Hu & Hin1 & Hin2); [done..|].
  unfold conflicts. cbn [andb orb]. rewrite orb_false_r.
  apply andb_false_iff. right. apply Z.eqb_neq.
  apply (NoDup_map_ne (fun p => value_at g p.1 p.2) u (r, c) (row, col));
    [by apply Hunits|done|done|].
  apply peer_spec in Hp as [Hne _]; done.
Qed.

(** X6.  A board that passes the full-board check always passes the scan
    of the AI's moves, and the scan leaves the AI's mistake counter as it
    is: no cell can break a rule on a board whose units hold distinct
    values. *)
Theorem solved_board_passes_scan g :
  is_board_solved g = true -> check_ai_moves g = (true, g).
Proof.
  intros Hs. unfold check_ai_moves. by rewrite (solved_no_violation g Hs).
Qed.

Lemma solved_board_passes_scan_witness :
  check_ai_moves (with_board solved_board (init_game medium))
  = (true, with_board solved_board (init_game medium)).
Proof.
  apply (solved_board_passes_scan (with_board solved_board (init_game medium))).
  vm_compute. reflexivity.
Defined.

(** X7.  On a full board [check_game_over] never takes its first branch
    (player correct, AI not): the player is declared winner only with
    strictly fewer mistakes than the AI has after the scan. *)
Theorem player_wins_by_counters g :
  all_filled g = true ->
  message (check_game_over g) ≠ "You won! AI made mistakes."%string
  /\ (winner (check_game_over g) = Some Player ->
      player_mistakes (check_game_over g) < ai_mistakes (check_game_over g)).
Proof.
  intros Hfull. unfold check_game_over. rewrite Hfull.
  unfold check_ai_moves.
  destruct (is_board_solved g) eqn:Hs.
  - rewrite (solved_no_violation g Hs). cbn [negb andb].
    destruct (Z.ltb_spec (player_mistakes g) (ai_mistakes g));
      [|destruct (player_mistakes g >? ai_mistakes g)];
      cbn [message winner with_result player_mistakes ai_mistakes];
      (split; [done|]); first [done|intros _; lia].
  - destruct (existsb (ai_violation g) all_cells); cbn [negb andb].
    + cbn [player_mistakes ai_mistakes with_ai_mistakes].
      destruct (Z.ltb_spec (player_mistakes g) (ai_mistakes g + 1));
        [|destruct (player_mistakes g >? ai_mistakes g + 1)];
        cbn [message winner with_result player_mistakes ai_mistakes with_ai_mistakes];
        (split; [done|]); first [done|intros _; lia].
    + cbn [message winner with_result]. split; done.
Qed.

Lemma player_wins_by_counters_witness :
  message (check_game_over all_ones) ≠ "You won! AI made mistakes."%string
  /\ (winner (check_game_over all_ones) = Some Player ->
      player_mistakes (check_game_over all_ones)
      < ai_mistakes (check_game_over all_ones)).
Proof. apply (player_wins_by_counters all_ones). vm_compute. reflexivity. Defined.

(** ** Collapse and its propagation *)

Lemma collapse_spec c v t ok c' t' :
  collapse c v t = (ok, c', t') ->
  (ok = false -> c' = c /\ t' = t)
  /\ (ok = true ->
      is_quantum c = true
      /\ exists w, c' = collapse_to w c /\ w ∈ superposition c
                   /\ (forall x, v = Some x -> w = x))
  /\ (is_quantum c = true -> (forall x, v = Some x -> x ∈ superposition c) ->
      ok = true).
Proof.
  unfold collapse, is_quantum.
  destruct (is_empty_list (superposition c)) eqn:He; cbn [orb negb andb].
  { intros [= <- <- <-]. by repeat split. }
  destruct (collapsed c); cbn [orb negb andb].
  { intros [= <- <- <-]. by repeat split. }
  destruct v as [x|].
  - destruct (mem x (superposition c)) eqn:Hm.
    + intros [= <- <- <-]. split; [done|]. split; [|done]. intros _. split; [done|].
      exists x. split; [done|]. split; [by apply mem_true|]. by intros ? [= <-].
    + intros [= <- <- <-]. split; [done|]. split; [done|]. intros _ H.
      specialize (H x eq_refl). apply mem_true in H. congruence.
  - pose proof (choice_in 0 (superposition c) t (is_empty_list_false _ He)) as Hin.
    destruct (Random.choice 0 (superposition c) t) as [w t1]. cbn [fst] in Hin.
    intros [= <- <- <-]. split; [done|]. split; [|done]. intros _. split; [done|].
    exists w. by repeat split.
Qed.

Lemma quantum_lookup b r c :
  is_quantum (cell_at b r c) = true -> lookup_cell b r c = Some (cell_at b r c).
Proof.
  unfold cell_at. destruct (lookup_cell b r c) as [x|]; [done|].
  cbn. discriminate.
Qed.

Lemma collapse_to_not_quantum w z : is_quantum (collapse_to w z) = false.
Proof. unfold is_quantum. cbn. done. Qed.

Lemma collapse_peer_spec row col p b t b1 t1 :
  collapse_peer row col p b t = (b1, t1) ->
  (forall r c, (r, c) ≠ p \/ is_quantum (cell_at b r c) = false ->
     cell_at b1 r c = cell_at b r c)
  /\ (is_quantum (cell_at b p.1 p.2) = true ->
      resolved_from (value (cell_at b row col))
        (cell_at b p.1 p.2) (cell_at b1 p.1 p.2)).
Proof.
  unfold collapse_peer. destruct p as [orow ocol]. cbn [fst snd].
  destruct (is_quantum (cell_at b orow ocol)) eqn:Hq.
  2:{ intros [= <- <-]. split; [done|]. done. }
  set (v := value (cell_at b row col)).
  set (z := cell_at b orow ocol) in *.
  pose proof (quantum_lookup b orow ocol Hq) as Hlook. fold z in Hlook.
  destruct (mem v (superposition z)) eqn:Hm.
  - destruct (collapse z (Some v) t) as [[ok z'] t'] eqn:E.
    intros [= <- <-]. apply collapse_spec in E as (_ & Hok & Htrue).
    destruct (Hok (Htrue Hq ltac:(intros ? [= <-]; by apply mem_true)))
      as (_ & w & -> & Hw & Hv).
    split.
    + intros r c [Hne|Hnq].
      * by rewrite cell_at_update_ne.
      * rewrite cell_at_update_ne; [done|]. intros [= -> ->]. fold z in Hnq. congruence.
    + intros _. rewrite (cell_at_update_eq _ _ _ _ z Hlook).
      exists w. split; [done|]. split; [done|]. intros _. by apply Hv.
  - destruct (collapse z None t) as [[ok z'] t'] eqn:E.
    intros [= <- <-]. apply collapse_spec in E as (_ & Hok & Htrue).
    destruct (Hok (Htrue Hq ltac:(done))) as (_ & w & -> & Hw & Hv).
    split.
    + intros r c [Hne|Hnq].
      * by rewrite cell_at_update_ne.
      * rewrite cell_at_update_ne; [done|]. intros [= -> ->]. fold z in Hnq. congruence.
    + intros _. rewrite (cell_at_update_eq _ _ _ _ z Hlook).
      exists w. split; [done|]. split; [done|]. intros Hin.
      apply mem_true in Hin. congruence.
Qed.

Lemma collapse_peers_spec row col peers b t b' t' :
  collapse_peers row col peers b t = (b', t') ->
  is_quantum (cell_at b row col) = false ->
  (forall r c, is_quantum (cell_at b r c) = false -> cell_at b' r c = cell_at b r c)
  /\ (forall r c, (r, c) ∉ peers -> cell_at b' r c = cell_at b r c)
  /\ (forall r c, (r, c) ∈ peers -> is_quantum (cell_at b r c) = true ->
        resolved_from (value (cell_at b row col)) (cell_at b r c) (cell_at b' r c)).
Proof.
  revert b t. induction peers as [|p peers IH]; intros b t; cbn [collapse_peers].
  - intros [= <- <-] _. split; [done|]. split; [done|].
    intros r c Hin. by apply elem_of_nil in Hin.
  - destruct (collapse_peer row col p b t) as [b1 t1] eqn:E1. intros E Htarget.
    apply collapse_peer_spec in E1 as [Hkeep Hres].
    assert (Ht1 : cell_at b1 row col = cell_at b row col) by (apply Hkeep; by right).
    apply IH in E as (IH1 & IH2 & IH3); [|by rewrite Ht1].
    rewrite Ht1 in IH3. split; [|split].
    + intros r c Hnq. rewrite IH1; [|rewrite Hkeep; [done|by right]].
      apply Hkeep. by right.
    + intros r c [Hne Hnin]%not_elem_of_cons. rewrite IH2 by done.
      apply Hkeep. by left.
    + intros r c Hin Hq. destruct (decide ((r, c) = p)) as [<-|Hne].
      * cbn [fst snd] in Hres. specialize (Hres Hq).
        rewrite IH1; [done|]. destruct Hres as (w & -> & _).
        apply collapse_to_not_quantum.
      * apply elem_of_cons in Hin as [Hin|Hin]; [done|].
        assert (Hsame : cell_at b1 r c = cell_at b r c) by (apply Hkeep; by left).
        rewrite <- Hsame. apply IH3; [done|by rewrite Hsame].
Qed.

(** What a call of [collapse_quantum_cell] does. *)
Lemma collapse_quantum_cell_spec row col v g t x ok g' t' :
  lookup_cell (board g) row col = Some x ->
  collapse_quantum_cell row col v g t = (ok, g', t') ->
  (ok = true <-> is_quantum x = true /\ forall w, v = Some w -> w ∈ superposition x)
  /\ (ok = false -> g' = g /\ t' = t)
  /\ (ok = true ->
      only_board g g'
      /\ (exists w,
            cell_at (board g') row col = collapse_to w x
            /\ w ∈ superposition x
            /\ (forall w', v = Some w' -> w = w')
            /\ forall r c, (r, c) ∈ entangled_with x -> (r, c) ≠ (row, col) ->
                 is_quantum (cell_at (board g) r c) = true ->
                 resolved_from w (cell_at (board g) r c) (cell_at (board g') r c))
      /\ (forall r c, is_quantum (cell_at (board g) r c) = false ->
            cell_at (board g') r c = cell_at (board g) r c)
      /\ (forall r c, (r, c) ≠ (row, col) -> (r, c) ∉ entangled_with x ->
            cell_at (board g') r c = cell_at (board g) r c)).
Proof.
  intros Hx. unfold collapse_quantum_cell. rewrite (cell_at_lookup _ _ _ _ Hx).
  destruct (is_quantum x) eqn:Hq; cbn [negb].
  2:{ intros [= <- <- <-]. split; [split; [done|by intros [? _]]|]. by split. }
  destruct (collapse x v t) as [[ok1 x'] t1] eqn:E.
  apply collapse_spec in E as (Hfalse & Htrue & Hconv).
  destruct ok1; cbn [negb].
  2:{ intros [= <- <- <-]. destruct (Hfalse eq_refl) as [-> ->].
      split; [|by split]. split; [done|]. intros [_ Hv]. by apply Hconv. }
  destruct (Htrue eq_refl) as (_ & w & -> & Hw & Hv). clear Hfalse Htrue Hconv.
  cbn [entangled_with collapse_to].
  set (b1 := update_cell (fun _ => collapse_to w x) row col (board g)).
  destruct (collapse_peers row col (entangled_with x) b1 t1) as [b2 t2] eqn:Ep.
  intros [= <- <- <-].
  assert (H1 : cell_at b1 row col = collapse_to w x).
  { unfold b1. by rewrite (cell_at_update_eq _ _ _ _ x). }
  assert (H1' : forall r c, (r, c) ≠ (row, col) -> cell_at b1 r c = cell_at (board g) r c).
  { intros r c Hne. unfold b1. by rewrite cell_at_update_ne. }
  apply collapse_peers_spec in Ep as (Hkeep & Hout & Hres);
    [|rewrite H1; apply collapse_to_not_quantum].
  rewrite H1 in Hres. cbn [value collapse_to] in Hres.
  split.
  { split; [|done]. intros _. split; [done|]. intros w' Hw'. by rewrite <- (Hv w' Hw'). }
  split; [done|]. intros _. cbn [board with_board]. split; [reflexivity|].
  split; [|split].
  - exists w. split; [|split; [done|split; [done|]]].
    + rewrite Hkeep; [done|]. rewrite H1. apply collapse_to_not_quantum.
    + intros r c Hin Hne Hqz. rewrite <- (H1' r c Hne).
      apply Hres; [done|]. by rewrite H1'.
  - intros r c Hnq. destruct (decide ((r, c) = (row, col))) as [[= -> ->]|Hne].
    + rewrite (cell_at_lookup _ _ _ _ Hx) in Hnq. congruence.
    + rewrite Hkeep; [by apply H1'|]. by rewrite H1'.
  - intros r c Hne Hnin. rewrite Hout by done. by apply H1'.
Qed.

(** X8.  [collapse_quantum_cell] succeeds exactly when the cell is in
    superposition and the requested value, if one is given, is among its
    candidates; a call that fails changes nothing, neither the game nor
    the random source. *)
Theorem collapse_quantum_cell_failure row col v g t x ok g' t' :
  lookup_cell (board g) row col = Some x ->
  collapse_quantum_cell row col v g t = (ok, g', t') ->
  (ok = true <-> is_quantum x = true /\ forall w, v = Some w -> w ∈ superposition x)
  /\ (ok = false -> g' = g /\ t' = t).
Proof.
  intros Hx E. destruct (collapse_quantum_cell_spec _ _ _ _ _ _ _ _ _ Hx E) as (H1 & H2 & _).
  by split.
Qed.

Lemma collapse_quantum_cell_failure_witness :
  (false = true <->
   is_quantum (cell_at (board entangled_pair) 0 1) = true
   /\ forall w, Some 7 = Some w -> w ∈ superposition (cell_at (board entangled_pair) 0 1))
  /\ (false = false -> entangled_pair = entangled_pair /\ [5%nat] = [5%nat]).
Proof.
  apply (collapse_quantum_cell_failure 0 1 (Some 7) entangled_pair [5%nat]
           (cell_at (board entangled_pair) 0 1) false entangled_pair [5%nat]).
  - vm_compute. reflexivity.
  - vm_compute. reflexivity.
Defined.

(** X9.  A successful [collapse_quantum_cell] changes the board only: the
    cell is resolved to one of its candidates (the requested one, if one
    was given); every other cell it is entangled with that was in
    superposition is resolved too, to the same value when that is among
    its candidates and to one of its own candidates otherwise; cells that
    were not in superposition, and cells that are neither the target nor
    entangled with it, stay as they are.  The positions the cell lists are
    taken to be on the board, as the source indexes them. *)
Theorem collapse_quantum_cell_success row col v g t x g' t' :
  lookup_cell (board g) row col = Some x ->
  Forall (fun p => is_Some (lookup_cell (board g) p.1 p.2)) (entangled_with x) ->
  collapse_quantum_cell row col v g t = (true, g', t') ->
  only_board g g'
  /\ (exists w,
        cell_at (board g') row col = collapse_to w x
        /\ w ∈ superposition x
        /\ (forall w', v = Some w' -> w = w')
        /\ forall r c, (r, c) ∈ entangled_with x -> (r, c) ≠ (row, col) ->
             is_quantum (cell_at (board g) r c) = true ->
             resolved_from w (cell_at (board g) r c) (cell_at (board g') r c))
  /\ (forall r c, is_quantum (cell_at (board g) r c) = false ->
        cell_at (board g') r c = cell_at (board g) r c)
  /\ (forall r c, (r, c) ≠ (row, col) -> (r, c) ∉ entangled_with x ->
        cell_at (board g') r c = cell_at (board g) r c).
Proof.
  intros Hx _ E.
  destruct (collapse_quantum_cell_spec _ _ _ _ _ _ _ _ _ Hx E) as (_ & _ & H).
  by apply H.
Qed.

Lemma collapse_quantum_cell_success_witness :
  only_board entangled_pair pair_collapsed
  /\ (exists w,
        cell_at (board pair_collapsed) 0 1
        = collapse_to w (cell_at (board entangled_pair) 0 1)
        /\ w ∈ superposition (cell_at (board entangled_pair) 0 1)
        /\ (forall w', Some 1 = Some w' -> w = w')
        /\ forall r c, (r, c) ∈ entangled_with (cell_at (board entangled_pair) 0 1) ->
             (r, c) ≠ (0, 1)%nat ->
             is_quantum (cell_at (board entangled_pair) r c) = true ->
             resolved_from w (cell_at (board entangled_pair) r c)
               (cell_at (board pair_collapsed) r c))
  /\ (forall r c, is_quantum (cell_at (board entangled_pair) r c) = false ->
        cell_at (board pair_collapsed) r c = cell_at (board entangled_pair) r c)
  /\ (forall r c, (r, c) ≠ (0, 1)%nat ->
        (r, c) ∉ entangled_with (cell_at (board entangled_pair) 0 1) ->
        cell_at (board pair_collapsed) r c = cell_at (board entangled_pair) r c).
Proof.
  apply (collapse_quantum_cell_success 0 1 (Some 1) entangled_pair []
           (cell_at (board entangled_pair) 0 1) pair_collapsed []).
  - vm_compute. reflexivity.
  - vm_compute. repeat constructor. by eexists.
  - vm_compute. reflexivity.
Defined.

(** ** The two states of a cell *)

Lemma board_ok_update f row col b :
  board_ok b ->
  (forall x, lookup_cell b row col = Some x -> well_formed (f x)) ->
  board_ok (update_cell f row col b).
Proof.
  intros [H9 Hwf] Hf. split; [by apply board9_update|].
  intros r c y Hy. destruct (decide ((r, c) = (row, col))) as [[= -> ->]|Hne].
  - rewrite lookup_cell_update_eq in Hy.
    destruct (lookup_cell b row col) as [x|] eqn:E; [|done].
    apply (inj Some) in Hy. subst y. by apply Hf.
  - rewrite lookup_cell_update_ne in Hy by done. by eapply Hwf.
Qed.

Lemma well_formed_cell_at b r c : board_all well_formed b -> well_formed (cell_at b r c).
Proof.
  intros H. unfold cell_at. destruct (lookup_cell b r c) as [x|] eqn:E; cbn [default].
  - by eapply H.
  - by left.
Qed.

Lemma well_formed_with_value v x :
  well_formed x -> collapsed x = true -> well_formed (with_value v x).
Proof. intros [[_ Hs]|[Hc _]] Hcol; [|congruence]. by left. Qed.

Lemma well_formed_set_superposition v chosen x :
  well_formed (set_superposition (v :: chosen) x).
Proof.
  unfold set_superposition. destruct chosen as [|w chosen]; [by left|].
  right. cbn [collapsed value superposition length]. repeat split; lia.
Qed.

Lemma well_formed_collapse c v t ok c' t' :
  collapse c v t = (ok, c', t') -> well_formed c -> well_formed c'.
Proof.
  intros E Hwf. apply collapse_spec in E as (Hfalse & Htrue & _). destruct ok.
  - destruct (Htrue eq_refl) as (_ & w & -> & _). by left.
  - by destruct (Hfalse eq_refl) as [-> _].
Qed.

Lemma well_formed_with_entanglement grp p x :
  well_formed x -> well_formed (with_entanglement grp p x).
Proof. intros H. exact H. Qed.

Lemma set_value_ok row col v g :
  board_ok (board g) -> collapsed (cell_at (board g) row col) = true ->
  board_ok (board (set_value row col v g)).
Proof.
  intros Hok Hc. unfold set_value. cbn [board with_board].
  apply board_ok_update; [done|]. intros x Hx.
  rewrite (cell_at_lookup _ _ _ _ Hx) in Hc.
  apply well_formed_with_value; [|done]. by eapply (proj2 Hok).
Qed.

Lemma collapse_peer_ok row col p b t :
  board_ok b -> board_ok (collapse_peer row col p b t).1.
Proof.
  intros Hok. unfold collapse_peer. destruct p as [orow ocol].
  destruct (is_quantum _); [|done].
  destruct (if mem _ _ then _ else _) as [[ok other'] t'] eqn:E. cbn [fst].
  apply board_ok_update; [done|]. intros x _.
  destruct (mem _ _); eapply well_formed_collapse; try exact E;
    apply well_formed_cell_at, Hok.
Qed.

Lemma collapse_peers_ok row col peers b t :
  board_ok b -> board_ok (collapse_peers row col peers b t).1.
Proof.
  revert b t. induction peers as [|p peers IH]; intros b t Hok;
    cbn [collapse_peers]; [done|].
  pose proof (collapse_peer_ok row col p b t Hok) as H1.
  destruct (collapse_peer row col p b t) as [b' t']. by apply IH.
Qed.

Lemma collapse_quantum_cell_ok row col v g t :
  board_ok (board g) -> board_ok (board (collapse_quantum_cell row col v g t).1.2).
Proof.
  intros Hok. unfold collapse_quantum_cell.
  destruct (negb (is_quantum _)); [done|].
  destruct (collapse _ v t) as [[ok cell'] t1] eqn:E.
  destruct ok; cbn [negb]; [|done].
  pose proof (collapse_peers_ok row col (entangled_with cell')
                (update_cell (fun _ => cell') row col (board g)) t1) as H.
  destruct (collapse_peers _ _ _ _ t1) as [b2 t2]. cbn [fst snd board with_board] in *.
  apply H. apply board_ok_update; [done|]. intros x _.
  eapply well_formed_collapse; [exact E|]. apply well_formed_cell_at, Hok.
Qed.

Lemma create_entanglement_ok row col g t :
  board_ok (board g) -> board_ok (board (create_entanglement row col g t).1).
Proof.
  intros Hok. unfold create_entanglement.
  destruct (is_empty_list _); [done|].
  destruct (Random.choice _ _ t) as [[orow ocol] t']. cbn [fst board with_groups with_board].
  apply board_ok_update.
  - apply board_ok_update; [done|]. intros x Hx.
    apply well_formed_with_entanglement. by eapply (proj2 Hok).
  - intros x Hx. apply well_formed_with_entanglement.
    assert (Hok1 : board_ok (update_cell
              (with_entanglement (S (size (entanglement_groups g))) (orow, ocol))
              row col (board g))).
    { apply board_ok_update; [done|]. intros y Hy.
      apply well_formed_with_entanglement. by eapply (proj2 Hok). }
    by eapply (proj2 Hok1).
Qed.

Lemma make_quantum_ok row col g t :
  board_ok (board g) -> board_ok (board (make_quantum row col g t).1).
Proof.
  intros Hok. unfold make_quantum.
  destruct (is_empty_list _); [done|].
  destruct (if is_easy _ then _ else _) as [k t1].
  destruct (Random.sample _ _ t1) as [chosen t2].
  destruct (Random.random t2) as [x t3].
  assert (H1 : board_ok (update_cell
            (set_superposition (value (cell_at (board g) row col) :: chosen))
            row col (board g))).
  { apply board_ok_update; [done|]. intros y _. apply well_formed_set_superposition. }
  destruct (x <? 500); [|exact H1].
  by apply (create_entanglement_ok row col (with_board _ g) t3).
Qed.

Lemma make_quantum_all_ok cells g t :
  board_ok (board g) -> board_ok (board (make_quantum_all cells g t).1).
Proof.
  revert g t. induction cells as [|[row col] cells IH]; intros g t Hok;
    cbn [make_quantum_all]; [done|].
  pose proof (make_quantum_ok row col g t Hok) as H1.
  destruct (make_quantum row col g t) as [g' t']. by apply IH.
Qed.

Lemma create_quantum_cells_ok n g t :
  board_ok (board g) -> board_ok (board (create_quantum_cells n g t).1).
Proof.
  intros Hok. unfold create_quantum_cells.
  destruct (Random.shuffle _ t) as [shuffled t']. by apply make_quantum_all_ok.
Qed.

Lemma make_move_ok row col v g t :
  board_ok (board g) -> board_ok (board (make_move row col v g t).1.2).
Proof.
  intros Hok. unfold make_move.
  destruct (lookup_cell (board g) row col) as [cell|] eqn:Hc; [|done].
  destruct (locked cell); [done|].
  destruct (collapsed cell) eqn:Hcol.
  - destruct (value cell =? 0).
    + destruct (is_valid_move g row col v true); [|done]. cbn [fst snd].
      apply set_value_ok; [done|]. by rewrite (cell_at_lookup _ _ _ _ Hc).
    + destruct (Random.random t) as [x t']. by destruct (x <? 200).
  - pose proof (collapse_quantum_cell_ok row col (Some v) g t Hok) as H.
    by destruct (collapse_quantum_cell row col (Some v) g t) as [[ok g'] t'].
Qed.

Lemma use_logic_move_ok row col v g t :
  board_ok (board g) -> board_ok (board (use_logic_move row col v g t).1.2).
Proof.
  intros Hok. unfold use_logic_move.
  destruct (logic_moves_remaining g <=? 0); [done|].
  destruct (lookup_cell (board g) row col) as [cell|] eqn:Hc; [|done].
  destruct (locked cell); [done|].
  destruct (collapsed cell) eqn:Hcol; [destruct (value cell =? 0)|].
  - destruct (match v with Some x => _ | None => _ end) as [x t'].
    cbn [fst snd board with_logic_moves with_using_logic_move].
    apply (set_value_ok row col x (with_using_logic_move true g)); [done|].
    cbn [board with_using_logic_move]. by rewrite (cell_at_lookup _ _ _ _ Hc).
  - destruct (Random.randint 1 3 t) as [k t1].
    destruct (Random.sample _ _ t1) as [chosen t2].
    assert (H1 : board_ok (update_cell
              (set_superposition (value cell :: chosen)) row col (board g))).
    { apply board_ok_update; [done|]. intros y _. apply well_formed_set_superposition. }
    destruct (Random.random t2) as [x t3].
    destruct (x <? 500); [|exact H1].
    pose proof (create_entanglement_ok row col
                  (with_board (update_cell (set_superposition (value cell :: chosen))
                                 row col (board (with_using_logic_move true g)))
                     (with_using_logic_move true g)) t3 H1) as H2.
    by destruct (create_entanglement _ _ _ t3) as [g1 t4].
  - destruct (match v with Some x => _ | None => _ end) as [[ok cell'] t'] eqn:E.
    cbn [fst snd board with_logic_moves with_using_logic_move with_board].
    apply board_ok_update; [done|]. intros x Hx.
    assert (Hwf : well_formed cell) by (by eapply (proj2 Hok)).
    destruct v as [x0|]; [destruct (mem x0 _)|]; by eapply well_formed_collapse.
Qed.

Lemma ai_move_ok g t : board_ok (board g) -> board_ok (board (ai_move g t).1).
Proof.
  intros Hok. unfold ai_move.
  destruct (game_over g); [done|].
  set (qs := cells_where (fun _ _ cell => is_quantum cell) (board g)).
  set (es := cells_where (fun _ _ cell => collapsed cell && (value cell =? 0))
               (board g)).
  destruct (is_empty_list qs) eqn:Hq; cbn [negb].
  - destruct (is_empty_list es) eqn:He; cbn [negb].
    + cbn [fst]. by rewrite check_game_over_board.
    + pose proof (choice_in (0, 0)%nat es t (is_empty_list_false _ He)) as Hin.
      destruct (Random.choice _ es t) as [[row col] t1]. cbn [fst] in Hin.
      apply cells_where_spec, andb_prop in Hin as [Hcol _].
      destruct (is_empty_list (List.filter _ nums)); cbn [negb].
      * destruct (Random.randint 1 9 t1) as [x t2]. cbn [fst].
        rewrite check_game_over_board.
        by apply (set_value_ok row col x g).
      * destruct (Random.choice 0 _ t1) as [x t2]. cbn [fst].
        rewrite check_game_over_board.
        by apply (set_value_ok row col x g).
  - destruct (Random.choice _ qs t) as [[row col] t1].
    destruct (if negb (is_empty_list _) then _ else _) as [[ok cell'] t2] eqn:E.
    assert (Hwf : well_formed cell').
    { destruct (negb _) in E.
      - destruct (Random.choice 0 _ t1) as [x t'].
        eapply well_formed_collapse; [exact E|]. apply well_formed_cell_at, Hok.
      - eapply well_formed_collapse; [exact E|]. apply well_formed_cell_at, Hok. }
    pose proof (collapse_peers_ok row col (entangled_with cell')
                  (update_cell (fun _ => cell') row col (board g)) t2) as H2.
    destruct (collapse_peers _ _ _ _ t2) as [b2 t3]. cbn [fst] in *.
    rewrite check_game_over_board. cbn [board with_player_turn with_board].
    apply H2. by apply board_ok_update.
Qed.

Lemma run_ok c g t : board_ok (board g) -> board_ok (board (run c g t).1).
Proof.
  intros Hok. destruct c as [row col v|row col v|row col v| | | |p|n]; unfold run.
  - pose proof (make_move_ok row col v g t Hok) as H.
    by destruct (make_move row col v g t) as [[o g'] t'].
  - pose proof (use_logic_move_ok row col v g t Hok) as H.
    by destruct (use_logic_move row col v g t) as [[o g'] t'].
  - pose proof (collapse_quantum_cell_ok row col v g t Hok) as H.
    by destruct (collapse_quantum_cell row col v g t) as [[o g'] t'].
  - by apply ai_move_ok.
  - cbn [fst]. by rewrite check_game_over_board.
  - cbn [fst handle_give_up game]. by rewrite check_ai_moves_board.
  - done.
  - by apply create_quantum_cells_ok.
Qed.

Lemma carve_board9 cells removed g g' :
  carve cells removed g = Some g' -> board9 (board g) -> board9 (board g').
Proof.
  revert removed g. induction cells as [|[row col] cells IH]; intros removed g;
    cbn [carve]; cbv zeta.
  - intros H. apply (inj Some) in H. by subst.
  - destruct (removed >=? _); [intros H; apply (inj Some) in H; by subst|].
    assert (Hset : forall v g0, board9 (board g0) -> board9 (board (set_value row col v g0))).
    { intros v g0 H. by apply board9_update. }
    destruct (is_hard (difficulty g)).
    + intros H H9. eapply IH; [exact H|]. by apply Hset.
    + destruct (count_solutions 82 (board_copy (board (set_value row col 0 g))))
        as [n|]; [|intros H; discriminate H].
      destruct (negb (n =? 1)); intros H H9; (eapply IH; [exact H|]);
        repeat apply Hset; done.
Qed.

Lemma update_cells_board9 f cells b : board9 b -> board9 (update_cells f cells b).
Proof.
  unfold update_cells. revert b.
  induction cells as [|[r c] cells IH]; intros b H9; cbn [foldl]; [done|].
  apply IH. by apply board9_update.
Qed.

Lemma solved_board9 : board9 solved_board.
Proof. split; [reflexivity|]. repeat constructor. Qed.

Lemma new_game_ok d t g t' : new_game d t = Some (g, t') -> board_ok (board g).
Proof.
  intros Hnew. destruct (new_game_shape d t) as (g1 & Ec & E).
  rewrite E in Hnew. apply some_pair_inj in Hnew as [Hg _]. subst g.
  cbn [board with_board]. split.
  - apply update_cells_board9. eapply carve_board9; [exact Ec|]. exact solved_board9.
  - pose proof (carve_spec _ _ _ _ Ec) as [_ Hplain]. clear Ec E.
    apply update_cells_all.
    + eapply board_all_impl; [exact (Hplain solved_board_plain)|].
      intros x (Hc & _ & Hs & _). left. split; assumption.
    + intros x Hx. unfold lock_given. by destruct (negb _).
Qed.

Lemma reachable_ok g : reachable g -> board_ok (board g).
Proof.
  induction 1 as [d t g t' Hnew|c g t Hr IH].
  - by eapply new_game_ok.
  - by apply run_ok.
Qed.

Lemma entangled_pair_is_reachable : reachable entangled_pair.
Proof.
  replace entangled_pair
    with (run_all [MakeMove 0 1 2; MakeMove 0 2 3; UseLogicMove 0 1 None;
                   UseLogicMove 0 2 None] medium_start []).1
    by (vm_compute; reflexivity).
  apply reachable_run_all.
  exact (reachable_new medium [] medium_start [] new_game_medium_nil).
Qed.

(** X10.  In every session that can arise the board has 9 rows of 9 cells
    and every cell is in one of two states: resolved, with no candidates
    left, or in superposition, unresolved and unlocked, without a value
    and with at least two candidates.  So a cell is in superposition
    exactly when it is not resolved. *)
Theorem reachable_cells_well_formed g r c x :
  reachable g -> lookup_cell (board g) r c = Some x ->
  board9 (board g)
  /\ well_formed x
  /\ is_quantum x = negb (collapsed x)
  /\ (collapsed x = false -> locked x = false).
Proof.
  intros Hr Hx. destruct (reachable_ok g Hr) as [H9 Hwf].
  pose proof (Hwf r c x Hx) as Hw. split; [done|]. split; [done|]. split.
  - unfold is_quantum. destruct Hw as [[-> ->]|(-> & _ & Hl)]; [done|].
    destruct (superposition x); [cbn in Hl; lia|done].
  - intros Hc. destruct (locked x) eqn:Hl; [|done].
    destruct (reachable_locked_inv g Hr r c x Hx Hl) as (Hcol & _). congruence.
Qed.

Lemma reachable_cells_well_formed_witness :
  board9 (board entangled_pair)
  /\ well_formed (cell_at (board entangled_pair) 0 1)
  /\ is_quantum (cell_at (board entangled_pair) 0 1)
     = negb (collapsed (cell_at (board entangled_pair) 0 1))
  /\ (collapsed (cell_at (board entangled_pair) 0 1) = false ->
      locked (cell_at (board entangled_pair) 0 1) = false).
Proof.
  apply (reachable_cells_well_formed entangled_pair 0 1).
  - exact entangled_pair_is_reachable.
  - vm_compute. reflexivity.
Defined.

(** ** Flags and counters of a session *)

Lemma same_session_refl g : same_session g g.
Proof. by destruct g. Qed.

Lemma same_session_trans g1 g2 g3 :
  same_session g1 g2 -> same_session g2 g3 -> same_session g1 g3.
Proof. unfold same_session. intros -> ->. reflexivity. Qed.

Lemma same_session_board b g : same_session g (with_board b g).
Proof. reflexivity. Qed.

Lemma same_session_step g g' : same_session g g' -> session_step g g'.
Proof.
  unfold same_session, session_step. intros ->.
  cbn [player_turn using_logic_move game_over difficulty player_mistakes ai_mistakes
       with_groups with_board].
  repeat split; try done; lia.
Qed.

Lemma collapse_quantum_cell_session row col v g t :
  same_session g (collapse_quantum_cell row col v g t).1.2.
Proof.
  unfold collapse_quantum_cell.
  destruct (negb _); [apply same_session_refl|].
  destruct (collapse _ v t) as [[ok cell'] t1].
  destruct (negb ok); [apply same_session_refl|].
  destruct (collapse_peers _ _ _ _ _). apply same_session_board.
Qed.

Lemma create_entanglement_session row col g t :
  same_session g (create_entanglement row col g t).1.
Proof.
  unfold create_entanglement.
  destruct (is_empty_list _); [apply same_session_refl|].
  destruct (Random.choice _ _ t) as [[orow ocol] t']. reflexivity.
Qed.

Lemma make_quantum_session row col g t : same_session g (make_quantum row col g t).1.
Proof.
  unfold make_quantum.
  destruct (is_empty_list _); [apply same_session_refl|].
  destruct (if is_easy _ then _ else _) as [k t1].
  destruct (Random.sample _ _ t1) as [chosen t2].
  destruct (Random.random t2) as [x t3].
  destruct (x <? 500); [|apply same_session_board].
  eapply same_session_trans; [|apply create_entanglement_session].
  apply same_session_board.
Qed.

Lemma make_quantum_all_session cells g t :
  same_session g (make_quantum_all cells g t).1.
Proof.
  revert g t. induction cells as [|[row col] cells IH]; intros g t;
    cbn [make_quantum_all]; [apply same_session_refl|].
  pose proof (make_quantum_session row col g t) as H.
  destruct (make_quantum row col g t) as [g' t'].
  eapply same_session_trans; [exact H|apply IH].
Qed.

Lemma create_quantum_cells_session n g t :
  same_session g (create_quantum_cells n g t).1.
Proof.
  unfold create_quantum_cells.
  destruct (Random.shuffle _ t) as [shuffled t']. apply make_quantum_all_session.
Qed.

Ltac session_fields :=
  unfold session_step;
  cbn [player_turn using_logic_move game_over difficulty player_mistakes ai_mistakes
       with_groups with_board with_player_mistakes with_ai_mistakes with_result
       with_player_turn with_using_logic_move with_logic_moves with_selected_cell
       set_value];
  repeat split; try done; lia.

Lemma session_step_refl g : session_step g g.
Proof. session_fields. Qed.

Lemma make_move_session row col v g t : session_step g (make_move row col v g t).1.2.
Proof.
  unfold make_move.
  destruct (lookup_cell _ _ _) as [cell|]; [|apply session_step_refl].
  destruct (locked cell); [apply session_step_refl|].
  destruct (collapsed cell).
  - destruct (value cell =? 0).
    + destruct (is_valid_move _ _ _ _ _); cbn [fst snd]; session_fields.
    + destruct (Random.random t) as [x t']. destruct (x <? 200); apply session_step_refl.
  - pose proof (collapse_quantum_cell_session row col (Some v) g t) as H.
    destruct (collapse_quantum_cell _ _ _ _ _) as [[ok g'] t'].
    by apply same_session_step.
Qed.

Lemma use_logic_move_session row col v g t :
  session_step g (use_logic_move row col v g t).1.2
  /\ player_mistakes (use_logic_move row col v g t).1.2 = player_mistakes g.
Proof.
  unfold use_logic_move.
  destruct (logic_moves_remaining g <=? 0); [split; [apply session_step_refl|done]|].
  destruct (lookup_cell _ _ _) as [cell|]; [|split; [apply session_step_refl|done]].
  destruct (locked cell); [split; [apply session_step_refl|done]|].
  assert (H : forall g1, same_session (with_using_logic_move true g) g1 ->
            session_step g
              (with_logic_moves (logic_moves_remaining (with_using_logic_move false g1) - 1)
                 (with_using_logic_move false g1))
            /\ player_mistakes
                 (with_logic_moves
                    (logic_moves_remaining (with_using_logic_move false g1) - 1)
                    (with_using_logic_move false g1)) = player_mistakes g).
  { intros g1 ->. split; [session_fields|reflexivity]. }
  destruct (if collapsed cell then _ else _) as [g1 t1] eqn:E.
  cbn [fst snd]. apply H.
  destruct (collapsed cell); [destruct (value cell =? 0)|].
  - destruct (match v with Some x => _ | None => _ end) as [x t'].
    injection E as <- <-. reflexivity.
  - destruct (Random.randint 1 3 t) as [k t2].
    destruct (Random.sample _ _ t2) as [chosen t3].
    destruct (Random.random t3) as [x t4].
    destruct (x <? 500).
    + pose proof (create_entanglement_session row col
        (with_board
           (update_cell (set_superposition (value cell :: chosen)) row col
              (board (with_using_logic_move true g)))
           (with_using_logic_move true g)) t4) as H1.
      rewrite E in H1. cbn [fst] in H1.
      eapply same_session_trans; [|exact H1]. reflexivity.
    + injection E as <- <-. reflexivity.
  - destruct (match v with Some x => _ | None => _ end) as [[ok cell'] t'].
    injection E as <- <-. reflexivity.
Qed.

Lemma check_game_over_session g :
  session_step g (check_game_over g)
  /\ player_mistakes (check_game_over g) = player_mistakes g
  /\ ai_mistakes (check_game_over g) <= ai_mistakes g + 1.
Proof.
  unfold check_game_over, check_ai_moves.
  destruct (all_filled g); [|split; [apply session_step_refl|split; [done|lia]]].
  destruct (existsb _ _), (is_board_solved g); cbn [negb andb];
    repeat match goal with
           | |- context [if ?a then _ else _] => destruct a
           end;
    (split; [session_fields|split; [reflexivity|]]);
    cbn [ai_mistakes with_result with_ai_mistakes]; lia.
Qed.

Lemma session_step_trans g1 g2 g3 :
  session_step g1 g2 ->
  session_step g2 g3 ->
  player_mistakes g3 <= player_mistakes g1 + 1 ->
  ai_mistakes g3 <= ai_mistakes g1 + 2 ->
  session_step g1 g3.
Proof.
  unfold session_step. intros (A1 & A2 & A3 & A4 & A5 & A6) (B1 & B2 & B3 & B4 & B5 & B6) Hp Ha.
  repeat split; try tauto; try congruence; lia.
Qed.

Lemma ai_move_session g t :
  session_step g (ai_move g t).1
  /\ player_mistakes (ai_move g t).1 = player_mistakes g.
Proof.
  unfold ai_move. destruct (game_over g) eqn:Hover; [split; [apply session_step_refl|done]|].
  assert (H : forall g1,
            (game_over g1 = game_over g /\ difficulty g1 = difficulty g
             /\ using_logic_move g1 = using_logic_move g
             /\ player_mistakes g1 = player_mistakes g
             /\ ai_mistakes g <= ai_mistakes g1 <= ai_mistakes g + 1) ->
            session_step g (check_game_over (with_player_turn true g1))
            /\ player_mistakes (check_game_over (with_player_turn true g1))
               = player_mistakes g).
  { intros g1 (E1 & E2 & E3 & E4 & E5).
    destruct (check_game_over_session (with_player_turn true g1)) as (S1 & S2 & S3).
    cbn [player_mistakes ai_mistakes with_player_turn] in S2, S3.
    split; [|congruence].
    destruct S1 as (B1 & B2 & B3 & B4 & B5 & B6).
    cbn [player_turn using_logic_move game_over difficulty player_mistakes ai_mistakes
         with_player_turn] in *.
    unfold session_step. repeat split; try tauto; try congruence; try lia.
    - intros Hu. apply B2. congruence. }
  destruct (negb (is_empty_list (cells_where (fun _ _ cell => is_quantum cell) _))).
  - destruct (Random.choice _ _ t) as [[row col] t1].
    destruct (if negb _ then _ else _) as [[ok cell'] t2].
    destruct (collapse_peers _ _ _ _ t2) as [b2 t3].
    cbn [fst]. apply H. cbn. repeat split; lia.
  - destruct (negb (is_empty_list _)).
    + destruct (Random.choice _ _ t) as [[row col] t1].
      destruct (negb (is_empty_list _)).
      * destruct (Random.choice 0 _ t1) as [x t2]. cbn [fst].
        apply H. cbn. repeat split; lia.
      * destruct (Random.randint 1 9 t1) as [x t2]. cbn [fst].
        apply H. cbn. repeat split; lia.
    + cbn [fst]. apply H. repeat split; lia.
Qed.

Lemma run_session c g t :
  session_step g (run c g t).1
  /\ (player_mistakes (run c g t).1 ≠ player_mistakes g ->
      exists row col v, c = MakeMove row col v).
Proof.
  destruct c as [row col v|row col v|row col v| | | |p|n]; unfold run.
  - pose proof (make_move_session row col v g t) as H.
    destruct (make_move row col v g t) as [[o g'] t']. split; [exact H|eauto].
  - pose proof (use_logic_move_session row col v g t) as [H1 H2].
    destruct (use_logic_move row col v g t) as [[o g'] t']. by split.
  - pose proof (collapse_quantum_cell_session row col v g t) as H.
    destruct (collapse_quantum_cell row col v g t) as [[o g'] t']. cbn [fst snd] in *.
    split; [by apply same_session_step|]. rewrite H. done.
  - destruct (ai_move_session g t) as [H1 H2]. by split.
  - cbn [fst]. destruct (check_game_over_session g) as (H1 & H2 & _). by split.
  - cbn [fst handle_give_up game]. unfold check_ai_moves.
    destruct (existsb _ _); cbn [snd]; (split; [session_fields|done]).
  - cbn [fst]. split; [session_fields|done].
  - pose proof (create_quantum_cells_session n g t) as H.
    split; [by apply same_session_step|]. rewrite H. done.
Qed.

Lemma new_game_fields d t g t' :
  new_game d t = Some (g, t') ->
  player_turn g = true /\ using_logic_move g = false /\ game_over g = false
  /\ difficulty g = d /\ player_mistakes g = 0 /\ ai_mistakes g = 0.
Proof.
  intros Hnew. destruct (new_game_shape d t) as (g1 & Ec & E).
  rewrite E in Hnew. apply some_pair_inj in Hnew as [Hg _]. subst g.
  pose proof (carve_spec _ _ _ _ Ec) as [Honly _]. clear Ec E.
  rewrite Honly. cbn. repeat split.
Qed.

Lemma reachable_flags g :
  reachable g ->
  player_turn g = true /\ using_logic_move g = false
  /\ 0 <= player_mistakes g /\ 0 <= ai_mistakes g.
Proof.
  induction 1 as [d t g t' Hnew|c g t Hr (IH1 & IH2 & IH3 & IH4)].
  - apply new_game_fields in Hnew as (-> & -> & _ & _ & -> & ->). by repeat split.
  - destruct (run_session c g t) as [(S1 & S2 & _ & _ & S5 & S6) _].
    repeat split; [by apply S1|by apply S2|lia|lia].
Qed.

(** X11.  Every new game starts with both mistake counters at 0, with the
    player's turn, the logic-move flag down, the game not over and the
    difficulty it was asked for.  In every session that can arise it is
    the player's turn and the logic-move flag is down: nothing ever takes
    the turn away, and [use_logic_move] lowers its flag before it returns,
    so between commands [is_valid_move] always checks the rules.  The
    mistake counters are never negative and no command lowers them: one
    command raises the player's by at most 1, and only [make_move] does,
    and the AI's by at most 2.  No command changes the difficulty or
    reopens a finished game. *)
Theorem session_flags_and_counters g :
  reachable g ->
  (forall d t g0 t0,
     new_game d t = Some (g0, t0) ->
     player_mistakes g0 = 0 /\ ai_mistakes g0 = 0
     /\ player_turn g0 = true /\ using_logic_move g0 = false
     /\ game_over g0 = false /\ difficulty g0 = d)
  /\ player_turn g = true /\ using_logic_move g = false
  /\ 0 <= player_mistakes g /\ 0 <= ai_mistakes g
  /\ forall c t,
       session_step g (run c g t).1
       /\ (player_mistakes (run c g t).1 ≠ player_mistakes g ->
           exists row col v, c = MakeMove row col v).
Proof.
  intros Hr. split.
  - intros d t g0 t0 Hnew.
    destruct (new_game_fields d t g0 t0 Hnew) as (H1 & H2 & H3 & H4 & H5 & H6).
    clear Hnew. repeat split; assumption.
  - destruct (reachable_flags g Hr) as (H1 & H2 & H3 & H4).
    repeat split; try done; by apply run_session.
Qed.

Lemma session_flags_and_counters_witness :
  (player_mistakes medium_start = 0 /\ ai_mistakes medium_start = 0
   /\ player_turn medium_start = true /\ using_logic_move medium_start = false
   /\ game_over medium_start = false /\ difficulty medium_start = medium)
  /\ player_turn medium_start = true /\ using_logic_move medium_start = false
  /\ 0 <= player_mistakes medium_start /\ 0 <= ai_mistakes medium_start
  /\ forall c t,
       session_step medium_start (run c medium_start t).1
       /\ (player_mistakes (run c medium_start t).1 ≠ player_mistakes medium_start ->
           exists row col v, c = MakeMove row col v).
Proof.
  destruct (session_flags_and_counters medium_start
              (reachable_new medium [] medium_start [] new_game_medium_nil))
    as [Hnew Hrest].
  split; [|exact Hrest].
  exact (Hnew medium [] medium_start [] new_game_medium_nil).
Defined.

(** ** Clicks on the board *)

Lemma cell_of_pixel k d : 0 <= d < 60 -> (60 * k + d) / CELL_SIZE = k.
Proof.
  intros Hd. change CELL_SIZE with 60. symmetry.
  apply (Z.div_unique_pos _ 60 k d); lia.
Qed.

Lemma pixel_outside a : ~ (0 <= a < 540) -> 0 <= a <= 540 ->
  (a / CELL_SIZE <? 9) = false.
Proof.
  intros Hout Hin. assert (a = 540) as -> by lia. reflexivity.
Qed.

(** X12.  A click selects the cell whose 60x60 square contains the pixel:
    during the player's turn of a game that is not over, with no number
    picked, a click at offset (dx, dy) inside the square of cell
    (row, col) selects that cell and changes nothing else.  A click
    outside the 540x540 pixels of the board changes nothing; this includes
    the right and the bottom border line, which pass the first bounds test
    of the handler and are rejected by the second. *)
Theorem handle_board_click_geometry ui t :
  (forall x y, ~ (180 <= x < 720 /\ 50 <= y < 590) ->
     handle_board_click (x, y) ui t = (Return tt, ui, t))
  /\ (player_turn (game ui) = true -> game_over (game ui) = false ->
      selected_num ui = None ->
      forall row col dx dy,
        0 <= row < 9 -> 0 <= col < 9 -> 0 <= dx < 60 -> 0 <= dy < 60 ->
        handle_board_click (180 + 60 * col + dx, 50 + 60 * row + dy) ui t
        = (Return tt,
           mkUI (with_selected_cell (Some (Z.to_nat row, Z.to_nat col)) (game ui))
             None (ai_thinking ui), t)).
Proof.
  split.
  - intros x y Hout. unfold handle_board_click.
    destruct (negb (player_turn (game ui)) || game_over (game ui)); [done|].
    change ((WIDTH - BOARD_SIZE) / 2) with 180. change MARGIN with 50.
    change BOARD_SIZE with 540. cbn [fst snd].
    destruct (Z.leb_spec 180 x); cbn [andb]; [|done].
    destruct (Z.leb_spec x (180 + 540)); cbn [andb]; [|done].
    destruct (Z.leb_spec 50 y); cbn [andb]; [|done].
    destruct (Z.leb_spec y (50 + 540)); cbn [andb]; [|done].
    destruct (decide (0 <= y - 50 < 540)) as [Hy|Hy].
    + assert (Hx : ~ (0 <= x - 180 < 540)) by lia.
      rewrite (pixel_outside (x - 180) Hx) by lia.
      by rewrite !andb_false_r.
    + rewrite (pixel_outside (y - 50) Hy) by lia.
      by rewrite andb_false_r.
  - intros Hturn Hover Hnum row col dx dy Hrow Hcol Hdx Hdy.
    unfold handle_board_click. rewrite Hturn, Hover, Hnum. cbn [negb orb].
    change ((WIDTH - BOARD_SIZE) / 2) with 180. change MARGIN with 50.
    change BOARD_SIZE with 540. cbn [fst snd].
    replace (180 + 60 * col + dx - 180) with (60 * col + dx) by lia.
    replace (50 + 60 * row + dy - 50) with (60 * row + dy) by lia.
    rewrite !cell_of_pixel by done.
    destruct (Z.leb_spec 180 (180 + 60 * col + dx)); [|lia].
    destruct (Z.leb_spec (180 + 60 * col + dx) (180 + 540)); [|lia].
    destruct (Z.leb_spec 50 (50 + 60 * row + dy)); [|lia].
    destruct (Z.leb_spec (50 + 60 * row + dy) (50 + 540)); [|lia].
    destruct (Z.leb_spec 0 row); [|lia]. destruct (Z.ltb_spec row 9); [|lia].
    destruct (Z.leb_spec 0 col); [|lia]. destruct (Z.ltb_spec col 9); [|lia].
    reflexivity.
Qed.

Lemma handle_board_click_geometry_witness :
  handle_board_click (click_at 0 1) (mkUI medium_start None false) []
  = (Return tt,
     mkUI (with_selected_cell (Some (0, 1)%nat) medium_start) None false, []).
Proof.
  apply (proj2 (handle_board_click_geometry (mkUI medium_start None false) [])
           eq_refl eq_refl eq_refl 0 1 30 30); lia.
Defined.

(** ** Entanglement links *)

Lemma links_update f row col b r c :
  links (update_cell f row col b) r c
  = if decide ((r, c) = (row, col))
    then (fun x => entangled_with (f x)) <$> lookup_cell b r c
    else links b r c.
Proof.
  unfold links. destruct (decide _) as [[= -> ->]|Hne].
  - rewrite lookup_cell_update_eq. by destruct (lookup_cell b row col).
  - by rewrite lookup_cell_update_ne.
Qed.

Lemma links_update_same f row col b r c :
  (forall x, lookup_cell b row col = Some x -> entangled_with (f x) = entangled_with x) ->
  links (update_cell f row col b) r c = links b r c.
Proof.
  intros Hf. rewrite links_update. destruct (decide _) as [[= -> ->]|Hne]; [|done].
  unfold links. destruct (lookup_cell b row col) as [x|]; [|done].
  cbn. f_equal. by apply Hf.
Qed.

Lemma links_step_refl g : links_step g g.
Proof. by split. Qed.

Lemma links_step_trans g1 g2 g3 : links_step g1 g2 -> links_step g2 g3 -> links_step g1 g3.
Proof.
  intros [H1 H2] [H3 H4]. split; [|congruence]. intros r c. by rewrite H3, H1.
Qed.

Lemma links_step_ok g g' : links_step g g' -> entanglement_ok g -> entanglement_ok g'.
Proof.
  intros [Hl Hg] (H1 & H2 & H3). unfold entanglement_ok. rewrite Hg.
  split; [|split; [done|]].
  - intros r c l q. rewrite !Hl. intros Hlk Hq.
    destruct (H1 r c l q Hlk Hq) as (Hne & l' & Hl' & Hin). split; [done|].
    by exists l'.
  - intros k m Hk. destruct (H3 k m Hk) as (p & q & -> & Hne & l & Hlk & Hin).
    exists p, q. split; [done|]. split; [done|]. exists l. by rewrite Hl.
Qed.

Lemma links_step_update f row col g :
  (forall x, lookup_cell (board g) row col = Some x ->
     entangled_with (f x) = entangled_with x) ->
  links_step g (with_board (update_cell f row col (board g)) g).
Proof. intros Hf. split; [|done]. intros r c. by apply links_update_same. Qed.

Lemma collapse_links c v t ok c' t' :
  collapse c v t = (ok, c', t') -> entangled_with c' = entangled_with c.
Proof.
  intros E. apply collapse_spec in E as (Hfalse & Htrue & _). destruct ok.
  - by destruct (Htrue eq_refl) as (_ & w & -> & _).
  - by destruct (Hfalse eq_refl) as [-> _].
Qed.

Lemma set_superposition_links vs x :
  entangled_with (set_superposition vs x) = entangled_with x.
Proof. unfold set_superposition. by destruct vs as [|? [|? ?]]. Qed.

Lemma collapse_peer_links row col p b t r c :
  links (collapse_peer row col p b t).1 r c = links b r c.
Proof.
  unfold collapse_peer. destruct p as [orow ocol].
  destruct (is_quantum _); [|done].
  destruct (if mem _ _ then _ else _) as [[ok other'] t'] eqn:E. cbn [fst].
  apply links_update_same. intros x Hx. rewrite (cell_at_lookup _ _ _ _ Hx) in E.
  destruct (mem _ _); by eapply collapse_links.
Qed.

Lemma collapse_peers_links row col peers b t r c :
  links (collapse_peers row col peers b t).1 r c = links b r c.
Proof.
  revert b t. induction peers as [|p peers IH]; intros b t;
    cbn [collapse_peers]; [done|].
  pose proof (collapse_peer_links row col p b t r c) as H1.
  destruct (collapse_peer row col p b t) as [b' t']. cbn [fst] in H1.
  by rewrite IH.
Qed.

Lemma collapse_quantum_cell_links row col v g t :
  links_step g (collapse_quantum_cell row col v g t).1.2.
Proof.
  unfold collapse_quantum_cell.
  destruct (negb (is_quantum _)); [apply links_step_refl|].
  destruct (collapse _ v t) as [[ok cell'] t1] eqn:E.
  destruct ok; cbn [negb]; [|apply links_step_refl].
  pose proof (collapse_peers_links row col (entangled_with cell')
                (update_cell (fun _ => cell') row col (board g)) t1) as H.
  destruct (collapse_peers _ _ _ _ t1) as [b2 t2]. cbn [fst snd] in *.
  split; [|done]. intros r c. cbn [board with_board]. rewrite H.
  apply links_update_same. intros x Hx. rewrite (cell_at_lookup _ _ _ _ Hx) in E.
  by eapply collapse_links.
Qed.

Lemma set_value_links row col v g : links_step g (set_value row col v g).
Proof. apply links_step_update. done. Qed.

Lemma create_entanglement_entangles row col g t :
  is_Some (lookup_cell (board g) row col) ->
  entanglement_ok g -> entanglement_ok (create_entanglement row col g t).1.
Proof.
  intros [x Hx] (H1 & H2 & H3). unfold create_entanglement.
  set (cands := cells_where _ (board g)).
  destruct (is_empty_list cands) eqn:Hc; [done|].
  pose proof (choice_in (0, 0)%nat cands t (is_empty_list_false _ Hc)) as Hin.
  destruct (Random.choice _ cands t) as [[orow ocol] t']. cbn [fst] in *.
  apply cells_where_spec in Hin.
  apply andb_prop in Hin as [Hin _]. apply andb_prop in Hin as [Hne Hq].
  assert (Hdiff : (orow, ocol) ≠ (row, col)).
  { intros [= -> ->]. by rewrite !Nat.eqb_refl in Hne. }
  clear Hne Hc. apply quantum_lookup in Hq.
  set (other := cell_at (board g) orow ocol) in *.
  set (grp := S (size (entanglement_groups g))).
  set (b2 := update_cell _ orow ocol _).
  assert (Hl2 : forall r c,
            links b2 r c
            = if decide ((r, c) = (orow, ocol))
              then Some (entangled_with other ++ [(row, col)])
              else if decide ((r, c) = (row, col))
                   then Some (entangled_with x ++ [(orow, ocol)])
                   else links (board g) r c).
  { intros r c. unfold b2. rewrite links_update.
    destruct (decide ((r, c) = (orow, ocol))) as [[= -> ->]|Hno].
    - rewrite lookup_cell_update_ne by done. by rewrite Hq.
    - rewrite links_update.
      destruct (decide ((r, c) = (row, col))) as [[= -> ->]|Hnx]; [|done].
      by rewrite Hx. }
  assert (Hmono : forall r c l, links (board g) r c = Some l ->
            exists l2, links b2 r c = Some l2 /\ forall q, q ∈ l -> q ∈ l2).
  { intros r c l Hl. rewrite Hl2. unfold links in Hl.
    destruct (decide ((r, c) = (orow, ocol))) as [[= -> ->]|Hno].
    - rewrite Hq in Hl. apply (inj Some) in Hl. subst l.
      eexists. split; [done|]. intros q Hin. apply elem_of_app. by left.
    - destruct (decide ((r, c) = (row, col))) as [[= -> ->]|Hnx].
      + rewrite Hx in Hl. apply (inj Some) in Hl. subst l.
        eexists. split; [done|]. intros q Hin. apply elem_of_app. by left.
      + exists l. by split. }
  assert (Hnone : entanglement_groups g !! grp = None).
  { destruct (entanglement_groups g !! grp) eqn:E; [|done].
    assert (Hs : is_Some (entanglement_groups g !! grp)) by eauto.
    apply H2 in Hs. unfold grp in Hs. lia. }
  unfold entanglement_ok. cbn [board entanglement_groups with_groups with_board].
  fold b2. split; [|split].
  - intros r c l q Hl Hin. rewrite Hl2 in Hl.
    assert (Hold : forall l0, links (board g) r c = Some l0 -> q ∈ l0 ->
              q ≠ (r, c) /\ exists l', links b2 q.1 q.2 = Some l' /\ (r, c) ∈ l').
    { intros l0 Hl0 Hq0. destruct (H1 r c l0 q Hl0 Hq0) as (Hd & l' & Hl' & Hin').
      split; [done|]. destruct (Hmono _ _ _ Hl') as (l2 & Hl2' & Hsub). eauto. }
    destruct (decide ((r, c) = (orow, ocol))) as [[= -> ->]|Hno].
    + apply (inj Some) in Hl. subst l.
      apply elem_of_app in Hin as [Hin|Hin].
      * apply (Hold (entangled_with other)); [|done]. unfold links. by rewrite Hq.
      * apply list_elem_of_singleton in Hin. subst q. split; [done|].
        cbn [fst snd]. rewrite Hl2, decide_False, decide_True by done.
        eexists. split; [done|]. apply elem_of_app. right. by left.
    + destruct (decide ((r, c) = (row, col))) as [[= -> ->]|Hnx].
      * apply (inj Some) in Hl. subst l.
        apply elem_of_app in Hin as [Hin|Hin].
        -- apply (Hold (entangled_with x)); [|done]. unfold links. by rewrite Hx.
        -- apply list_elem_of_singleton in Hin. subst q. split; [done|].
           cbn [fst snd]. rewrite Hl2, decide_True by done.
           eexists. split; [done|]. apply elem_of_app. right. by left.
      * by apply (Hold l).
  - intros k. rewrite lookup_insert_is_Some, H2, map_size_insert_None by done.
    fold grp. split.
    + intros [<-|[Hk Hr]]; lia.
    + intros Hk. destruct (decide (grp = k)); [by left|right]. split; [done|]. lia.
  - intros k m Hk. apply lookup_insert_Some in Hk as [[<- <-]|[Hk Hm]].
    + exists (row, col), (orow, ocol). split; [done|]. split; [done|].
      cbn [fst snd]. rewrite Hl2, decide_False, decide_True by done.
      eexists. split; [done|]. apply elem_of_app. right. by left.
    + destruct (H3 k m Hm) as (p & q & -> & Hd & l & Hl & Hin).
      exists p, q. split; [done|]. split; [done|].
      destruct (Hmono _ _ _ Hl) as (l2 & Hl2' & Hsub). eauto.
Qed.

Lemma make_quantum_links row col g t :
  is_Some (lookup_cell (board g) row col) ->
  entanglement_ok g -> entanglement_ok (make_quantum row col g t).1.
Proof.
  intros Hsome Hok. unfold make_quantum.
  destruct (is_empty_list _); [done|].
  destruct (if is_easy _ then _ else _) as [k t1].
  destruct (Random.sample _ _ t1) as [chosen t2].
  destruct (Random.random t2) as [x t3].
  set (g1 := with_board _ g).
  assert (H1 : links_step g g1).
  { apply links_step_update. intros y _. apply set_superposition_links. }
  destruct (x <? 500); [|by eapply links_step_ok].
  apply create_entanglement_entangles; [|by eapply links_step_ok].
  unfold g1. cbn [board with_board]. rewrite lookup_cell_update_eq.
  destruct Hsome as [y ->]. by eexists.
Qed.

Lemma make_quantum_all_links cells g t :
  board_ok (board g) -> Forall (fun p => p ∈ all_cells) cells ->
  entanglement_ok g -> entanglement_ok (make_quantum_all cells g t).1.
Proof.
  revert g t. induction cells as [|[row col] cells IH]; intros g t Hb Hcells Hok;
    cbn [make_quantum_all]; [done|].
  apply Forall_cons in Hcells as [Hin Hcells]. apply in_all_cells in Hin as [Hr Hc].
  pose proof (make_quantum_links row col g t
                (board9_lookup _ _ _ (proj1 Hb) Hr Hc) Hok) as H1.
  pose proof (make_quantum_ok row col g t Hb) as H2.
  destruct (make_quantum row col g t) as [g' t']. by apply IH.
Qed.

Lemma cells_where_in p b r c : (r, c) ∈ cells_where p b -> (r, c) ∈ all_cells.
Proof.
  unfold cells_where. rewrite !list_elem_of_In, filter_In. by intros [H _].
Qed.

Lemma create_quantum_cells_links n g t :
  board_ok (board g) -> entanglement_ok g ->
  entanglement_ok (create_quantum_cells n g t).1.
Proof.
  intros Hb Hok. unfold create_quantum_cells.
  set (cands := cells_where _ (board g)).
  pose proof (shuffle_subset cands t) as Hsub.
  destruct (Random.shuffle cands t) as [shuffled t']. cbn [fst] in Hsub.
  apply make_quantum_all_links; [done| |done].
  apply Forall_forall. intros [r c] Hin.
  apply elem_of_take in Hin as (i & Hi & _).
  apply list_elem_of_lookup_2, Hsub in Hi. by eapply cells_where_in.
Qed.

Lemma make_move_links row col v g t : links_step g (make_move row col v g t).1.2.
Proof.
  unfold make_move.
  destruct (lookup_cell (board g) row col) as [cell|]; [|apply links_step_refl].
  destruct (locked cell); [apply links_step_refl|].
  destruct (collapsed cell).
  - destruct (value cell =? 0).
    + destruct (is_valid_move g row col v true); cbn [fst snd].
      * apply set_value_links.
      * by split.
    + destruct (Random.random t) as [x t']. destruct (x <? 200); apply links_step_refl.
  - pose proof (collapse_quantum_cell_links row col (Some v) g t) as H.
    by destruct (collapse_quantum_cell row col (Some v) g t) as [[ok g'] t'].
Qed.

Lemma links_step_flags g g' :
  links_step g g' ->
  forall u n, links_step g (with_logic_moves n (with_using_logic_move u g')).
Proof. intros H u n. exact H. Qed.

Lemma entanglement_ok_flags g u n :
  entanglement_ok g -> entanglement_ok (with_logic_moves n (with_using_logic_move u g)).
Proof. intros H. exact H. Qed.

Lemma use_logic_move_links row col v g t :
  entanglement_ok g -> entanglement_ok (use_logic_move row col v g t).1.2.
Proof.
  intros Hok. unfold use_logic_move.
  destruct (logic_moves_remaining g <=? 0); [done|].
  destruct (lookup_cell (board g) row col) as [cell|] eqn:Hc; [|done].
  destruct (locked cell); [done|].
  assert (Hok0 : entanglement_ok (with_using_logic_move true g)) by exact Hok.
  destruct (collapsed cell); [destruct (value cell =? 0)|].
  - destruct (match v with Some x => _ | None => _ end) as [x t'].
    cbn [fst snd]. apply entanglement_ok_flags.
    eapply links_step_ok; [apply set_value_links|done].
  - destruct (Random.randint 1 3 t) as [k t1].
    destruct (Random.sample _ _ t1) as [chosen t2].
    set (g1 := with_board _ (with_using_logic_move true g)).
    assert (H1 : entanglement_ok g1).
    { eapply links_step_ok; [|exact Hok0]. apply links_step_update.
      intros y _. apply set_superposition_links. }
    destruct (Random.random t2) as [x t3].
    destruct (x <? 500); [|by apply entanglement_ok_flags].
    pose proof (create_entanglement_entangles row col g1 t3) as H2.
    destruct (create_entanglement row col g1 t3) as [g2 t4].
    cbn [fst snd] in *. apply entanglement_ok_flags. apply H2; [|done].
    unfold g1. cbn [board with_board with_using_logic_move].
    rewrite lookup_cell_update_eq, Hc. by eexists.
  - destruct (match v with Some x => _ | None => _ end) as [[ok cell'] t'] eqn:E.
    cbn [fst snd]. apply entanglement_ok_flags.
    eapply links_step_ok; [|exact Hok0]. apply links_step_update.
    intros x Hx. cbn [board with_using_logic_move] in Hx.
    assert (x = cell) as -> by congruence.
    destruct v as [x0|]; [destruct (mem x0 _)|]; by eapply collapse_links.
Qed.

Lemma check_game_over_links g : links_step g (check_game_over g).
Proof.
  split; [by rewrite check_game_over_board|].
  unfold check_game_over, check_ai_moves.
  destruct (all_filled g); [|done].
  destruct (existsb _ _), (is_board_solved g); cbn [negb andb];
    repeat match goal with
           | |- context [if ?a then _ else _] => destruct a
           end; reflexivity.
Qed.

Lemma ai_move_links g t : links_step g (ai_move g t).1.
Proof.
  unfold ai_move.
  destruct (game_over g); [apply links_step_refl|].
  destruct (negb (is_empty_list (cells_where (fun _ _ cell => is_quantum cell) _))).
  - destruct (Random.choice _ _ t) as [[row col] t1].
    destruct (if negb (is_empty_list _) then _ else _) as [[ok cell'] t2] eqn:E.
    assert (Hl : entangled_with cell' = entangled_with (cell_at (board g) row col)).
    { destruct (negb _) in E.
      - destruct (Random.choice 0 _ t1) as [x t']. by eapply collapse_links.
      - by eapply collapse_links. }
    pose proof (collapse_peers_links row col (entangled_with cell')
                  (update_cell (fun _ => cell') row col (board g)) t2) as H2.
    destruct (collapse_peers _ _ _ _ t2) as [b2 t3]. cbn [fst] in *.
    eapply links_step_trans; [|apply check_game_over_links].
    split; [|done]. intros r c. cbn [board with_player_turn with_board].
    rewrite H2. apply links_update_same. intros x Hx.
    by rewrite Hl, (cell_at_lookup _ _ _ _ Hx).
  - destruct (negb (is_empty_list _)).
    + destruct (Random.choice _ _ t) as [[row col] t1].
      destruct (negb (is_empty_list _)).
      * destruct (Random.choice 0 _ t1) as [x t2]. cbn [fst].
        eapply links_step_trans; [|apply check_game_over_links].
        apply (set_value_links row col x g).
      * destruct (Random.randint 1 9 t1) as [x t2]. cbn [fst].
        eapply links_step_trans; [|apply check_game_over_links].
        apply (set_value_links row col x g).
    + cbn [fst]. eapply links_step_trans; [|apply check_game_over_links]. done.
Qed.

Lemma run_links c g t :
  board_ok (board g) -> entanglement_ok g -> entanglement_ok (run c g t).1.
Proof.
  intros Hb Hok. destruct c as [row col v|row col v|row col v| | | |p|n]; unfold run.
  - pose proof (make_move_links row col v g t) as H.
    destruct (make_move row col v g t) as [[o g'] t']. by eapply links_step_ok.
  - pose proof (use_logic_move_links row col v g t Hok) as H.
    by destruct (use_logic_move row col v g t) as [[o g'] t'].
  - pose proof (collapse_quantum_cell_links row col v g t) as H.
    destruct (collapse_quantum_cell row col v g t) as [[o g'] t'].
    by eapply links_step_ok.
  - eapply links_step_ok; [apply ai_move_links|done].
  - eapply links_step_ok; [apply check_game_over_links|done].
  - cbn [fst handle_give_up game]. unfold check_ai_moves.
    by destruct (existsb _ _).
  - done.
  - by apply create_quantum_cells_links.
Qed.

Lemma new_game_links d t g t' : new_game d t = Some (g, t') -> entanglement_ok g.
Proof.
  intros Hnew. destruct (new_game_shape d t) as (g1 & Ec & E).
  rewrite E in Hnew. apply some_pair_inj in Hnew as [Hg _]. subst g.
  pose proof (carve_spec _ _ _ _ Ec) as [Honly Hplain]. clear Ec E.
  specialize (Hplain solved_board_plain).
  assert (Hnil : forall r c l,
            links (update_cells lock_given all_cells (board g1)) r c = Some l -> l = []).
  { intros r c l. unfold links.
    destruct (lookup_cell _ r c) as [y|] eqn:Ey; [|discriminate].
    intros H. apply (inj Some) in H. subst l.
    assert (Hp : board_all (fun y => entangled_with y = [])
                   (update_cells lock_given all_cells (board g1))).
    { apply update_cells_all.
      - eapply board_all_impl; [exact Hplain|]. intros z (_ & _ & _ & Hz & _). exact Hz.
      - intros z Hz. unfold lock_given. by destruct (negb _). }
    by eapply Hp. }
  unfold entanglement_ok. cbn [board with_board entanglement_groups].
  assert (Hg : entanglement_groups g1 = ∅) by (rewrite Honly; reflexivity).
  rewrite Hg. split; [|split].
  - intros r c l q Hl Hin. apply Hnil in Hl. subst l. by apply elem_of_nil in Hin.
  - intros k. rewrite lookup_empty, map_size_empty. split; [by intros [? ?]|lia].
  - intros k m Hk. by rewrite lookup_empty in Hk.
Qed.

Lemma reachable_links g : reachable g -> entanglement_ok g.
Proof.
  induction 1 as [d t g t' Hnew|c g t Hr IH].
  - by eapply new_game_links.
  - apply run_links; [by apply reachable_ok|done].
Qed.

Lemma board9_lookup_lt b r c x :
  board9 b -> lookup_cell b r c = Some x -> (r < 9)%nat /\ (c < 9)%nat.
Proof.
  intros [Hl Hr]. unfold lookup_cell.
  destruct (b !! r) as [rw|] eqn:E; [|done]. intros Hx.
  apply lookup_lt_Some in Hx. pose proof (lookup_lt_Some _ _ _ E).
  rewrite (Forall_lookup_1 _ _ _ _ Hr E) in Hx. lia.
Qed.

(** X13.  In every session that can arise the entanglement links are
    symmetric: a cell that lists another position is listed by the cell at
    that position, which is on the board and is a different cell.  The
    keys of the group table are 1..n, so the id that [create_entanglement]
    takes next is never in use, and every group is a pair of two different
    cells of which the first lists the second. *)
Theorem reachable_entanglement_symmetric g r c x q :
  reachable g -> lookup_cell (board g) r c = Some x -> q ∈ entangled_with x ->
  q ∈ all_cells /\ q ≠ (r, c)
  /\ (exists y, lookup_cell (board g) q.1 q.2 = Some y /\ (r, c) ∈ entangled_with y)
  /\ (forall k, is_Some (entanglement_groups g !! k)
               <-> (1 <= k <= size (entanglement_groups g))%nat)
  /\ (forall k m, entanglement_groups g !! k = Some m ->
        exists p p', m = [p; p'] /\ p ≠ p'
                     /\ p' ∈ entangled_with (cell_at (board g) p.1 p.2)).
Proof.
  intros Hr Hx Hq. destruct (reachable_links g Hr) as (H1 & H2 & H3).
  destruct (reachable_ok g Hr) as [H9 _].
  destruct (H1 r c (entangled_with x) q) as (Hne & l' & Hl' & Hin);
    [unfold links; by rewrite Hx|done|].
  unfold links in Hl'. destruct (lookup_cell (board g) q.1 q.2) as [y|] eqn:Ey;
    [|discriminate]. apply (inj Some) in Hl'. subst l'.
  split; [|split; [done|split; [by exists y|split; [done|]]]].
  - destruct q as [qr qc]. apply in_all_cells. by eapply board9_lookup_lt.
  - intros k m Hk. destruct (H3 k m Hk) as (p & p' & -> & Hd & l & Hl & Hin').
    exists p, p'. split; [done|]. split; [done|]. unfold links in Hl.
    unfold cell_at. destruct (lookup_cell (board g) p.1 p.2) as [z|]; [|discriminate].
    apply (inj Some) in Hl. by subst l.
Qed.

Lemma reachable_entanglement_symmetric_witness :
  (0, 2)%nat ∈ all_cells /\ (0, 2)%nat ≠ (0, 1)%nat
  /\ (exists y, lookup_cell (board entangled_pair) 0 2 = Some y
                /\ (0, 1)%nat ∈ entangled_with y)
  /\ (forall k, is_Some (entanglement_groups entangled_pair !! k)
               <-> (1 <= k <= size (entanglement_groups entangled_pair))%nat)
  /\ (forall k m, entanglement_groups entangled_pair !! k = Some m ->
        exists p p', m = [p; p'] /\ p ≠ p'
                     /\ p' ∈ entangled_with (cell_at (board entangled_pair) p.1 p.2)).
Proof.
  apply (reachable_entanglement_symmetric entangled_pair 0 1
           (cell_at (board entangled_pair) 0 1) (0, 2)%nat).
  - exact entangled_pair_is_reachable.
  - vm_compute. reflexivity.
  - replace (entangled_with (cell_at (board entangled_pair) 0 1)) with [(0, 2)%nat]
      by (vm_compute; reflexivity).
    left.
Defined.

(** ** Progress of the AI turn *)

Lemma filter_length_lt {A} (p q : A -> bool) (a : A) l :
  (forall x, q x = true -> p x = true) ->
  a ∈ l -> p a = true -> q a = false ->
  (length (List.filter q l) < length (List.filter p l))%nat.
Proof.
  intros Hqp Hin Hp Hq.
  assert (Hle : forall l', (length (List.filter q l') <= length (List.filter p l'))%nat).
  { induction l' as [|x l' IH]; simpl; [lia|].
    destruct (q x) eqn:Eq; [rewrite (Hqp x Eq); simpl; lia|].
    destruct (p x); simpl; lia. }
  induction l as [|x l IH]; [by apply elem_of_nil in Hin|].
  apply elem_of_cons in Hin as [->|Hin]; simpl.
  - rewrite Hp, Hq. simpl. specialize (Hle l). lia.
  - specialize (IH Hin). destruct (q x) eqn:Eq; [rewrite (Hqp x Eq); simpl; lia|].
    destruct (p x); simpl; lia.
Qed.

Lemma filter_length_one_less `{EqDecision A} (p q : A -> bool) (a : A) l :
  NoDup l -> a ∈ l -> p a = true -> q a = false ->
  (forall x, x ≠ a -> q x = p x) ->
  S (length (List.filter q l)) = length (List.filter p l).
Proof.
  intros Hnd Hin Hp Hq Hsame.
  induction Hnd as [|x l Hx Hnd IH]; [by apply elem_of_nil in Hin|].
  simpl. destruct (decide (x = a)) as [->|Hne].
  - rewrite Hp, Hq. simpl. f_equal. f_equal.
    apply filter_ext_in. intros y Hy. apply Hsame. intros ->.
    by apply Hx, list_elem_of_In.
  - apply elem_of_cons in Hin as [->|Hin]; [done|].
    rewrite (Hsame x Hne). destruct (p x); simpl; rewrite <- (IH Hin); done.
Qed.

Lemma filter_nil_inv {A} (p : A -> bool) l :
  length (List.filter p l) = 0%nat -> forall x, x ∈ l -> p x = false.
Proof.
  intros Hlen x Hin. destruct (p x) eqn:E; [|done].
  assert (x ∈ List.filter p l) as Hx.
  { apply list_elem_of_In, filter_In. split; [by apply list_elem_of_In|done]. }
  destruct (List.filter p l); [by apply elem_of_nil in Hx|discriminate].
Qed.

Lemma randint_range a b t :
  a <= b -> a <= (Random.randint a b t).1 <= b.
Proof.
  intros Hab. unfold Random.randint.
  pose proof (randbelow_lt (Z.to_nat (b - a + 1)) t) as Hlt.
  destruct (Random.randbelow _ t) as [x t']. cbn [fst] in *. lia.
Qed.

Lemma check_game_over_full g : all_filled g = true -> game_over (check_game_over g) = true.
Proof.
  intros Hfull. unfold check_game_over, check_ai_moves. rewrite Hfull.
  destruct (existsb _ _), (is_board_solved g); cbn [negb andb];
    repeat match goal with
           | |- context [if ?a then _ else _] => destruct a
           end; reflexivity.
Qed.

(** The three cases of an AI turn on a game that is not over. *)
Lemma ai_move_cases g t :
  game_over g = false ->
  (cells_where (fun _ _ cell => is_quantum cell) (board g) ≠ [] ->
   exists row col,
     (row, col) ∈ all_cells
     /\ is_quantum (cell_at (board g) row col) = true
     /\ is_quantum (cell_at (board (ai_move g t).1) row col) = false
     /\ (forall r c, is_quantum (cell_at (board g) r c) = false ->
           cell_at (board (ai_move g t).1) r c = cell_at (board g) r c)
     /\ forall r c,
          cell_at (board (ai_move g t).1) r c = cell_at (board g) r c
          \/ (is_quantum (cell_at (board g) r c) = true
              /\ exists w, w ∈ superposition (cell_at (board g) r c)
                           /\ cell_at (board (ai_move g t).1) r c
                              = collapse_to w (cell_at (board g) r c)))
  /\ (cells_where (fun _ _ cell => is_quantum cell) (board g) = [] ->
      cells_where (fun _ _ cell => collapsed cell && (value cell =? 0)) (board g) ≠ [] ->
      exists row col x,
        (row, col) ∈ all_cells
        /\ collapsed (cell_at (board g) row col) = true
        /\ value (cell_at (board g) row col) = 0
        /\ 1 <= x <= 9
        /\ board (ai_move g t).1 = update_cell (with_value x) row col (board g))
  /\ (cells_where (fun _ _ cell => is_quantum cell) (board g) = [] ->
      cells_where (fun _ _ cell => collapsed cell && (value cell =? 0)) (board g) = [] ->
      (ai_move g t).1 = check_game_over (with_player_turn true g)).
Proof.
  intros Hover. unfold ai_move. rewrite Hover.
  set (qs := cells_where (fun _ _ cell => is_quantum cell) (board g)).
  set (es := cells_where (fun _ _ cell => collapsed cell && (value cell =? 0))
               (board g)).
  split; [|split].
  - intros Hq. destruct (is_empty_list qs) eqn:Eq;
      [by apply is_empty_list_true in Eq|]. cbn [negb].
    pose proof (choice_in (0, 0)%nat qs t Hq) as Hin.
    destruct (Random.choice _ qs t) as [[row col] t1]. cbn [fst] in Hin.
    pose proof (cells_where_in _ _ _ _ Hin) as Hall.
    apply cells_where_spec in Hin.
    set (cell := cell_at (board g) row col) in *.
    destruct (if negb (is_empty_list _) then _ else _) as [[ok cell'] t2] eqn:E.
    assert (Hc : exists w, w ∈ superposition cell /\ cell' = collapse_to w cell).
    { destruct (is_empty_list (List.filter _ (superposition cell))) eqn:Ev;
        cbn [negb] in E.
      - apply collapse_spec in E as (_ & Htrue & Hconv).
        destruct (Htrue (Hconv Hin ltac:(done))) as (_ & w & -> & Hw & _).
        by exists w.
      - pose proof (choice_in 0 _ t1 (is_empty_list_false _ Ev)) as Hx.
        destruct (Random.choice 0 _ t1) as [x t']. cbn [fst] in Hx.
        apply list_elem_of_In, filter_In in Hx as [Hx _].
        apply collapse_spec in E as (_ & Htrue & Hconv).
        destruct (Htrue (Hconv Hin ltac:(intros ? [= <-]; by apply list_elem_of_In)))
          as (_ & w & -> & Hw & _). by exists w. }
    destruct Hc as (w & Hw & ->). cbn [entangled_with collapse_to].
    set (b1 := update_cell (fun _ => collapse_to w cell) row col (board g)).
    destruct (collapse_peers row col (entangled_with cell) b1 t2) as [b2 t3] eqn:Ep.
    cbn [fst]. rewrite check_game_over_board. cbn [board with_player_turn with_board].
    assert (H1 : cell_at b1 row col = collapse_to w cell).
    { unfold b1. rewrite (cell_at_update_eq _ _ _ _ cell); [done|].
      by apply quantum_lookup. }
    apply collapse_peers_spec in Ep as (Hkeep & Hout & Hres);
      [|rewrite H1; apply collapse_to_not_quantum].
    assert (Hother : forall r c, (r, c) ≠ (row, col) ->
              cell_at b1 r c = cell_at (board g) r c).
    { intros r c Hne. unfold b1. by rewrite cell_at_update_ne. }
    exists row, col. split; [done|]. split; [done|]. split; [|split].
    + rewrite Hkeep; rewrite H1; apply collapse_to_not_quantum.
    + intros r c Hnq. assert (Hne : (r, c) ≠ (row, col)).
      { intros [= -> ->]. fold cell in Hnq. congruence. }
      rewrite Hkeep; [by apply Hother|by rewrite Hother].
    + intros r c. destruct (decide ((r, c) = (row, col))) as [[= -> ->]|Hne].
      * right. split; [done|]. exists w. split; [done|].
        rewrite Hkeep; [done|]. rewrite H1. apply collapse_to_not_quantum.
      * destruct (is_quantum (cell_at (board g) r c)) eqn:Eq'.
        -- destruct (decide ((r, c) ∈ entangled_with cell)) as [Hin'|Hnin].
           ++ right. split; [done|].
              destruct (Hres r c Hin') as (w' & Hcell & Hw' & _);
                [by rewrite Hother|].
              rewrite Hother in Hcell, Hw' by done. by exists w'.
           ++ left. rewrite Hout by done. by apply Hother.
        -- left. rewrite Hkeep; [by apply Hother|by rewrite Hother].
  - intros Hq He. rewrite Hq. cbn [is_empty_list negb].
    destruct (is_empty_list es) eqn:Ee; [by apply is_empty_list_true in Ee|].
    cbn [negb].
    pose proof (choice_in (0, 0)%nat es t He) as Hin.
    destruct (Random.choice _ es t) as [[row col] t1]. cbn [fst] in Hin.
    pose proof (cells_where_in _ _ _ _ Hin) as Hall.
    apply cells_where_spec, andb_prop in Hin as [Hcol Hv]. apply Z.eqb_eq in Hv.
    destruct (is_empty_list (List.filter _ nums)) eqn:Ev; cbn [negb].
    + pose proof (randint_range 1 9 t1 ltac:(lia)) as Hx.
      destruct (Random.randint 1 9 t1) as [x t2]. cbn [fst] in *.
      rewrite check_game_over_board. exists row, col, x.
      repeat split; try done; lia.
    + pose proof (choice_in 0 _ t1 (is_empty_list_false _ Ev)) as Hx.
      destruct (Random.choice 0 _ t1) as [x t2]. cbn [fst] in *.
      apply list_elem_of_In, filter_In in Hx as [Hx _].
      apply list_elem_of_In, elem_of_nums in Hx.
      rewrite check_game_over_board. exists row, col, x.
      repeat split; try done; lia.
  - intros Hq He. by rewrite Hq, He.
Qed.

Lemma count_quantum_def b :
  count_quantum b = length (cells_where (fun _ _ cell => is_quantum cell) b).
Proof. reflexivity. Qed.

Lemma count_empty_def b :
  count_empty b
  = length (cells_where (fun _ _ cell => collapsed cell && (value cell =? 0)) b).
Proof. reflexivity. Qed.

Lemma count_quantum_pos b :
  (0 < count_quantum b)%nat -> cells_where (fun _ _ cell => is_quantum cell) b ≠ [].
Proof. rewrite count_quantum_def. destruct (cells_where _ b); simpl; [lia|done]. Qed.

Lemma count_quantum_zero b :
  count_quantum b = 0%nat -> cells_where (fun _ _ cell => is_quantum cell) b = [].
Proof. rewrite count_quantum_def. by destruct (cells_where _ b). Qed.

Lemma count_empty_pos b :
  (0 < count_empty b)%nat ->
  cells_where (fun _ _ cell => collapsed cell && (value cell =? 0)) b ≠ [].
Proof. rewrite count_empty_def. destruct (cells_where _ b); simpl; [lia|done]. Qed.

Lemma count_empty_zero b :
  count_empty b = 0%nat ->
  cells_where (fun _ _ cell => collapsed cell && (value cell =? 0)) b = [].
Proof. rewrite count_empty_def. by destruct (cells_where _ b). Qed.

Lemma count_quantum_eq b :
  count_quantum b
  = length (List.filter (fun '(r, c) => is_quantum (cell_at b r c)) all_cells).
Proof. reflexivity. Qed.

Lemma count_empty_eq b :
  count_empty b
  = length (List.filter (fun '(r, c) => collapsed (cell_at b r c)
                                        && (value (cell_at b r c) =? 0)) all_cells).
Proof. reflexivity. Qed.

Lemma closed_board_filled g :
  board_all well_formed (board g) ->
  count_quantum (board g) = 0%nat -> count_empty (board g) = 0%nat ->
  all_filled g = true.
Proof.
  intros Hwf Hq He. unfold all_filled. apply forallb_elem_of. intros [r c] Hin.
  rewrite count_quantum_eq in Hq. rewrite count_empty_eq in He.
  pose proof (filter_nil_inv
                (fun '(r, c) => is_quantum (cell_at (board g) r c)) all_cells
                Hq (r, c) Hin) as H1.
  pose proof (filter_nil_inv
                (fun '(r, c) => collapsed (cell_at (board g) r c)
                                && (value (cell_at (board g) r c) =? 0)) all_cells
                He (r, c) Hin) as H2.
  cbv beta iota in H1, H2. clear Hq He Hin.
  rewrite H2. cbn [negb andb].
  destruct (well_formed_cell_at (board g) r c Hwf) as [[Hc _]|(Hc & _ & Hl)];
    [exact Hc|].
  unfold is_quantum in H1. rewrite Hc in H1.
  destruct (superposition (cell_at (board g) r c));
    [cbn [length] in Hl; lia|discriminate H1].
Qed.

(** The three cases of an AI turn, counted. *)
Lemma ai_move_counts g t :
  reachable g -> game_over g = false ->
  ((0 < count_quantum (board g))%nat ->
   (count_quantum (board (ai_move g t).1) < count_quantum (board g))%nat)
  /\ (count_quantum (board g) = 0%nat -> (0 < count_empty (board g))%nat ->
      count_quantum (board (ai_move g t).1) = 0%nat
      /\ S (count_empty (board (ai_move g t).1)) = count_empty (board g))
  /\ (count_quantum (board g) = 0%nat -> count_empty (board g) = 0%nat ->
      board (ai_move g t).1 = board g /\ game_over (ai_move g t).1 = true).
Proof.
  intros Hr Hover. destruct (ai_move_cases g t Hover) as (Hc1 & Hc2 & Hc3).
  split; [|split].
  - intros Hq. pose proof (count_quantum_pos _ Hq) as Hq'.
    destruct (Hc1 Hq') as (row & col & Hin & Hbefore & Hafter & Hkeep & _).
    rewrite !count_quantum_eq.
    apply (filter_length_lt _ _ (row, col)); [|done|done|done].
    intros [r c] Hrc. destruct (is_quantum (cell_at (board g) r c)) eqn:E; [done|].
    by rewrite (Hkeep r c E), E in Hrc.
  - intros Hq He. pose proof (count_empty_pos _ He) as He'.
    pose proof (count_quantum_zero _ Hq) as Hq0.
    destruct (Hc2 Hq0 He') as (row & col & x & Hin & Hcol & Hv & Hx & ->).
    assert (Hlook : is_Some (lookup_cell (board g) row col)).
    { apply in_all_cells in Hin as [? ?].
      apply board9_lookup; [apply (reachable_ok g Hr)|done..]. }
    destruct Hlook as [y Hy]. pose proof (cell_at_lookup _ _ _ _ Hy) as Hy'.
    assert (Hnew : cell_at (update_cell (with_value x) row col (board g)) row col
                   = with_value x y) by (by apply cell_at_update_eq).
    split.
    + rewrite count_quantum_eq in *. rewrite <- Hq. f_equal.
      apply filter_ext. intros [r c].
      destruct (decide ((r, c) = (row, col))) as [[= -> ->]|Hne].
      * rewrite Hnew, Hy'. reflexivity.
      * by rewrite cell_at_update_ne.
    + rewrite !count_empty_eq.
      apply (filter_length_one_less _ _ (row, col)); [exact all_cells_NoDup|done| | |].
      * by rewrite Hcol, Hv.
      * rewrite Hnew. cbn [value with_value].
        apply andb_false_iff. right. apply Z.eqb_neq. lia.
      * intros [r c] Hne. by rewrite cell_at_update_ne.
  - intros Hq He. rewrite (Hc3 (count_quantum_zero _ Hq) (count_empty_zero _ He)).
    split; [by rewrite check_game_over_board|].
    apply check_game_over_full. apply closed_board_filled; [|done|done].
    apply (reachable_ok g Hr).
Qed.

(** X14.  An AI turn on a game that is not over always makes progress.
    While a cell is in superposition the turn resolves at least one cell
    of the board that was in superposition, and the number of superposed
    cells drops; it leaves every cell that was not in superposition as it
    was, and each cell it changes is resolved to one of that cell's own
    candidates.  Otherwise, while a cell is empty, the turn writes a
    number of 1..9 into one resolved empty cell of the board and changes
    nothing else of the board: no cell enters superposition and the
    number of empty cells drops by one.  Otherwise the board is full: the
    turn leaves it as it is and ends the game. *)
Theorem ai_move_progress g t :
  reachable g -> game_over g = false ->
  ((0 < count_quantum (board g))%nat ->
   (count_quantum (board (ai_move g t).1) < count_quantum (board g))%nat
   /\ exists row col,
        (row, col) ∈ all_cells
        /\ is_quantum (cell_at (board g) row col) = true
        /\ is_quantum (cell_at (board (ai_move g t).1) row col) = false
        /\ (forall r c, is_quantum (cell_at (board g) r c) = false ->
              cell_at (board (ai_move g t).1) r c = cell_at (board g) r c)
        /\ forall r c,
             cell_at (board (ai_move g t).1) r c = cell_at (board g) r c
             \/ (is_quantum (cell_at (board g) r c) = true
                 /\ exists w, w ∈ superposition (cell_at (board g) r c)
                              /\ cell_at (board (ai_move g t).1) r c
                                 = collapse_to w (cell_at (board g) r c)))
  /\ (count_quantum (board g) = 0%nat -> (0 < count_empty (board g))%nat ->
      count_quantum (board (ai_move g t).1) = 0%nat
      /\ S (count_empty (board (ai_move g t).1)) = count_empty (board g)
      /\ exists row col x,
           (row, col) ∈ all_cells
           /\ collapsed (cell_at (board g) row col) = true
           /\ value (cell_at (board g) row col) = 0
           /\ 1 <= x <= 9
           /\ board (ai_move g t).1 = update_cell (with_value x) row col (board g))
  /\ (count_quantum (board g) = 0%nat -> count_empty (board g) = 0%nat ->
      board (ai_move g t).1 = board g /\ game_over (ai_move g t).1 = true).
Proof.
  intros Hr Hover.
  destruct (ai_move_counts g t Hr Hover) as (Hn1 & Hn2 & Hn3).
  destruct (ai_move_cases g t Hover) as (Hc1 & Hc2 & _).
  split; [|split].
  - intros Hq. split; [exact (Hn1 Hq)|].
    exact (Hc1 (count_quantum_pos _ Hq)).
  - intros Hq He. destruct (Hn2 Hq He) as [Hq' He'].
    split; [exact Hq'|]. split; [exact He'|].
    exact (Hc2 (count_quantum_zero _ Hq) (count_empty_pos _ He)).
  - exact Hn3.
Qed.

Lemma ai_move_progress_witness :
  ((0 < count_quantum (board entangled_pair))%nat ->
   (count_quantum (board (ai_move entangled_pair []).1)
    < count_quantum (board entangled_pair))%nat
   /\ exists row col,
        (row, col) ∈ all_cells
        /\ is_quantum (cell_at (board entangled_pair) row col) = true
        /\ is_quantum (cell_at (board (ai_move entangled_pair []).1) row col) = false
        /\ (forall r c, is_quantum (cell_at (board entangled_pair) r c) = false ->
              cell_at (board (ai_move entangled_pair []).1) r c
              = cell_at (board entangled_pair) r c)
        /\ forall r c,
             cell_at (board (ai_move entangled_pair []).1) r c
             = cell_at (board entangled_pair) r c
             \/ (is_quantum (cell_at (board entangled_pair) r c) = true
                 /\ exists w, w ∈ superposition (cell_at (board entangled_pair) r c)
                              /\ cell_at (board (ai_move entangled_pair []).1) r c
                                 = collapse_to w (cell_at (board entangled_pair) r c)))
  /\ (count_quantum (board entangled_pair) = 0%nat ->
      (0 < count_empty (board entangled_pair))%nat ->
      count_quantum (board (ai_move entangled_pair []).1) = 0%nat
      /\ S (count_empty (board (ai_move entangled_pair []).1))
         = count_empty (board entangled_pair)
      /\ exists row col x,
           (row, col) ∈ all_cells
           /\ collapsed (cell_at (board entangled_pair) row col) = true
           /\ value (cell_at (board entangled_pair) row col) = 0
           /\ 1 <= x <= 9
           /\ board (ai_move entangled_pair []).1
              = update_cell (with_value x) row col (board entangled_pair))
  /\ (count_quantum (board entangled_pair) = 0%nat ->
      count_empty (board entangled_pair) = 0%nat ->
      board (ai_move entangled_pair []).1 = board entangled_pair
      /\ game_over (ai_move entangled_pair []).1 = true).
Proof.
  apply (ai_move_progress entangled_pair []).
  - exact entangled_pair_is_reachable.
  - vm_compute. reflexivity.
Defined.

(** ** The two constraint checkers *)

(** X15.  The checker of the solution counter against the checker of the
    moves, on a board whose cells are all resolved, with no logic move in
    progress, and for a number that the cell itself does not hold:
    whatever [is_valid_move] accepts
    without candidate checking, [is_valid_in_board] accepts on the copied
    values; off the two diagonals the converse holds as well.  On a
    diagonal [is_valid_move] is the stricter one. *)
Theorem checkers_agree g r c num :
  (r < 9)%nat -> (c < 9)%nat -> using_logic_move g = false ->
  (forall r' c', (r' < 9)%nat -> (c' < 9)%nat ->
     collapsed (cell_at (board g) r' c') = true) ->
  value (cell_at (board g) r c) ≠ num ->
  (is_valid_move g r c num false = true ->
   is_valid_in_board (board_copy (board g)) r c num = true)
  /\ (r ≠ c -> (r + c)%nat ≠ 8%nat ->
      is_valid_in_board (board_copy (board g)) r c num = true ->
      is_valid_move g r c num false = true).
Proof.
  intros Hr Hc Hflag Hcol Hself.
  rewrite (is_valid_in_board_spec _ r c num (board_copy_grid9 _) Hr Hc).
  rewrite (is_valid_move_rules g r c num false Hr Hc).
  assert (Hconf : forall r' c', (r' < 9)%nat -> (c' < 9)%nat ->
            conflicts false num (cell_at (board g) r' c') = false
            <-> value (cell_at (board g) r' c') ≠ num).
  { intros r' c' Hr' Hc'. unfold conflicts. rewrite (Hcol r' c' Hr' Hc').
    cbn [andb orb]. rewrite orb_false_r. apply Z.eqb_neq. }
  split.
  - intros [Hu|Hpeers]; [congruence|].
    intros [r' c'] Hin Hunit. pose proof Hin as [Hr' Hc']%in_all_cells.
    unfold at_pos. cbn [fst snd]. rewrite grid_at_board_copy by done.
    destruct (decide ((r', c') = (r, c))) as [[= -> ->]|Hne]; [done|].
    apply Hconf; [done..|]. apply (Hpeers (r', c') Hin).
    unfold peer. rewrite Hunit. cbn [orb]. rewrite andb_true_r.
    apply negb_true_iff, not_true_iff_false. rewrite same_pos_true. congruence.
  - intros Hd Ha Hgrid. right. intros [r' c'] Hin Hp.
    pose proof Hin as [Hr' Hc']%in_all_cells. cbn [fst snd].
    apply Hconf; [done..|].
    specialize (Hgrid (r', c') Hin). unfold at_pos in Hgrid. cbn [fst snd] in Hgrid.
    rewrite grid_at_board_copy in Hgrid by done. apply Hgrid.
    unfold peer in Hp. cbn [fst snd] in Hp.
    apply andb_prop in Hp as [_ Hp].
    destruct (Nat.eqb_spec r c); [done|]. destruct (Nat.eqb_spec (r + c) 8); [done|].
    cbn [andb] in Hp. by rewrite !orb_false_r in Hp.
Qed.

Lemma checkers_agree_witness :
  (is_valid_move medium_start 0 1 2 false = true ->
   is_valid_in_board (board_copy (board medium_start)) 0 1 2 = true)
  /\ (0%nat ≠ 1%nat -> (0 + 1)%nat ≠ 8%nat ->
      is_valid_in_board (board_copy (board medium_start)) 0 1 2 = true ->
      is_valid_move medium_start 0 1 2 false = true).
Proof.
  apply (checkers_agree medium_start 0 1 2); [lia|lia|reflexivity| |].
  - intros r' c' Hr' Hc'.
    do 9 (destruct r' as [|r'];
          [do 9 (destruct c' as [|c']; [reflexivity|]); lia|]).
    lia.
  - vm_compute. discriminate.
Defined.

(** ** The backtracking solver *)

Lemma peer_sym p q : peer p q = peer q p.
Proof.
  unfold peer. f_equal.
  - f_equal. unfold same_pos. by rewrite (Nat.eqb_sym p.1), (Nat.eqb_sym p.2).
  - rewrite (same_unit_sym p q). f_equal; [f_equal|]; apply andb_comm.
Qed.

Lemma find_empty_cell_Some g row col :
  find_empty_cell g = Some (row, col) ->
  (row, col) ∈ all_cells /\ value_at g row col = 0.
Proof.
  unfold find_empty_cell. intros H. apply find_some in H as [Hin Hv].
  split; [by apply list_elem_of_In|]. by apply Z.eqb_eq in Hv.
Qed.

Lemma find_empty_cell_None g r c :
  find_empty_cell g = None -> (r < 9)%nat -> (c < 9)%nat -> value_at g r c ≠ 0.
Proof.
  unfold find_empty_cell. intros H Hr Hc.
  pose proof (find_none _ _ H (r, c)) as Hn. cbv beta iota in Hn.
  apply Z.eqb_neq, Hn, list_elem_of_In, in_all_cells. done.
Qed.

Lemma value_at_set_value row col v g r c :
  is_Some (lookup_cell (board g) row col) ->
  value_at (set_value row col v g) r c
  = if decide ((r, c) = (row, col)) then v else value_at g r c.
Proof.
  intros [x Hx]. unfold value_at, set_value. cbn [board with_board].
  destruct (decide ((r, c) = (row, col))) as [[= -> ->]|Hne].
  - by rewrite (cell_at_update_eq _ _ _ _ x).
  - by rewrite cell_at_update_ne.
Qed.

Lemma set_value_shape row col v g :
  solvable_shape g -> solvable_shape (set_value row col v g).
Proof.
  intros (H9 & Hflag & Hcol). split; [by apply board9_update|]. split; [done|].
  intros r c Hr Hc. unfold set_value. cbn [board with_board].
  destruct (board9_lookup _ r c H9 Hr Hc) as [x Hx].
  destruct (decide ((r, c) = (row, col))) as [[= -> ->]|Hne].
  - rewrite (cell_at_update_eq _ _ _ _ x Hx). cbn [collapsed with_value].
    rewrite <- (cell_at_lookup _ _ _ _ Hx). by apply Hcol.
  - rewrite cell_at_update_ne by done. by apply Hcol.
Qed.

Lemma empties_ext g g' :
  (forall r c, value_at g' r c = value_at g r c) -> empties g' = empties g.
Proof.
  intros H. unfold empties. apply filter_ext. intros [r c].
  specialize (H r c). unfold value_at in H. by rewrite H.
Qed.

Lemma empties_fill row col num g :
  board9 (board g) -> (row, col) ∈ all_cells -> value_at g row col = 0 -> num ≠ 0 ->
  (length (empties (set_value row col num g)) < length (empties g))%nat.
Proof.
  intros H9 Hin Hv Hnum. unfold empties.
  pose proof Hin as [Hr Hc]%in_all_cells.
  pose proof (board9_lookup _ _ _ H9 Hr Hc) as Hsome.
  apply (filter_length_lt _ _ (row, col)); [|done| |].
  - intros [r c] Hz. apply Z.eqb_eq in Hz. apply Z.eqb_eq.
    pose proof (value_at_set_value row col num g r c Hsome) as Hs.
    unfold value_at in Hs. rewrite Hs in Hz.
    destruct (decide ((r, c) = (row, col))); [done|done].
  - by apply Z.eqb_eq.
  - apply Z.eqb_neq.
    pose proof (value_at_set_value row col num g row col Hsome) as Hs.
    unfold value_at in Hs. rewrite Hs. by rewrite decide_True.
Qed.

Lemma empties_length g : (length (empties g) <= 81)%nat.
Proof.
  unfold empties.
  pose proof (filter_shorter
    (fun '(r, c) => value (cell_at (board g) r c) =? 0) all_cells) as H.
  exact H.
Qed.

(** A number that [is_valid_move] accepts differs from the values of all
    peers. *)
Lemma is_valid_move_fits g row col num q :
  solvable_shape g -> (row, col) ∈ all_cells ->
  is_valid_move g row col num false = true ->
  q ∈ all_cells -> peer (row, col) q = true -> value_at g q.1 q.2 ≠ num.
Proof.
  intros (H9 & Hflag & Hcol) [Hr Hc]%in_all_cells Hvalid Hq Hp.
  apply (is_valid_move_rules g row col num false Hr Hc) in Hvalid as [Hu|Hpeers];
    [congruence|].
  specialize (Hpeers q Hq Hp). unfold conflicts in Hpeers.
  destruct q as [r c]. cbn [fst snd] in *. apply in_all_cells in Hq as [Hr' Hc'].
  rewrite (Hcol r c Hr' Hc') in Hpeers. cbn [andb orb] in Hpeers.
  rewrite orb_false_r in Hpeers. by apply Z.eqb_neq in Hpeers.
Qed.

Lemma solve_nums_sound rec row col g :
  solvable_shape g -> (row, col) ∈ all_cells -> value_at g row col = 0 ->
  (forall g1, solvable_shape g1 ->
     (length (empties g1) < length (empties g))%nat ->
     exists ok g', rec g1 = Some (ok, g') /\ solved_from g1 ok g') ->
  forall l g0,
    (forall num, num ∈ l -> 1 <= num <= 9) ->
    (forall s, completion g s -> value_at s row col ∈ l) ->
    only_board g g0 -> solvable_shape g0 ->
    (forall r c, value_at g0 r c = value_at g r c) ->
    exists ok g', solve_nums rec row col l g0 = Some (ok, g') /\ solved_from g ok g'.
Proof.
  intros Hshape Hin Hempty Hrec.
  pose proof Hin as [Hrow Hcol]%in_all_cells.
  induction l as [|num l IH]; intros g0 Hl Htried Honly Hshape0 Hvals;
    cbn [solve_nums].
  - exists false, g0. split; [done|]. split; [done|]. split; [done|].
    split; [done|]. intros _. split; [done|].
    intros s Hs. specialize (Htried s Hs). by apply elem_of_nil in Htried.
  - assert (Hl' : forall n, n ∈ l -> 1 <= n <= 9) by (intros n Hn; apply Hl; by right).
    assert (Hnum : 1 <= num <= 9) by (apply Hl; left).
    assert (Hrest : forall s, completion g s -> value_at s row col ≠ num ->
              value_at s row col ∈ l).
    { intros s Hs Hne. specialize (Htried s Hs).
      apply elem_of_cons in Htried as [?|?]; done. }
    destruct (is_valid_move g0 row col num false) eqn:Hvalid.
    2:{ apply IH; [done| |done|done|done].
        intros s Hs. apply (Hrest s Hs). intros Hsp.
        apply not_true_iff_false in Hvalid. apply Hvalid.
        apply is_valid_move_rules; [done..|]. right.
        intros [r c] Hq Hpeer. cbn [fst snd]. unfold conflicts.
        rewrite orb_false_r. apply andb_false_iff. right. apply Z.eqb_neq.
        fold (value_at g0 r c). rewrite Hvals.
        destruct (decide (value_at g r c = 0)) as [Hz|Hnz]; [lia|].
        destruct Hs as [Hgiven Hfill]. rewrite <- (Hgiven r c Hnz), <- Hsp.
        destruct (Hfill (row, col) Hin Hempty) as [_ Hfit].
        apply (Hfit (r, c) Hq Hpeer). }
    assert (Hsome0 : is_Some (lookup_cell (board g0) row col))
      by (apply board9_lookup; [apply Hshape0|done..]).
    set (g1 := set_value row col num g0).
    assert (Hv1 : forall r c, value_at g1 r c
                    = if decide ((r, c) = (row, col)) then num else value_at g r c).
    { intros r c. unfold g1. rewrite value_at_set_value by done.
      destruct (decide _); [done|apply Hvals]. }
    destruct (Hrec g1) as (ok1 & g2 & -> & Hfrom).
    { by apply set_value_shape. }
    { rewrite <- (empties_ext g g0 Hvals).
      apply empties_fill; [apply Hshape0|done| |lia]. by rewrite Hvals. }
    destruct Hfrom as (Honly2 & Hshape2 & Htrue & Hfalse).
    destruct ok1.
    + exists true, g2. split; [done|].
      destruct (Htrue eq_refl) as [Hkept Hfill]. clear Htrue Hfalse.
      assert (H2p : value_at g2 row col = num).
      { rewrite Hkept; rewrite Hv1, decide_True by done; [done|lia]. }
      split; [|split; [done|split; [|done]]].
      * eapply only_board_trans; [exact Honly|].
        eapply only_board_trans; [|exact Honly2]. apply only_board_set_value.
      * intros _. split.
        -- intros r c Hv.
           assert (Hne : (r, c) ≠ (row, col)) by (intros [= -> ->]; done).
           rewrite Hkept; rewrite Hv1, decide_False by done; done.
        -- intros [r c] Hp Hz. cbn [fst snd] in Hz.
           destruct (decide ((r, c) = (row, col))) as [[= -> ->]|Hne].
           ++ cbn [fst snd]. rewrite H2p. split; [done|].
              intros [r' c'] Hq Hpeer. cbn [fst snd]. rewrite H2p.
              assert (Hne : (r', c') ≠ (row, col)).
              { intros [= -> ->]. unfold peer in Hpeer.
                by rewrite (proj2 (same_pos_true _ _) eq_refl) in Hpeer. }
              destruct (decide (value_at g1 r' c' = 0)) as [Hz1|Hnz1].
              ** destruct (Hfill (r', c') Hq Hz1) as [_ Hfit].
                 specialize (Hfit (row, col) Hin).
                 rewrite peer_sym in Hfit. specialize (Hfit Hpeer).
                 cbn [fst snd] in Hfit. rewrite H2p in Hfit. congruence.
              ** rewrite (Hkept r' c' Hnz1), Hv1, decide_False, <- Hvals by done.
                 apply (is_valid_move_fits g0 row col num (r', c')); done.
           ++ apply Hfill; [done|]. cbn [fst snd]. by rewrite Hv1, decide_False.
    + destruct (Hfalse eq_refl) as [Hrestored Hnone]. clear Htrue Hfalse.
      assert (Hsome2 : is_Some (lookup_cell (board g2) row col))
        by (apply board9_lookup; [apply Hshape2|done..]).
      apply IH; [done| | |by apply set_value_shape|].
      * intros s Hs. apply (Hrest s Hs). intros Hsp. apply (Hnone s).
        destruct Hs as [Hgiven Hfill]. split.
        -- intros r c. rewrite Hv1.
           destruct (decide ((r, c) = (row, col))) as [[= -> ->]|Hne]; [done|].
           apply Hgiven.
        -- intros [r c] Hp. cbn [fst snd]. rewrite Hv1.
           destruct (decide ((r, c) = (row, col))) as [[= -> ->]|Hne]; [lia|].
           apply (Hfill (r, c) Hp).
      * eapply only_board_trans; [exact Honly|].
        eapply only_board_trans; [apply only_board_set_value|].
        eapply only_board_trans; [exact Honly2|]. apply only_board_set_value.
      * intros r c. rewrite value_at_set_value by done.
        destruct (decide ((r, c) = (row, col))) as [[= -> ->]|Hne]; [done|].
        by rewrite Hrestored, Hv1, decide_False.
Qed.

Lemma solve_board_sound fuel g :
  solvable_shape g -> (length (empties g) < fuel)%nat ->
  exists ok g', solve_board fuel g = Some (ok, g') /\ solved_from g ok g'.
Proof.
  revert g. induction fuel as [|fuel IH]; intros g Hshape Hlen; [lia|].
  cbn [solve_board]. destruct (find_empty_cell g) as [[row col]|] eqn:Hfind.
  - apply find_empty_cell_Some in Hfind as [Hin Hv].
    apply (solve_nums_sound _ row col g);
      [done|done|done| | | |apply only_board_refl|done|done].
    + intros g1 Hs1 Hl1. apply IH; [done|lia].
    + intros num. apply elem_of_nums.
    + intros s [_ Hfill]. apply elem_of_nums. by apply (Hfill (row, col) Hin Hv).
  - exists true, g. split; [done|]. split; [apply only_board_refl|].
    split; [done|]. split; [|done]. intros _. split; [done|].
    intros [r c] [Hr Hc]%in_all_cells Hz. cbn [fst snd] in Hz.
    by destruct (find_empty_cell_None g r c Hfind Hr Hc).
Qed.

(** X16.  On a 9x9 board whose cells are all resolved, with no logic move
    in progress, [solve_board] returns, whatever the board holds, and
    changes nothing but the board.  It returns True exactly when the board
    can be completed, and then leaves a completion: the numbers that were
    there are kept, and every cell that was empty holds a number of 1..9
    that differs from the value of every other cell of its row, its
    column, its box and the diagonals through it.  When it returns False
    every value is as it was before the call. *)
Theorem solve_board_backtracks g :
  solvable_shape g ->
  exists ok g',
    solve_board 82 g = Some (ok, g')
    /\ solved_from g ok g'
    /\ (ok = true <-> exists s, completion g s).
Proof.
  intros Hshape. destruct (solve_board_sound 82 g Hshape) as (ok & g' & E & Hfrom).
  { pose proof (empties_length g). lia. }
  exists ok, g'. split; [done|]. split; [done|].
  destruct Hfrom as (_ & _ & Htrue & Hfalse). destruct ok.
  - split; [|done]. intros _. exists g'. by apply Htrue.
  - split; [done|]. intros [s Hs]. by destruct (proj2 (Hfalse eq_refl) s).
Qed.

Lemma solve_board_backtracks_witness :
  exists ok g',
    solve_board 82 (init_game medium) = Some (ok, g')
    /\ solved_from (init_game medium) ok g'
    /\ (ok = true <-> exists s, completion (init_game medium) s).
Proof.
  apply (solve_board_backtracks (init_game medium)).
  split; [apply init_game_board9|]. split; [reflexivity|].
  intros r c Hr Hc.
  do 9 (destruct r as [|r]; [do 9 (destruct c as [|c]; [reflexivity|]); lia|]).
  lia.
Defined.

(** ** The board that passes the final check *)

Lemma new_game_given_locked d t g t' r c x :
  new_game d t = Some (g, t') -> (r, c) ∈ all_cells ->
  lookup_cell (board g) r c = Some x -> empty_or_locked x.
Proof.
  intros Hnew Hin. destruct (new_game_shape d t) as (g1 & _ & E).
  rewrite E in Hnew. apply some_pair_inj in Hnew as [Hg _]. subst g.
  cbn [board with_board].
  apply (update_cells_at empty_or_locked lock_given all_cells (board g1) r c x);
    [apply lock_given_empty_or_locked|by left].
Qed.

(** The numbers of the puzzle stay where they are, whatever is played. *)
Lemma givens_kept d t g0 t0 cs t1 r c :
  new_game d t = Some (g0, t0) -> (r < 9)%nat -> (c < 9)%nat ->
  value_at g0 r c ≠ 0 ->
  value_at (run_all cs g0 t1).1 r c = value_at g0 r c.
Proof.
  intros Hnew Hr Hc Hv.
  destruct (new_game_spec d t g0 t0 Hnew) as [_ Hinv].
  destruct (new_game_ok d t g0 t0 Hnew) as [H9 _].
  destruct (board9_lookup _ r c H9 Hr Hc) as [x Hx].
  pose proof (new_game_given_locked d t g0 t0 r c x Hnew
                (proj2 (in_all_cells r c) (conj Hr Hc)) Hx) as Hgiven.
  clear Hnew. unfold value_at in *. rewrite (cell_at_lookup _ _ _ _ Hx) in *.
  destruct Hgiven as [Hz|Hl]; [congruence|].
  pose proof (run_all_frame cs g0 t1 Hinv) as Hframe.
  by rewrite (cell_at_lookup _ _ _ _ (locked_frame_keeps _ _ _ _ _ Hframe Hx Hl)).
Qed.

Lemma same_unit_peer p q : q ≠ p -> same_unit p q = true -> peer p q = true.
Proof.
  intros Hne Hu. unfold peer. rewrite Hu. cbn [orb]. rewrite andb_true_r.
  apply negb_true_iff, not_true_iff_false. rewrite same_pos_true. congruence.
Qed.

(** X17.  On easy and medium there is one winning board.  Whatever was
    played since the game was created, if the board passes
    [is_board_solved] and holds only numbers of 1..9 (which the check
    itself does not look at), then it is the grid that the generator
    built. *)
Theorem winning_board_unique d t g0 t0 cs t1 :
  new_game d t = Some (g0, t0) -> is_hard d = false ->
  is_board_solved (run_all cs g0 t1).1 = true ->
  (forall r c, (r < 9)%nat -> (c < 9)%nat ->
     1 <= value_at (run_all cs g0 t1).1 r c <= 9) ->
  forall r c, (r < 9)%nat -> (c < 9)%nat ->
    value_at (run_all cs g0 t1).1 r c = grid_at solved_grid r c.
Proof.
  intros Hnew Hd Hsolved Hrange.
  pose proof (fun r c => givens_kept d t g0 t0 cs t1 r c Hnew) as Hkept.
  set (g := (run_all cs g0 t1).1) in *.
  destruct (new_game_carved_unique d t g0 t0 Hnew Hd) as [Hone Hw]. clear Hnew.
  apply is_board_solved_units in Hsolved as [_ Hunits].
  assert (Hs : is_solution (board_copy (board g0)) (board_copy (board g))).
  { split; [apply board_copy_grid9|]. split.
    - intros [r c] [Hr Hc]%in_all_cells. unfold at_pos. cbn [fst snd].
      rewrite !grid_at_board_copy by done. intros Hv. by apply Hkept.
    - intros [r c] Hp _. pose proof Hp as [Hr Hc]%in_all_cells.
      unfold at_pos. cbn [fst snd]. rewrite grid_at_board_copy by done.
      split; [by apply Hrange|].
      intros [r' c'] Hq Hne Hunit. pose proof Hq as [Hr' Hc']%in_all_cells.
      cbn [fst snd]. rewrite grid_at_board_copy by done.
      destruct (peer_in_unit r c r' c') as (u & Hu & Hin1 & Hin2); [done..| |].
      { by apply same_unit_peer. }
      apply (NoDup_map_ne (fun p => value_at g p.1 p.2) u (r', c') (r, c));
        [by apply Hunits|done|done|done]. }
  pose proof (one_solution_unique _ _ _ (board_copy_grid9 _) Hone Hs
                (values_within_solution _ Hw)) as Heq.
  intros r c Hr Hc. rewrite <- Heq. by rewrite grid_at_board_copy.
Qed.

Lemma solved_session_eq : (run_all solving_moves medium_start []).1 = solved_session.
Proof. vm_compute. reflexivity. Qed.

Lemma winning_board_unique_witness :
  value_at (run_all solving_moves medium_start []).1 0 1 = grid_at solved_grid 0 1.
Proof.
  apply (winning_board_unique medium [] medium_start [] solving_moves []);
    [exact new_game_medium_nil|reflexivity| | |lia|lia].
  - rewrite solved_session_eq. vm_compute. reflexivity.
  - rewrite solved_session_eq. intros r c Hr Hc.
    do 9 (destruct r as [|r];
          [do 9 (destruct c as [|c]; [vm_compute; split; discriminate|]); lia|]).
    lia.
Defined.

(** ** A logic move on a filled cell *)

Lemma sample_pool_length {A} k (pool : list A) n t :
  (k <= n)%nat -> (n <= length pool)%nat ->
  length (Random.sample_pool k pool n t).1 = k.
Proof.
  revert pool n t. induction k as [|k IH]; intros pool n t Hk Hn;
    cbn [Random.sample_pool]; [done|].
  pose proof (randbelow_lt n t ltac:(lia)) as Hj.
  destruct (Random.randbelow n t) as [j t1]. cbn [fst] in Hj.
  destruct (lookup_lt_is_Some_2 pool j ltac:(lia)) as [x ->].
  destruct (lookup_lt_is_Some_2 pool (n - 1) ltac:(lia)) as [y ->].
  specialize (IH (<[j := y]> pool) (n - 1)%nat t1 ltac:(lia)).
  rewrite length_insert in IH. specialize (IH ltac:(lia)).
  destruct (Random.sample_pool k _ _ t1) as [rest t2]. cbn [fst length] in *. lia.
Qed.

Lemma sample_pool_subset {A} k (pool : list A) n t x :
  x ∈ (Random.sample_pool k pool n t).1 -> x ∈ pool.
Proof.
  revert pool n t. induction k as [|k IH]; intros pool n t;
    cbn [Random.sample_pool]; [by intros ?%elem_of_nil|].
  destruct (Random.randbelow n t) as [j t1].
  destruct (pool !! j) as [a|] eqn:Ea; [|by intros ?%elem_of_nil].
  destruct (pool !! (n - 1)%nat) as [b|] eqn:Eb; [|by intros ?%elem_of_nil].
  specialize (IH (<[j := b]> pool) (n - 1)%nat t1).
  destruct (Random.sample_pool k _ _ t1) as [rest t2]. cbn [fst] in *.
  intros [->|Hin]%elem_of_cons.
  - by eapply list_elem_of_lookup_2.
  - apply IH, elem_of_insert_inv in Hin as [->|Hin]; [|done].
    by eapply list_elem_of_lookup_2.
Qed.

Lemma alternatives_spec current x :
  x ∈ List.filter (fun num => negb (num =? current)) nums
  <-> 1 <= x <= 9 /\ x ≠ current.
Proof.
  rewrite list_elem_of_In, filter_In, <- list_elem_of_In, elem_of_nums.
  rewrite negb_true_iff, Z.eqb_neq. done.
Qed.

Lemma alternatives_length (current : Z) :
  (8 <= length (List.filter (fun num => negb (num =? current)%Z) nums))%nat.
Proof.
  pose proof (filter_length_one_change
                (fun num => negb (num =? current)) (fun _ => true) current nums
                nums_NoDup) as H.
  assert (Hall : List.filter (fun _ : Z => true) nums = nums) by reflexivity.
  rewrite Hall in H. change (length nums) with 9%nat in H.
  apply Nat.succ_le_mono, H. intros x Hne.
  by apply negb_true_iff, Z.eqb_neq.
Qed.

(** [create_entanglement] leaves the state of the cell it is called on as
    it is: only its links and its group change. *)
Lemma create_entanglement_target row col g t x :
  lookup_cell (board g) row col = Some x ->
  exists y,
    lookup_cell (board (create_entanglement row col g t).1) row col = Some y
    /\ value y = value x /\ superposition y = superposition x
    /\ collapsed y = collapsed x /\ locked y = locked x.
Proof.
  intros Hx. unfold create_entanglement.
  set (cands := cells_where _ (board g)).
  destruct (is_empty_list cands) eqn:Hc; [by exists x|].
  pose proof (choice_in (0, 0)%nat cands t (is_empty_list_false _ Hc)) as Hin.
  destruct (Random.choice _ cands t) as [[orow ocol] t']. cbn [fst] in *.
  apply cells_where_spec in Hin.
  apply andb_prop in Hin as [Hin _]. apply andb_prop in Hin as [Hne _].
  assert (Hdiff : (row, col) ≠ (orow, ocol)).
  { intros [= <- <-]. by rewrite !Nat.eqb_refl in Hne. }
  cbn [board with_groups with_board].
  rewrite lookup_cell_update_ne by done. rewrite lookup_cell_update_eq, Hx.
  eexists. split; [reflexivity|]. by repeat split.
Qed.

(** A player move on a cell in superposition, with one of its candidates. *)
Lemma make_move_collapses row col v g t y :
  lookup_cell (board g) row col = Some y ->
  locked y = false -> collapsed y = false -> v ∈ superposition y ->
  exists g' t',
    make_move row col v g t = (Return true, g', t')
    /\ cell_at (board g') row col = collapse_to v y.
Proof.
  intros Hy Hl Hc Hv. unfold make_move. rewrite Hy, Hl, Hc.
  destruct (collapse_quantum_cell row col (Some v) g t) as [[ok g'] t'] eqn:E.
  destruct (collapse_quantum_cell_spec _ _ _ _ _ _ _ _ _ Hy E) as (Hok & _ & Htrue).
  assert (ok = true) as ->.
  { apply Hok. split.
    - unfold is_quantum. rewrite Hc. by destruct (superposition y);
        [apply elem_of_nil in Hv|].
    - by intros w [= <-]. }
  exists g', t'. split; [done|].
  destruct (Htrue eq_refl) as (_ & (w & Hcell & _ & Hw & _) & _).
  by rewrite Hcell, (Hw v eq_refl).
Qed.

(** X18.  A logic move on a filled, unlocked cell puts it into
    superposition: the cell loses its value and gets its previous value as
    first candidate, followed by 1 to 3 other numbers of 1..9.  A player
    move with the previous value then resolves the cell to that value
    again. *)
Theorem logic_move_round_trip row col v g t cell :
  lookup_cell (board g) row col = Some cell ->
  locked cell = false -> collapsed cell = true -> value cell ≠ 0 ->
  0 < logic_moves_remaining g ->
  exists g' t' chosen,
    use_logic_move row col v g t = (Return true, g', t')
    /\ value (cell_at (board g') row col) = 0
    /\ collapsed (cell_at (board g') row col) = false
    /\ superposition (cell_at (board g') row col) = value cell :: chosen
    /\ (1 <= length chosen <= 3)%nat
    /\ (forall x, x ∈ chosen -> 1 <= x <= 9 /\ x ≠ value cell)
    /\ exists g'' t'',
         make_move row col (value cell) g' t' = (Return true, g'', t'')
         /\ value (cell_at (board g'') row col) = value cell
         /\ collapsed (cell_at (board g'') row col) = true.
Proof.
  intros Hcell Hl Hc Hv Hbudget.
  assert (Hshape : exists g' t' chosen y,
            use_logic_move row col v g t = (Return true, g', t')
            /\ lookup_cell (board g') row col = Some y
            /\ value y = 0 /\ collapsed y = false /\ locked y = false
            /\ superposition y = value cell :: chosen
            /\ (1 <= length chosen <= 3)%nat
            /\ (forall x, x ∈ chosen -> 1 <= x <= 9 /\ x ≠ value cell)).
  { unfold use_logic_move.
    destruct (Z.leb_spec (logic_moves_remaining g) 0) as [?|_]; [lia|].
    rewrite Hcell, Hl, Hc. destruct (Z.eqb_spec (value cell) 0) as [?|_]; [done|].
    pose proof (randint_range 1 3 t ltac:(lia)) as Hk.
    destruct (Random.randint 1 3 t) as [k t1]. cbn [fst] in Hk.
    set (alts := List.filter (fun num => negb (num =? value cell)) nums).
    pose proof (alternatives_length (value cell)) as Hlen. fold alts in Hlen.
    unfold Random.sample.
    pose proof (sample_pool_length (Nat.min (Z.to_nat k) (length alts)) alts
                  (length alts) t1 ltac:(lia) ltac:(lia)) as Hlc.
    pose proof (fun x => sample_pool_subset (Nat.min (Z.to_nat k) (length alts)) alts
                  (length alts) t1 x) as Hsub.
    destruct (Random.sample_pool _ alts (length alts) t1) as [chosen t2].
    cbn [fst] in Hlc, Hsub.
    assert (Hlc' : (1 <= length chosen <= 3)%nat) by lia.
    assert (Hch : forall x, x ∈ chosen -> 1 <= x <= 9 /\ x ≠ value cell).
    { intros x Hx. by apply alternatives_spec, Hsub. }
    set (newcell := set_superposition (value cell :: chosen) cell).
    assert (Hnew : value newcell = 0 /\ collapsed newcell = false
                   /\ locked newcell = false
                   /\ superposition newcell = value cell :: chosen).
    { unfold newcell, set_superposition.
      destruct chosen as [|c0 chosen']; [cbn [length] in Hlc'; lia|]. by repeat split. }
    destruct Hnew as (N1 & N2 & N3 & N4).
    set (g1 := with_board _ (with_using_logic_move true g)).
    assert (Hg1 : lookup_cell (board g1) row col = Some newcell).
    { unfold g1. cbn [board with_board with_using_logic_move].
      by rewrite lookup_cell_update_eq, Hcell. }
    destruct (Random.random t2) as [x t3]. destruct (x <? 500).
    - destruct (create_entanglement_target row col g1 t3 newcell Hg1)
        as (y & Hy & Y1 & Y2 & Y3 & Y4).
      destruct (create_entanglement row col g1 t3) as [g2 t4]. cbn [fst] in Hy.
      eexists _, _, chosen, y. split; [reflexivity|].
      cbn [board with_logic_moves with_using_logic_move].
      repeat split; try congruence; try lia; by apply Hch.
    - eexists _, _, chosen, newcell. split; [reflexivity|].
      cbn [board with_logic_moves with_using_logic_move].
      repeat split; try congruence; try lia; by apply Hch. }
  destruct Hshape as (g' & t' & chosen & y & E & Hy & Y1 & Y2 & Y3 & Y4 & Hlen & Hch).
  exists g', t', chosen. rewrite (cell_at_lookup _ _ _ _ Hy).
  split; [done|]. split; [done|]. split; [done|]. split; [done|].
  split; [done|]. split; [done|].
  destruct (make_move_collapses row col (value cell) g' t' y Hy Y3 Y2)
    as (g'' & t'' & Em & Hcell'').
  { rewrite Y4. left. }
  exists g'', t''. split; [done|]. by rewrite Hcell''.
Qed.

Lemma logic_move_round_trip_witness :
  exists g' t' chosen,
    use_logic_move 0 1 None filled_02 [] = (Return true, g', t')
    /\ value (cell_at (board g') 0 1) = 0
    /\ collapsed (cell_at (board g') 0 1) = false
    /\ superposition (cell_at (board g') 0 1) = value (with_value 2 new_cell) :: chosen
    /\ (1 <= length chosen <= 3)%nat
    /\ (forall x, x ∈ chosen -> 1 <= x <= 9 /\ x ≠ value (with_value 2 new_cell))
    /\ exists g'' t'',
         make_move 0 1 (value (with_value 2 new_cell)) g' t' = (Return true, g'', t'')
         /\ value (cell_at (board g'') 0 1) = value (with_value 2 new_cell)
         /\ collapsed (cell_at (board g'') 0 1) = true.
Proof.
  apply (logic_move_round_trip 0 1 None filled_02 [] (with_value 2 new_cell)).
  - vm_compute. reflexivity.
  - reflexivity.
  - reflexivity.
  - discriminate.
  - vm_compute. reflexivity.
Defined.

Lemma cells_where_eq p b :
  cells_where p b = List.filter (fun '(r, c) => p r c (cell_at b r c)) all_cells.
Proof. reflexivity. Qed.

(** ** Candidates are never 0 *)

Lemma board_all_update_at (P : QuantumCell -> Prop) f row col b :
  board_all P b ->
  (forall x, lookup_cell b row col = Some x -> P (f x)) ->
  board_all P (update_cell f row col b).
Proof.
  intros Hb Hf r c y Hy. destruct (decide ((r, c) = (row, col))) as [[= -> ->]|Hne].
  - rewrite lookup_cell_update_eq in Hy.
    destruct (lookup_cell b row col) as [x|] eqn:E; [|done].
    apply (inj Some) in Hy. subst y. by apply Hf.
  - rewrite lookup_cell_update_ne in Hy by done. by eapply Hb.
Qed.

Lemma nonzero_candidates_cell_at b r c :
  candidates_ok b -> nonzero_candidates (cell_at b r c).
Proof.
  intros H. unfold cell_at. destruct (lookup_cell b r c) as [x|] eqn:E; cbn [default].
  - by eapply H.
  - constructor.
Qed.

Lemma nonzero_candidates_collapse c v t ok c' t' :
  collapse c v t = (ok, c', t') -> nonzero_candidates c -> nonzero_candidates c'.
Proof.
  intros E Hc. apply collapse_spec in E as (Hfalse & Htrue & _). destruct ok.
  - destruct (Htrue eq_refl) as (_ & w & -> & _). constructor.
  - by destruct (Hfalse eq_refl) as [-> _].
Qed.

Lemma nonzero_candidates_set_superposition v chosen x :
  v ≠ 0 -> Forall (fun w => w ≠ 0) chosen ->
  nonzero_candidates (set_superposition (v :: chosen) x).
Proof.
  intros Hv Hch. unfold set_superposition, nonzero_candidates.
  destruct chosen as [|w chosen]; cbn [superposition]; [constructor|].
  by constructor.
Qed.

Lemma set_value_candidates row col v g :
  candidates_ok (board g) -> candidates_ok (board (set_value row col v g)).
Proof.
  intros H. unfold set_value. cbn [board with_board].
  apply board_all_update_at; [done|]. intros x Hx. exact (H row col x Hx).
Qed.

Lemma collapse_peer_candidates row col p b t :
  candidates_ok b -> candidates_ok (collapse_peer row col p b t).1.
Proof.
  intros Hok. unfold collapse_peer. destruct p as [orow ocol].
  destruct (is_quantum _); [|done].
  destruct (if mem _ _ then _ else _) as [[ok other'] t'] eqn:E. cbn [fst].
  apply board_all_update_at; [done|]. intros x _.
  destruct (mem _ _); eapply nonzero_candidates_collapse; try exact E;
    by apply nonzero_candidates_cell_at.
Qed.

Lemma collapse_peers_candidates row col peers b t :
  candidates_ok b -> candidates_ok (collapse_peers row col peers b t).1.
Proof.
  revert b t. induction peers as [|p peers IH]; intros b t Hok;
    cbn [collapse_peers]; [done|].
  pose proof (collapse_peer_candidates row col p b t Hok) as H1.
  destruct (collapse_peer row col p b t) as [b' t']. by apply IH.
Qed.

Lemma collapse_quantum_cell_candidates row col v g t :
  candidates_ok (board g) ->
  candidates_ok (board (collapse_quantum_cell row col v g t).1.2).
Proof.
  intros Hok. unfold collapse_quantum_cell.
  destruct (negb (is_quantum _)); [done|].
  destruct (collapse _ v t) as [[ok cell'] t1] eqn:E.
  destruct ok; cbn [negb]; [|done].
  pose proof (collapse_peers_candidates row col (entangled_with cell')
                (update_cell (fun _ => cell') row col (board g)) t1) as H.
  destruct (collapse_peers _ _ _ _ t1) as [b2 t2]. cbn [fst snd board with_board] in *.
  apply H. apply board_all_update_at; [done|]. intros x _.
  eapply nonzero_candidates_collapse; [exact E|].
  by apply nonzero_candidates_cell_at.
Qed.

Lemma create_entanglement_candidates row col g t :
  candidates_ok (board g) -> candidates_ok (board (create_entanglement row col g t).1).
Proof.
  intros Hok. unfold create_entanglement.
  destruct (is_empty_list _); [done|].
  destruct (Random.choice _ _ t) as [[orow ocol] t']. cbn [fst board with_groups with_board].
  assert (Hok1 : candidates_ok (update_cell
            (with_entanglement (S (size (entanglement_groups g))) (orow, ocol))
            row col (board g))).
  { apply board_all_update_at; [done|]. intros y Hy. exact (Hok row col y Hy). }
  apply board_all_update_at; [done|]. intros x Hx. exact (Hok1 orow ocol x Hx).
Qed.

Lemma sample_nonzero (current : Z) k t :
  Forall (fun w => w ≠ 0)
    (Random.sample (List.filter (fun num => negb (num =? current)) nums) k t).1.
Proof.
  apply Forall_forall. intros x Hx. unfold Random.sample in Hx.
  apply sample_pool_subset, alternatives_spec in Hx. lia.
Qed.

Lemma sample_nonzero_valid (p : Z -> bool) k t :
  Forall (fun w => w ≠ 0) (Random.sample (List.filter p nums) k t).1.
Proof.
  apply Forall_forall. intros x Hx. unfold Random.sample in Hx.
  apply sample_pool_subset, list_elem_of_In, filter_In in Hx as [Hx _].
  by apply nums_nonzero, list_elem_of_In.
Qed.

Lemma make_quantum_candidates row col g t :
  candidates_ok (board g) -> value (cell_at (board g) row col) ≠ 0 ->
  candidates_ok (board (make_quantum row col g t).1).
Proof.
  intros Hok Hv. unfold make_quantum.
  destruct (is_empty_list _); [done|].
  destruct (if is_easy _ then _ else _) as [k t1].
  pose proof (sample_nonzero_valid
                (fun num => negb (num =? value (cell_at (board g) row col))
                            && is_valid_move g row col num false)) as Hs.
  match goal with
  | |- context [Random.sample ?l ?n t1] => specialize (Hs n t1)
  end.
  destruct (Random.sample _ _ t1) as [chosen t2]. cbn [fst] in Hs.
  destruct (Random.random t2) as [x t3].
  assert (H1 : candidates_ok (update_cell
            (set_superposition (value (cell_at (board g) row col) :: chosen))
            row col (board g))).
  { apply board_all_update_at; [done|]. intros y _.
    by apply nonzero_candidates_set_superposition. }
  destruct (x <? 500); [|exact H1].
  by apply (create_entanglement_candidates row col (with_board _ g) t3).
Qed.

Lemma create_entanglement_values row col g t r c :
  value (cell_at (board (create_entanglement row col g t).1) r c)
  = value (cell_at (board g) r c).
Proof.
  unfold create_entanglement.
  destruct (is_empty_list _); [done|].
  destruct (Random.choice _ _ t) as [[orow ocol] t']. cbn [fst board with_groups with_board].
  by rewrite !value_update_keeps.
Qed.

Lemma make_quantum_values row col g t r c :
  (r, c) ≠ (row, col) ->
  value (cell_at (board (make_quantum row col g t).1) r c)
  = value (cell_at (board g) r c).
Proof.
  intros Hne. unfold make_quantum.
  destruct (is_empty_list _); [done|].
  destruct (if is_easy _ then _ else _) as [k t1].
  destruct (Random.sample _ _ t1) as [chosen t2].
  destruct (Random.random t2) as [x t3].
  destruct (x <? 500).
  - rewrite create_entanglement_values. cbn [board with_board].
    by rewrite cell_at_update_ne.
  - cbn [fst board with_board]. by rewrite cell_at_update_ne.
Qed.

Lemma make_quantum_all_candidates cells g t :
  NoDup cells ->
  (forall r c, (r, c) ∈ cells -> value (cell_at (board g) r c) ≠ 0) ->
  candidates_ok (board g) -> candidates_ok (board (make_quantum_all cells g t).1).
Proof.
  intros Hnd. revert g t.
  induction Hnd as [|[row col] cells Hx Hnd IH]; intros g t Hv Hok;
    cbn [make_quantum_all]; [done|].
  pose proof (make_quantum_candidates row col g t Hok (Hv row col ltac:(left))) as H1.
  pose proof (fun r c => make_quantum_values row col g t r c) as H2.
  destruct (make_quantum row col g t) as [g' t']. cbn [fst] in *.
  apply IH; [|done]. intros r c Hin. rewrite H2.
  - apply Hv. by right.
  - intros [= -> ->]. done.
Qed.

Lemma filter_NoDup {A} (p : A -> bool) l : NoDup l -> NoDup (List.filter p l).
Proof.
  induction 1 as [|x l Hx Hnd IH]; simpl; [constructor|].
  destruct (p x); [|done]. constructor; [|done].
  rewrite list_elem_of_In, filter_In, <- list_elem_of_In. by intros [? _].
Qed.

Lemma create_quantum_cells_candidates n g t :
  candidates_ok (board g) -> candidates_ok (board (create_quantum_cells n g t).1).
Proof.
  intros Hok. unfold create_quantum_cells.
  set (cands := cells_where _ (board g)).
  pose proof (shuffle_Permutation cands t) as Hperm.
  destruct (Random.shuffle cands t) as [shuffled t']. cbn [fst] in Hperm.
  assert (Hnd : NoDup shuffled).
  { rewrite Hperm. unfold cands. rewrite cells_where_eq.
    apply filter_NoDup, all_cells_NoDup. }
  apply make_quantum_all_candidates; [|  |done].
  - eapply sublist_NoDup; [exact Hnd|apply sublist_take].
  - intros r c Hin. apply (subseteq_take n shuffled) in Hin. rewrite Hperm in Hin.
    apply cells_where_spec in Hin.
    apply andb_prop in Hin as [Hin _]. apply andb_prop in Hin as [_ Hv].
    by apply negb_true_iff, Z.eqb_neq in Hv.
Qed.

Lemma make_move_candidates row col v g t :
  candidates_ok (board g) -> candidates_ok (board (make_move row col v g t).1.2).
Proof.
  intros Hok. unfold make_move.
  destruct (lookup_cell (board g) row col) as [cell|] eqn:Hc; [|done].
  destruct (locked cell); [done|].
  destruct (collapsed cell).
  - destruct (value cell =? 0).
    + destruct (is_valid_move g row col v true); [|done]. cbn [fst snd].
      by apply set_value_candidates.
    + destruct (Random.random t) as [x t']. by destruct (x <? 200).
  - pose proof (collapse_quantum_cell_candidates row col (Some v) g t Hok) as H.
    by destruct (collapse_quantum_cell row col (Some v) g t) as [[ok g'] t'].
Qed.

Lemma use_logic_move_candidates row col v g t :
  candidates_ok (board g) -> candidates_ok (board (use_logic_move row col v g t).1.2).
Proof.
  intros Hok. unfold use_logic_move.
  destruct (logic_moves_remaining g <=? 0); [done|].
  destruct (lookup_cell (board g) row col) as [cell|] eqn:Hc; [|done].
  destruct (locked cell); [done|].
  destruct (collapsed cell); [destruct (Z.eqb_spec (value cell) 0) as [Hz|Hnz]|].
  - destruct (match v with Some x => _ | None => _ end) as [x t'].
    cbn [fst snd board with_logic_moves with_using_logic_move].
    by apply (set_value_candidates row col x (with_using_logic_move true g)).
  - destruct (Random.randint 1 3 t) as [k t1].
    pose proof (sample_nonzero (value cell)) as Hs.
    match goal with
    | |- context [Random.sample ?l ?n t1] => specialize (Hs n t1)
    end.
    destruct (Random.sample _ _ t1) as [chosen t2]. cbn [fst] in Hs.
    assert (H1 : candidates_ok (update_cell
              (set_superposition (value cell :: chosen)) row col (board g))).
    { apply board_all_update_at; [done|]. intros y _.
      by apply nonzero_candidates_set_superposition. }
    destruct (Random.random t2) as [x t3].
    destruct (x <? 500); [|exact H1].
    pose proof (create_entanglement_candidates row col
                  (with_board (update_cell (set_superposition (value cell :: chosen))
                                 row col (board (with_using_logic_move true g)))
                     (with_using_logic_move true g)) t3 H1) as H2.
    by destruct (create_entanglement _ _ _ t3) as [g1 t4].
  - destruct (match v with Some x => _ | None => _ end) as [[ok cell'] t'] eqn:E.
    cbn [fst snd board with_logic_moves with_using_logic_move with_board].
    apply board_all_update_at; [done|]. intros x Hx.
    assert (Hwf : nonzero_candidates cell) by exact (Hok row col cell Hc).
    destruct v as [x0|]; [destruct (mem x0 _)|]; by eapply nonzero_candidates_collapse.
Qed.

Lemma ai_move_candidates g t :
  candidates_ok (board g) -> candidates_ok (board (ai_move g t).1).
Proof.
  intros Hok. unfold ai_move.
  destruct (game_over g); [done|].
  destruct (negb (is_empty_list (cells_where (fun _ _ cell => is_quantum cell) _))).
  - destruct (Random.choice _ _ t) as [[row col] t1].
    destruct (if negb (is_empty_list _) then _ else _) as [[ok cell'] t2] eqn:E.
    assert (Hwf : nonzero_candidates cell').
    { destruct (negb _) in E.
      - destruct (Random.choice 0 _ t1) as [x t'].
        eapply nonzero_candidates_collapse; [exact E|].
        by apply nonzero_candidates_cell_at.
      - eapply nonzero_candidates_collapse; [exact E|].
        by apply nonzero_candidates_cell_at. }
    pose proof (collapse_peers_candidates row col (entangled_with cell')
                  (update_cell (fun _ => cell') row col (board g)) t2) as H2.
    destruct (collapse_peers _ _ _ _ t2) as [b2 t3]. cbn [fst] in *.
    rewrite check_game_over_board. cbn [board with_player_turn with_board].
    apply H2. by apply board_all_update_at.
  - destruct (negb (is_empty_list _)).
    + destruct (Random.choice _ _ t) as [[row col] t1].
      destruct (negb (is_empty_list _)).
      * destruct (Random.choice 0 _ t1) as [x t2]. cbn [fst].
        rewrite check_game_over_board. by apply (set_value_candidates row col x g).
      * destruct (Random.randint 1 9 t1) as [x t2]. cbn [fst].
        rewrite check_game_over_board. by apply (set_value_candidates row col x g).
    + cbn [fst]. by rewrite check_game_over_board.
Qed.

Lemma run_candidates c g t :
  candidates_ok (board g) -> candidates_ok (board (run c g t).1).
Proof.
  intros Hok. destruct c as [row col v|row col v|row col v| | | |p|n]; unfold run.
  - pose proof (make_move_candidates row col v g t Hok) as H.
    by destruct (make_move row col v g t) as [[o g'] t'].
  - pose proof (use_logic_move_candidates row col v g t Hok) as H.
    by destruct (use_logic_move row col v g t) as [[o g'] t'].
  - pose proof (collapse_quantum_cell_candidates row col v g t Hok) as H.
    by destruct (collapse_quantum_cell row col v g t) as [[o g'] t'].
  - by apply ai_move_candidates.
  - cbn [fst]. by rewrite check_game_over_board.
  - cbn [fst handle_give_up game]. by rewrite check_ai_moves_board.
  - done.
  - by apply create_quantum_cells_candidates.
Qed.

Lemma new_game_candidates d t g t' :
  new_game d t = Some (g, t') -> candidates_ok (board g).
Proof.
  intros Hnew. destruct (new_game_shape d t) as (g1 & Ec & E).
  rewrite E in Hnew. apply some_pair_inj in Hnew as [Hg _]. subst g.
  pose proof (carve_spec _ _ _ _ Ec) as [_ Hplain]. clear Ec E.
  cbn [board with_board]. apply update_cells_all.
  - eapply board_all_impl; [exact (Hplain solved_board_plain)|].
    intros x (_ & _ & Hs & _). unfold nonzero_candidates. rewrite Hs. constructor.
  - intros x Hx. unfold lock_given. by destruct (negb _).
Qed.

Lemma reachable_candidates g : reachable g -> candidates_ok (board g).
Proof.
  induction 1 as [d t g t' Hnew|c g t Hr IH].
  - by eapply new_game_candidates.
  - by apply run_candidates.
Qed.

(** ** The AI finishes the game *)

Lemma count_empty_ext b b' :
  (forall r c, (r, c) ∈ all_cells ->
     collapsed (cell_at b' r c) && (value (cell_at b' r c) =? 0)
     = collapsed (cell_at b r c) && (value (cell_at b r c) =? 0)) ->
  count_empty b' = count_empty b.
Proof.
  intros H. rewrite !count_empty_eq. f_equal.
  apply filter_ext_in. intros [r c] Hin. apply H. by apply list_elem_of_In.
Qed.

(** One AI turn settles at least one open cell, and a turn on a board
    without open cells ends the game. *)
Lemma ai_move_settles g t :
  reachable g -> game_over g = false ->
  ((0 < open_cells (board g))%nat ->
   (open_cells (board (ai_move g t).1) < open_cells (board g))%nat)
  /\ (open_cells (board g) = 0%nat -> game_over (ai_move g t).1 = true).
Proof.
  intros Hr Hover. unfold open_cells.
  destruct (ai_move_counts g t Hr Hover) as (P1 & P2 & P3).
  split.
  - intros Hopen.
    destruct (Nat.eq_dec (count_quantum (board g)) 0) as [Hq|Hq].
    + destruct (P2 Hq ltac:(lia)) as [Hq' He']. lia.
    + specialize (P1 ltac:(lia)).
      enough (count_empty (board (ai_move g t).1) = count_empty (board g)) by lia.
      destruct (ai_move_cases g t Hover) as (Hc1 & _ & _).
      destruct (Hc1 (count_quantum_pos (board g) ltac:(lia)))
        as (row & col & _ & _ & _ & _ & Hcells).
      pose proof (reachable_candidates g Hr) as Hcand.
      apply count_empty_ext. intros r c _.
      destruct (Hcells r c) as [->|(Hqz & w & Hw & ->)]; [done|].
      pose proof (nonzero_candidates_cell_at (board g) r c Hcand) as Hnz.
      unfold nonzero_candidates in Hnz. rewrite Forall_forall in Hnz.
      specialize (Hnz w Hw). cbn [collapsed value collapse_to].
      unfold is_quantum in Hqz. apply andb_prop in Hqz as [_ Hcol].
      apply negb_true_iff in Hcol. rewrite Hcol. cbn [andb].
      by apply Z.eqb_neq.
  - intros Hopen. by apply P3; lia.
Qed.

Lemma ai_turns_terminal n g t : game_over g = true -> ai_turns n g t = (g, t).
Proof.
  intros Hover. induction n as [|n IH]; cbn [ai_turns]; [done|].
  by rewrite (ai_move_terminal g t Hover).
Qed.

Lemma filter_disjoint_length {A} (p q : A -> bool) l :
  (forall x, p x = true -> q x = false) ->
  (length (List.filter p l) + length (List.filter q l) <= length l)%nat.
Proof.
  intros Hpq. induction l as [|x l IH]; simpl; [lia|].
  destruct (p x) eqn:Ep; [rewrite (Hpq x Ep); simpl; lia|].
  destruct (q x); simpl; lia.
Qed.

Lemma open_cells_le b : (open_cells b <= 81)%nat.
Proof.
  unfold open_cells. rewrite count_quantum_eq, count_empty_eq.
  pose proof (filter_disjoint_length
    (fun '(r, c) => is_quantum (cell_at b r c))
    (fun '(r, c) => collapsed (cell_at b r c) && (value (cell_at b r c) =? 0))
    all_cells) as H.
  change (length all_cells) with 81%nat in H. apply H.
  intros [r c] Hq. unfold is_quantum in Hq. apply andb_prop in Hq as [_ Hc].
  apply negb_true_iff in Hc. by rewrite Hc.
Qed.

Lemma ai_turns_finish n g t :
  reachable g -> (open_cells (board g) < n)%nat ->
  game_over (ai_turns n g t).1 = true.
Proof.
  revert g t. induction n as [|n IH]; intros g t Hr Hlt; [lia|].
  destruct (game_over g) eqn:Hover; [by rewrite ai_turns_terminal|].
  cbn [ai_turns].
  destruct (ai_move_settles g t Hr Hover) as [Hdec Hzero].
  pose proof (reachable_run AiMove g t Hr) as Hr'. cbn [run] in Hr'.
  destruct (ai_move g t) as [g' t']. cbn [fst] in *.
  destruct (Nat.eq_dec (open_cells (board g)) 0) as [Hz|Hnz].
  - specialize (Hzero Hz). by rewrite ai_turns_terminal.
  - apply IH; [done|]. specialize (Hdec ltac:(lia)). lia.
Qed.

(** X19.  The AI alone finishes any game.  From every session that can
    arise, as many AI turns in a row as there are open cells (cells in
    superposition or empty), and one more, leave the game over; 82 turns
    always do.  This rests on the candidates of a cell never being 0, so
    that a collapse never empties a cell. *)
Theorem ai_finishes_the_game g t :
  reachable g ->
  (forall n, (open_cells (board g) < n)%nat -> game_over (ai_turns n g t).1 = true)
  /\ game_over (ai_turns 82 g t).1 = true
  /\ candidates_ok (board g).
Proof.
  intros Hr. split; [|split].
  - intros n Hn. by apply ai_turns_finish.
  - apply ai_turns_finish; [done|]. pose proof (open_cells_le (board g)). lia.
  - by apply reachable_candidates.
Qed.

Lemma ai_finishes_the_game_witness :
  (forall n, (open_cells (board medium_start) < n)%nat ->
     game_over (ai_turns n medium_start []).1 = true)
  /\ game_over (ai_turns 82 medium_start []).1 = true
  /\ candidates_ok (board medium_start).
Proof.
  apply (ai_finishes_the_game medium_start []).
  exact (reachable_new medium [] medium_start [] new_game_medium_nil).
Defined.
